(** * GemFlow: the reasoning orchestrator, its execution policy and its facade

    A shallow embedding of the TypeScript sources

    - [core/utils.ts]   (stableStringify, sortKeys, withTimeout, sleep, nowMs)
    - [core/cache.ts]   (SimpleCache, makeCacheKey)
    - [core/eventBus.ts] (createEventBus)
    - [core/memory/inmemory.ts] (InMemoryMemory)
    - [core/tools.ts]   (executeToolCalls, buildLCTools)
    - [model/gemini.ts] (toLCMessages, invokeText, invokeWithStructuredOutput, streamText)
    - [graph/graph.ts]  (buildReasoningGraph, callModelTextRaw, ensureRateLimit, retryAsync)
    - [run.ts]          (createLibraryA: run, stream)

    Asynchronous code is modelled sequentially in a state-and-exception monad
    over a [World]: the clock, the trace of observable effects (events
    emitted on the bus, sleeps, model requests, chunks yielded), the response
    cache, the memory store and the heap of limiter objects.  The language
    model is an oracle indexed by the number of requests issued so far.

    Conventions of the model:
    - JS strings are byte strings holding well-formed UTF-8;
    - JS numbers are integers ([Z]); fractional values are outside the model;
    - computation takes no time: the clock advances only in [sleep] and while
      a model request or a tool is awaited; a timer fires when its delay has
      elapsed, not later;
    - a promise that never settles leaves the computation that awaits it
      without result ([OutOfFuel]);
    - the methods of the logger return without throwing (the event bus, which
      guards itself against its handlers, is modelled with loggers that may
      throw). *)

From stdpp Require Import gmap strings list pretty sorting.
From Stdlib Require Import ZArith Lia Ascii.

Set Warnings "-register-all".
Local Open Scope Z_scope.

(** ** JavaScript values *)

Inductive JsValue : Type :=
| JUndefined
| JNull
| JBool (b : bool)
| JNum (n : Z)
| JStr (s : string)
| JArr (xs : list JsValue)
| JObj (fields : list (string * JsValue)).

(** Objects are association lists in property-insertion order; a well-formed
    object has pairwise distinct keys. *)
Inductive wf_value : JsValue → Prop :=
| wf_undefined : wf_value JUndefined
| wf_null : wf_value JNull
| wf_bool b : wf_value (JBool b)
| wf_num n : wf_value (JNum n)
| wf_str s : wf_value (JStr s)
| wf_arr xs : (∀ x, x ∈ xs → wf_value x) → wf_value (JArr xs)
| wf_obj fs : NoDup (fs.*1) → (∀ k v, (k, v) ∈ fs → wf_value v) → wf_value (JObj fs).

(** ToBoolean *)
Definition truthy (v : JsValue) : bool :=
  match v with
  | JUndefined | JNull => false
  | JBool b => b
  | JNum n => negb (n =? 0)
  | JStr s => negb (String.eqb s EmptyString)
  | JArr _ | JObj _ => true
  end.

(** An [Error] object; [message] is what [e?.message ?? String(e)] reads. *)
Record JsError : Type := Error { message : string }.

(** ** Strings *)

(** One white-space or line-terminator character at the head of a UTF-8
    string, as recognised by [String.prototype.trim]; returns the rest. *)
Definition strip_ws_head (s : string) : option string :=
  match s with
  | String a r =>
      let n := N_of_ascii a in
      if ((9 <=? n) && (n <=? 13) || (n =? 32))%N then Some r
      else match r with
           | String b r1 =>
               let m := N_of_ascii b in
               if ((n =? 194) && (m =? 160))%N then Some r1          (* U+00A0 *)
               else match r1 with
                    | String c r2 =>
                        let k := N_of_ascii c in
                        if ((n =? 225) && (m =? 154) && (k =? 128)          (* U+1680 *)
                            || (n =? 226) && (m =? 128) && (128 <=? k) && (k <=? 138) (* U+2000..200A *)
                            || (n =? 226) && (m =? 128) && ((k =? 168) || (k =? 169) || (k =? 175))
                            || (n =? 226) && (m =? 129) && (k =? 159)       (* U+205F *)
                            || (n =? 227) && (m =? 128) && (k =? 128)       (* U+3000 *)
                            || (n =? 239) && (m =? 187) && (k =? 191))%N    (* U+FEFF *)
                        then Some r2 else None
                    | _ => None
                    end
           | _ => None
           end
  | EmptyString => None
  end.

Fixpoint trimStart_fuel (fuel : nat) (s : string) : string :=
  match fuel with
  | O => s
  | S fuel => match strip_ws_head s with
              | Some r => trimStart_fuel fuel r
              | None => s
              end
  end.

Definition trimStart (s : string) : string := trimStart_fuel (String.length s) s.

(** The same character read backwards from the end of the string. *)
Definition strip_ws_last (r : list ascii) : option (list ascii) :=
  match r with
  | a :: r1 =>
      let n := N_of_ascii a in
      if ((9 <=? n) && (n <=? 13) || (n =? 32))%N then Some r1
      else match r1 with
           | b :: r2 =>
               let m := N_of_ascii b in
               if ((m =? 194) && (n =? 160))%N then Some r2
               else match r2 with
                    | c :: r3 =>
                        match strip_ws_head (String c (String b (String a EmptyString))) with
                        | Some EmptyString => Some r3
                        | _ => None
                        end
                    | [] => None
                    end
           | [] => None
           end
  | [] => None
  end.

Fixpoint trimEnd_fuel (fuel : nat) (r : list ascii) : list ascii :=
  match fuel with
  | O => r
  | S fuel => match strip_ws_last r with
              | Some r' => trimEnd_fuel fuel r'
              | None => r
              end
  end.

Definition trimEnd (s : string) : string :=
  let r := reverse (String.list_ascii_of_string s) in
  String.string_of_list_ascii (reverse (trimEnd_fuel (length r) r)).

(** [s.trim()] *)
Definition trim (s : string) : string := trimEnd (trimStart s).

(** [lines.join(sep)] *)
Definition join (sep : string) (l : list string) : string := String.concat sep l.

(** ** JSON serialisation ([JSON.stringify]) *)

Definition hex_digit (n : N) : ascii :=
  ascii_of_N (if (n <? 10)%N then 48 + n else 87 + n)%N.

Definition dquote : string := String (ascii_of_N 34) EmptyString.

(** [QuoteJSONString]: the two-character escapes, [\u00XX] for the other
    control characters, everything else verbatim. *)
Fixpoint json_escape (s : string) : string :=
  match s with
  | EmptyString => EmptyString
  | String a r =>
      let n := N_of_ascii a in
      (if (n =? 34)%N then String "\" dquote
       else if (n =? 92)%N then "\\"
       else if (n =? 8)%N then "\b"
       else if (n =? 12)%N then "\f"
       else if (n =? 10)%N then "\n"
       else if (n =? 13)%N then "\r"
       else if (n =? 9)%N then "\t"
       else if (n <? 32)%N
            then "\u00" +:+ String (hex_digit (n / 16)) (String (hex_digit (n mod 16)) EmptyString)
            else String a EmptyString) +:+ json_escape r
  end.

Definition json_quote (s : string) : string := dquote +:+ json_escape s +:+ dquote.

(** [JSON.stringify(v)]; [None] is the result [undefined]. *)
Fixpoint JSON_stringify (v : JsValue) : option string :=
  match v with
  | JUndefined => None
  | JNull => Some "null"
  | JBool b => Some (if b then "true" else "false")
  | JNum n => Some (pretty n)
  | JStr s => Some (json_quote s)
  | JArr xs =>
      Some ("[" +:+ join ","
              ((fix items (l : list JsValue) : list string :=
                  match l with
                  | [] => []
                  | x :: l => default "null" (JSON_stringify x) :: items l
                  end) xs) +:+ "]")
  | JObj fs =>
      Some ("{" +:+ join ","
              ((fix members (l : list (string * JsValue)) : list string :=
                  match l with
                  | [] => []
                  | (k, x) :: l =>
                      match JSON_stringify x with
                      | Some s => (json_quote k +:+ ":" +:+ s) :: members l
                      | None => members l
                      end
                  end) fs) +:+ "}")
  end.

(** ** core/utils.ts: stableStringify *)

(** The order of [Array.prototype.sort] without a comparator. *)
Definition str_le (a b : string) : Prop := String.leb a b = true.

Global Instance str_le_dec a b : Decision (str_le a b).
Proof. unfold str_le. apply _. Defined.

(** [input[k]] *)
Fixpoint js_get (fs : list (string * JsValue)) (k : string) : JsValue :=
  match fs with
  | [] => JUndefined
  | (k', v) :: fs => if String.eqb k' k then v else js_get fs k
  end.

(** [sortKeys]: arrays are mapped, an object is rebuilt by assigning its
    properties in the order of [Object.keys(input).sort()]. *)
Fixpoint sortKeys (input : JsValue) : JsValue :=
  match input with
  | JArr xs => JArr (List.map sortKeys xs)
  | JObj fs =>
      let sorted := List.map (λ kv : string * JsValue, let (k, v) := kv in (k, sortKeys v)) fs in
      JObj (List.map (λ k, (k, js_get sorted k)) (merge_sort str_le (List.map fst fs)))
  | _ => input
  end.

Definition stableStringify (obj : JsValue) : string :=
  default "undefined" (JSON_stringify (sortKeys obj)).

(** ** core/cache.ts: makeCacheKey *)
Definition makeCacheKey (parts : list (string * JsValue)) : string :=
  stableStringify (JObj parts).

(** ** core/types.ts *)

Inductive EventKind : Type :=
| run_start | run_end | node_enter | node_exit
| model_call_start | model_call_end | tool_call_start | tool_call_end
| retry | ratelimit_delay | cache_hit | cache_set | error.

Global Instance EventKind_eq_dec : EqDecision EventKind.
Proof. solve_decision. Defined.

Record EventPayload : Type := mkEvent {
  ev_runId : string;
  ev_kind : EventKind;
  ev_timestamp : Z;
  ev_data : list (string * JsValue);
}.

Inductive MemoryRole : Type := system | user | assistant | tool.

Record MemoryMessage : Type := mkMsg {
  role : MemoryRole;
  content : string;
  name : option string;
  createdAt : option Z;
}.

(** A LangChain message, as far as this code reads it. *)
Record BaseMessage : Type := mkLC {
  _type : string;
  lc_content : string;
  lc_name : option string;
  tool_call_id : option string;
}.

Record ToolCall : Type := mkCall {
  call_name : option string;
  call_tool : option string;
  call_args : option JsValue;
}.

Record AIMessage : Type := mkAI {
  ai_content : string;
  tool_calls : list ToolCall;
}.

Record RetryConfig : Type := mkRetry {
  retry_max : option Z;
  initialDelayMs : option Z;
  factor : option Z;
  maxDelayMs : option Z;
}.

Record TimeoutConfig : Type := mkTimeouts { perStepMs : option Z; totalMs : option Z }.

Record RateLimitConfig : Type := mkRateLimit { rpm : option Z; rl_enabled : option bool }.

Record CacheConfig : Type := mkCacheCfg {
  cache_enabled : option bool;
  ttlMs : option Z;
  cache_max : option Z;
}.

(** The fields of [ModelParams] the orchestrator itself reads; the others
    (apiKey, topK, topP, maxTokens, enableStreaming) only reach the client. *)
Record ModelParams : Type := mkParams {
  model : string;
  temperature : option Z;
  systemPrompt : option string;
  timeouts : option TimeoutConfig;
  retries : option RetryConfig;
  rateLimit : option RateLimitConfig;
}.

(** What [await def.execute(parsed, ctx)] comes to: the promise settles
    after some time, fulfilled or rejected (a function that throws rejects
    at once), or it never settles. *)
Inductive ToolRun : Type :=
| Settles (after : Z) (r : JsError + JsValue)
| Hangs.

(** A tool: [tool_parse] is [ensureZod(def.schema).parse], which may throw;
    [execute] is the user function. *)
Record ToolDefinition : Type := mkTool {
  tool_name : string;
  description : string;
  tool_parse : JsValue → JsError + JsValue;
  tool_enabled : option bool;
  tool_hidden : option bool;
  execute : JsValue → ToolRun;
}.

(** An output schema: a Zod type (it has an object [_def]) or a JSON Schema
    object.  Both are objects, hence truthy. *)
Inductive Schema : Type := ZodSchema (def : JsValue) | JsonSchema (schema : JsValue).

Inductive RunInput : Type :=
| InputText (task : string)
| InputObject (task : option string) (schema : option Schema).

(** [AbortSignal]: the instant at which [abort()] is called, if ever. *)
Record AbortSignal : Type := mkSignal { abortAt : option Z }.

Record RunMeta : Type := mkMeta {
  steps : Z;
  durationMs : Z;
  meta_model : string;
  meta_usedTools : list string;
  meta_cacheHit : bool;
  meta_events : option (list EventPayload);
}.

Record RunResult : Type := mkResult {
  text : option string;
  object : option JsValue;
  meta : RunMeta;
}.

Record StreamChunk : Type := mkChunk {
  delta : option string;
  event : option string;
  chunk_meta : option RunMeta;
}.

Record GraphState : Type := mkState {
  runId : string;
  input : RunInput;
  step : Z;
  maxSteps : Z;
  plan : option string;
  thoughts : option string;
  candidateAnswer : option string;
  isValid : option bool;
  finalObject : option JsValue;
  startedAt : Z;
  endedAt : option Z;
  cacheHit : bool;
  usedTools : list string;
}.

(** ** The world *)

Inductive RequestKind : Type := ReqInvoke | ReqStructured | ReqStream.

(** Observable effects, in the order they happen. *)
Inductive Effect : Type :=
| Emit (e : EventPayload)                       (* eventBus.emit(e) *)
| Sleep (ms : Z)                                (* await sleep(ms) *)
| Request (kind : RequestKind) (bound : list string) (messages : list BaseMessage)
                                                (* a request to the model, with the tools bound *)
| Execute (tool : string) (input : JsValue)     (* def.execute(parsed, ctx) *)
| Yield (c : StreamChunk).                      (* yield c *)

Record CacheEntry : Type := mkEntry {
  entry_key : string;
  entry_value : AIMessage;
  entry_start : Z;
}.

Record World : Type := mkWorld {
  w_now : Z;                                    (* Date.now() *)
  w_trace : list Effect;
  w_responseCache : list CacheEntry;            (* most recently used first *)
  w_store : gmap string (list MemoryMessage);   (* InMemoryMemory.store *)
  w_limiters : list (option Z);                 (* the limiter objects: their lastAt *)
  w_requests : nat;                             (* model requests issued so far *)
}.

Definition set_now (t : Z) (w : World) : World :=
  mkWorld t (w_trace w) (w_responseCache w) (w_store w) (w_limiters w) (w_requests w).
Definition log (tr : list Effect) (w : World) : World :=
  mkWorld (w_now w) (w_trace w ++ tr) (w_responseCache w) (w_store w) (w_limiters w) (w_requests w).
Definition set_responseCache (c : list CacheEntry) (w : World) : World :=
  mkWorld (w_now w) (w_trace w) c (w_store w) (w_limiters w) (w_requests w).
Definition set_store (m : gmap string (list MemoryMessage)) (w : World) : World :=
  mkWorld (w_now w) (w_trace w) (w_responseCache w) m (w_limiters w) (w_requests w).
Definition set_limiters (l : list (option Z)) (w : World) : World :=
  mkWorld (w_now w) (w_trace w) (w_responseCache w) (w_store w) l (w_requests w).
Definition set_requests (n : nat) (w : World) : World :=
  mkWorld (w_now w) (w_trace w) (w_responseCache w) (w_store w) (w_limiters w) n.

(** How a computation ends: it returns, it throws, or it has no result (it
    awaits a promise that never settles, or a loop of the model has used up
    its fuel). *)
Inductive Completion (A : Type) : Type :=
| Normal (a : A)
| Throw (e : JsError)
| OutOfFuel.
Arguments Normal {A} a.
Arguments Throw {A} e.
Arguments OutOfFuel {A}.

(** A promise is the time it takes to settle and its settlement; one that
    never settles is [OutOfFuel] (its time is then how long what it stands
    for went on before it got stuck). *)
Definition Promise (A : Type) : Type := (Z * Completion A)%type.

(** How a request settles: rejected with an error or fulfilled. *)
Definition settled {A} (r : JsError + A) : Completion A :=
  match r with inl e => Throw e | inr a => Normal a end.

(** The language model: what the n-th request of the process does. *)
Record Model : Type := mkModel {
  on_invoke : nat → Z * (JsError + AIMessage);         (* model.invoke *)
  on_structured : nat → Z * (JsError + JsValue);       (* withStructuredOutput(..).invoke *)
  on_stream : nat → list (Z * string) * option JsError; (* model.stream: increments, then end or failure *)
}.

(** ** The monad *)

Definition M (A : Type) : Type := World → Completion A * World.

Global Instance M_ret : MRet M := λ A a w, (Normal a, w).

Global Instance M_bind : MBind M := λ A B f m w,
  match m w with
  | (Normal a, w') => f a w'
  | (Throw e, w') => (Throw e, w')
  | (OutOfFuel, w') => (OutOfFuel, w')
  end.

Definition throw {A} (e : JsError) : M A := λ w, (Throw e, w).

(** [try { m } catch (e) { h e }] *)
Definition try_catch {A} (m : M A) (h : JsError → M A) : M A := λ w,
  match m w with
  | (Throw e, w') => h e w'
  | r => r
  end.

Definition nowMs : M Z := λ w, (Normal (w_now w), w).

Definition effect (x : Effect) : M unit := λ w,
  (Normal tt, log [x] w).

(** Node's timers: [setTimeout(f, ms)] fires after [ms] milliseconds when
    [ms] lies between 1 and [2^31 - 1], and after 1 millisecond otherwise. *)
Definition TIMEOUT_MAX : Z := 2147483647.

Definition timer_delay (ms : Z) : Z :=
  if (1 <=? ms) && (ms <=? TIMEOUT_MAX) then ms else 1.

(** [sleep(ms)]: [new Promise((r) => setTimeout(r, ms))] *)
Definition sleep (ms : Z) : M unit := λ w,
  (Normal tt, set_now (w_now w + timer_delay ms) (log [Sleep ms] w)).

(** [await p] *)
Definition await {A} (p : Promise A) : M A := λ w,
  (p.2, set_now (w_now w + p.1) w).

(** [eventBus.emit]: the handlers see the events in emission order. *)
Definition emit (rid : string) (k : EventKind) (d : list (string * JsValue)) : M unit :=
  t ← nowMs; effect (Emit (mkEvent rid k t d)).

(** ** core/utils.ts: withTimeout *)

Definition aborted (signal : option AbortSignal) (t : Z) : bool :=
  match signal with
  | Some {| abortAt := Some a |} => a <=? t
  | _ => false
  end.

Definition leb_opt (t : Z) (o : option Z) : bool :=
  match o with Some x => t <=? x | None => true end.

(** [withTimeout(promise, ms, signal)] entered at [t0]: when and how it
    settles.  With neither a deadline nor a signal the promise itself is
    returned.  Otherwise the first of three settles the result: the promise,
    the abort listener, the timer ([setTimeout(.., ms)], see [timer_delay]);
    at equal instants in that order, except that a signal already aborted on
    entry rejects before the promise is looked at.  A promise that never
    settles leaves the result to the other two. *)
Definition race {A} (t0 : Z) (promise : Promise A) (ms : option Z)
    (signal : option AbortSignal) : Z * Completion A :=
  let has_ms := match ms with Some x => negb (x =? 0) | None => false end in
  let timeout := Throw (Error ("Timeout after " +:+ pretty (default 0 ms) +:+ "ms")) in
  if negb has_ms && negb (bool_decide (is_Some signal)) then (t0 + promise.1, promise.2)
  else if aborted signal t0 then (t0, Throw (Error "Aborted"))
  else
    let timer := if has_ms then (λ x, t0 + timer_delay x) <$> ms else None in
    let abort := signal ≫= abortAt in
    let settle := t0 + promise.1 in
    let settles := match promise.2 with OutOfFuel => false | _ => true end in
    if settles && leb_opt settle abort && leb_opt settle timer then (settle, promise.2)
    else match abort, timer with
         | Some a, Some t => if a <=? t then (a, Throw (Error "Aborted")) else (t, timeout)
         | Some a, None => (a, Throw (Error "Aborted"))
         | None, Some t => (t, timeout)
         | None, None => (settle, promise.2)
         end.

Definition withTimeout {A} (promise : Promise A) (ms : option Z) (signal : option AbortSignal)
  : M A := λ w,
  ((race (w_now w) promise ms signal).2, set_now (race (w_now w) promise ms signal).1 w).

(** A computation seen as a promise: its effects happen, the caller's clock
    is where it was when the computation started. *)
Definition spawn {A} (m : M A) : M (Promise A) := λ w,
  let (r, w') := m w in
  (Normal (w_now w' - w_now w, r), set_now (w_now w) w').

Definition out_of_fuel {A} : M A := λ w, (OutOfFuel, w).

(** A synchronous call that returns or throws. *)
Definition lift {A} (r : JsError + A) : M A := λ w, (settled r, w).

Definition nl : string := String (ascii_of_N 10) EmptyString.

Definition opt_str (o : option string) : JsValue :=
  match o with Some s => JStr s | None => JUndefined end.
Definition opt_num (o : option Z) : JsValue :=
  match o with Some n => JNum n | None => JUndefined end.

(** ** core/cache.ts: SimpleCache over the lru-cache package

    External collaborator; its behaviour is taken from the spec's Cache Entry
    description: entries expire after the time-to-live and the least recently
    used entry is evicted beyond capacity ([allowStale] and [updateAgeOnGet]
    are off; [max] is a positive integer, [ttl = 0] means no expiry). *)

Definition cache_ttl (cfg : CacheConfig) : Z := default 60000 (ttlMs cfg).
Definition cache_capacity (cfg : CacheConfig) : Z := default 500 (cache_max cfg).

Definition is_stale (cfg : CacheConfig) (now : Z) (e : CacheEntry) : bool :=
  negb (cache_ttl cfg =? 0) && (cache_ttl cfg <? now - entry_start e).

Definition cache_remove (key : string) (es : list CacheEntry) : list CacheEntry :=
  List.filter (λ e, negb (String.eqb (entry_key e) key)) es.

Definition cache_find (key : string) (es : list CacheEntry) : option CacheEntry :=
  List.find (λ e, String.eqb (entry_key e) key) es.

Definition SimpleCache_get (cfg : CacheConfig) (key : string) : M (option AIMessage) := λ w,
  match cache_find key (w_responseCache w) with
  | None => (Normal None, w)
  | Some hit =>
      if is_stale cfg (w_now w) hit
      then (Normal None, set_responseCache (cache_remove key (w_responseCache w)) w)
      else (Normal (Some (entry_value hit)),
            set_responseCache (hit :: cache_remove key (w_responseCache w)) w)
  end.

Definition SimpleCache_set (cfg : CacheConfig) (key : string) (value : AIMessage) : M unit := λ w,
  (Normal tt,
   set_responseCache
     (mkEntry key value (w_now w)
      :: take (Z.to_nat (cache_capacity cfg - 1)) (cache_remove key (w_responseCache w))) w).

(** ** core/memory/inmemory.ts: InMemoryMemory (the default adapter) *)

Definition maxKeep : nat := 200.

(** [arr.slice(-n)] for [n > 0] *)
Definition slice_last {A} (n : nat) (l : list A) : list A := drop (length l - n) l.

Definition getHistory (rid : string) : M (list MemoryMessage) := λ w,
  (Normal (slice_last maxKeep (default [] (w_store w !! rid))), w).

(** [{ ...m, createdAt: m.createdAt ?? Date.now() }] *)
Definition stamp (now : Z) (m : MemoryMessage) : MemoryMessage :=
  mkMsg (role m) (content m) (name m) (Some (default now (createdAt m))).

Definition append (rid : string) (messages : list MemoryMessage) : M unit := λ w,
  let arr := default [] (w_store w !! rid) ++ List.map (stamp (w_now w)) messages in
  (Normal tt,
   set_store (<[rid := if bool_decide (maxKeep < length arr)%nat
                       then slice_last maxKeep arr else arr]> (w_store w)) w).

(** ** model/gemini.ts *)

Definition SystemMessage (c : string) : BaseMessage := mkLC "system" c None None.
Definition HumanMessage (c : string) : BaseMessage := mkLC "human" c None None.
Definition LCAIMessage (c : string) : BaseMessage := mkLC "ai" c None None.
Definition ToolMessage (c : string) (id : string) (n : option string) : BaseMessage :=
  mkLC "tool" c n (Some id).

Definition toLCMessages (systemPrompt : option string) (history : list MemoryMessage)
  : list BaseMessage :=
  (match systemPrompt with
   | Some s => if (0 <? String.length (trim s))%nat then [SystemMessage s] else []
   | None => []
   end)
  ++ List.map (λ m,
       match role m with
       | user => HumanMessage (content m)
       | assistant => LCAIMessage (content m)
       | tool => ToolMessage (content m) (default "tool" (name m)) (name m)
       | system => SystemMessage (content m)
       end) history.

Section WithModel.

Context (gemini : Model).

(** [invokeText({model, messages})]: the request leaves at once; the promise
    is awaited by the caller.  [bound] are the names of the tools bound to
    the model. *)
Definition request (kind : RequestKind) (bound : list string) (messages : list BaseMessage)
  : M nat := λ w,
  (Normal (w_requests w),
   set_requests (S (w_requests w)) (log [Request kind bound messages] w)).

Definition invokeText (bound : list string) (messages : list BaseMessage)
  : M (Promise AIMessage) :=
  n ← request ReqInvoke bound messages;
  mret ((on_invoke gemini n).1, settled (on_invoke gemini n).2).

(** [invokeWithStructuredOutput]: whatever the runnable returns, object or
    not, comes back as [object]. *)
Definition invokeWithStructuredOutput (bound : list string) (messages : list BaseMessage)
    (schema : Schema) : M JsValue :=
  n ← request ReqStructured bound messages;
  await ((on_structured gemini n).1, settled (on_structured gemini n).2).

(** ** core/tools.ts *)

Definition visible (t : ToolDefinition) : bool :=
  negb (bool_decide (tool_enabled t = Some false) || default false (tool_hidden t)).

Definition buildLCTools (tools : list ToolDefinition) : list string :=
  List.map tool_name (List.filter visible tools).

Definition toolMap (tools : list ToolDefinition) : gmap string ToolDefinition :=
  foldl (λ m t, if visible t then <[tool_name t := t]> m else m) ∅ tools.

Definition error_payload (msg : string) : string :=
  default EmptyString (JSON_stringify (JObj [("error", JStr msg)])).

(** [safeJSONStringify(v)].  The values of the model are trees, for which
    [JSON.stringify] does not throw.  For [undefined] it returns
    [undefined] and the message is left without content, which
    [MemoryMessage] (whose content is a string) cannot hold: the statements
    about a tool's answer are for results that [JSON.stringify] maps to a
    string. *)
Definition safeJSONStringify (v : JsValue) : string :=
  default EmptyString (JSON_stringify v).

(** [call?.name ?? call?.tool ?? ''] (the empty string) *)
Definition toolName_of (call : ToolCall) : string :=
  default (default EmptyString (call_tool call)) (call_name call).

(** The tool message for a name that is not in the map. *)
Definition unregistered (toolName : string) : MemoryMessage :=
  mkMsg tool (error_payload ("未注册的工具: " +:+ toolName)) (Some toolName) None.

(** [call?.args ?? {}]: the empty object for [undefined] and for [null]. *)
Definition args_of (call : ToolCall) : JsValue :=
  match call_args call with
  | None | Some JUndefined | Some JNull => JObj []
  | Some v => v
  end.

(** [await def.execute(parsed, ctx)] *)
Definition await_tool (r : ToolRun) : M JsValue := λ w,
  match r with
  | Settles d r => (settled r, set_now (w_now w + d) w)
  | Hangs => (OutOfFuel, w)
  end.

Fixpoint run_calls (tm : gmap string ToolDefinition) (calls : list ToolCall)
    (outputs : list MemoryMessage) : M (list MemoryMessage) :=
  match calls with
  | [] => mret outputs
  | call :: calls =>
      let toolName := toolName_of call in
      let args := args_of call in
      match tm !! toolName with
      | None => run_calls tm calls (outputs ++ [unregistered toolName])
      | Some def =>
          out ← try_catch
                  (parsed ← lift (tool_parse def args);
                   _ ← effect (Execute toolName parsed);
                   result ← await_tool (execute def parsed);
                   mret (mkMsg tool (safeJSONStringify result) (Some toolName) None))
                  (λ e, mret (mkMsg tool (error_payload (message e)) (Some toolName) None));
          run_calls tm calls (outputs ++ [out])
      end
  end.

Definition executeToolCalls (aiMessage : AIMessage) (tools : list ToolDefinition)
  : M (list MemoryMessage) :=
  match tool_calls aiMessage with
  | [] => mret []
  | calls => run_calls (toolMap tools) calls []
  end.

(** ** graph/graph.ts *)

Record OrchestratorContext : Type := mkCtx {
  params : ModelParams;
  tools : list ToolDefinition;
  responseCache : CacheConfig;     (* the configuration of the shared cache *)
  limiter : nat;                   (* reference to this context's limiter object *)
  signal : option AbortSignal;
}.

(** What a node returns: the channels it writes. *)
Record Update : Type := mkUpdate {
  u_plan : option string;
  u_thoughts : option string;
  u_candidateAnswer : option string;
  u_usedTools : option (list string);
  u_step : option Z;
  u_isValid : option bool;
  u_finalObject : option JsValue;
  u_endedAt : option Z;
  u_cacheHit : option bool;
}.

(** The channel reducers: [last] keeps the old value when the new one is
    undefined, [concat] appends. *)
Definition last {A} (a : A) (b : option A) : A := default a b.
Definition last_opt {A} (a : option A) (b : option A) : option A :=
  match b with Some _ => b | None => a end.
Definition concat {A} (a : list A) (b : option (list A)) : list A := a ++ default [] b.

Definition apply_update (s : GraphState) (u : Update) : GraphState :=
  mkState (runId s) (input s)
    (last (step s) (u_step u)) (maxSteps s)
    (last_opt (plan s) (u_plan u))
    (last_opt (thoughts s) (u_thoughts u))
    (last_opt (candidateAnswer s) (u_candidateAnswer u))
    (last_opt (isValid s) (u_isValid u))
    (last_opt (finalObject s) (u_finalObject u))
    (startedAt s)
    (last_opt (endedAt s) (u_endedAt u))
    (last (cacheHit s) (u_cacheHit u))
    (concat (usedTools s) (u_usedTools u)).

Definition buildSystemPrompt (base : option string) : string :=
  join nl (List.filter (λ s, negb (String.eqb s EmptyString))
    [ "你是一个面向服务端的深度思考与工具编排代理。";
      "工作模式：规划 → 行动/工具 → 反思 → 验证 → 收敛。";
      "禁止泄露内部推理链或反思原文。只输出对用户有用的内容。";
      default EmptyString base ]).

Definition normalizeTask (i : RunInput) : string :=
  match i with
  | InputText s => s
  | InputObject t _ => default EmptyString t
  end.

Definition extractSchemaFromInput (i : RunInput) : option Schema :=
  match i with
  | InputText _ => None
  | InputObject _ s => s
  end.

Definition beforeNode (n : string) (state : GraphState) : M unit :=
  emit (runId state) node_enter [("node", JStr n); ("step", JNum (step state))].

Definition afterNode (n : string) (state : GraphState) (d : list (string * JsValue)) : M unit :=
  emit (runId state) node_exit ([("node", JStr n); ("step", JNum (step state))] ++ d).

(** [Math.ceil(a / b)] for positive [b] *)
Definition ceil_div (a b : Z) : Z := - ((- a) / b).

(** [ctx.limiter.lastAt ?? 0] and [ctx.limiter.lastAt = t] *)
Definition limiter_lastAt (ref : nat) : M Z := λ w,
  (Normal (default 0 (mjoin (w_limiters w !! ref))), w).
Definition limiter_record (ref : nat) (t : Z) : M unit := λ w,
  (Normal tt, set_limiters (<[ref := Some t]> (w_limiters w)) w).

Definition ensureRateLimit (ctx : OrchestratorContext) (state : GraphState) : M unit :=
  if negb (default false (rateLimit (params ctx) ≫= rl_enabled)) then mret tt
  else match rateLimit (params ctx) ≫= rpm with
       | None => mret tt
       | Some r =>
           if (r =? 0) || (r <=? 0) then mret tt
           else
             let minIntervalMs := ceil_div 60000 r in
             now ← nowMs;
             lastAt ← limiter_lastAt (limiter ctx);
             let wait := Z.max 0 (minIntervalMs - (now - lastAt)) in
             _ ← (if 0 <? wait
                  then _ ← emit (runId state) ratelimit_delay [("waitMs", JNum wait)];
                       sleep wait
                  else mret tt);
             t ← nowMs;
             limiter_record (limiter ctx) t
       end.

Definition retry_max_of (ctx : OrchestratorContext) : Z :=
  default 3 (retries (params ctx) ≫= retry_max).
Definition retry_initial_of (ctx : OrchestratorContext) : Z :=
  default 500 (retries (params ctx) ≫= initialDelayMs).
Definition retry_factor_of (ctx : OrchestratorContext) : Z :=
  default 2 (retries (params ctx) ≫= factor).
Definition retry_maxDelay_of (ctx : OrchestratorContext) : Z :=
  default 10000 (retries (params ctx) ≫= maxDelayMs).

(** The [while (true)] of [retryAsync], with [attempt] and [delay] as loop
    variables.  Every pass that does not leave the loop raises [attempt], so
    [max] passes of fuel are enough (see [retryAsync_total]). *)
Fixpoint retry_loop {T} (fn : M T) (ctx : OrchestratorContext) (state : GraphState)
    (fuel : nat) (attempt delay : Z) : M T :=
  try_catch fn (λ e,
    let attempt := attempt + 1 in
    if retry_max_of ctx <=? attempt then throw e
    else
      _ ← emit (runId state) retry [("attempt", JNum attempt); ("error", JStr (message e))];
      _ ← sleep (Z.min delay (retry_maxDelay_of ctx));
      match fuel with
      | O => out_of_fuel
      | S fuel => retry_loop fn ctx state fuel attempt (delay * retry_factor_of ctx)
      end).

Definition retryAsync {T} (fn : M T) (ctx : OrchestratorContext) (state : GraphState) : M T :=
  retry_loop fn ctx state (Z.to_nat (retry_max_of ctx)) 0 (retry_initial_of ctx).

Definition cache_key_of (ctx : OrchestratorContext) (messages : list BaseMessage)
    (cacheTag : option string) : string :=
  makeCacheKey
    [ ("tag", JStr (default "text" cacheTag));
      ("model", JStr (model (params ctx)));
      ("temperature", opt_num (temperature (params ctx)));
      ("messages", JArr (List.map (λ m,
          JObj [ ("_type", JStr (_type m));
                 ("content", JStr (lc_content m));
                 ("name", opt_str (lc_name m)) ]) messages)) ].

(** [() => withTimeout(invokeText({ model, messages }), perStepMs, ctx.signal)] *)
Definition attempt (ctx : OrchestratorContext) (bound : list string)
    (messages : list BaseMessage) : M AIMessage :=
  p ← invokeText bound messages;
  withTimeout p (timeouts (params ctx) ≫= perStepMs) (signal ctx).

Definition callModelTextRaw (ctx : OrchestratorContext) (bound : list string)
    (messages : list BaseMessage) (state : GraphState) (cacheTag : option string)
  : M (AIMessage * bool) :=
  let cacheKey := cache_key_of ctx messages cacheTag in
  cached ← SimpleCache_get (responseCache ctx) cacheKey;
  match cached with
  | Some ai =>
      _ ← emit (runId state) cache_hit [("key", JStr cacheKey)];
      mret (ai, true)
  | None =>
      _ ← ensureRateLimit ctx state;
      ai ← retryAsync (attempt ctx bound messages) ctx state;
      _ ← SimpleCache_set (responseCache ctx) cacheKey ai;
      _ ← emit (runId state) model_call_end
            [("node", JStr "model.invoke"); ("cached", JBool false)];
      mret (ai, false)
  end.

Definition callModelText (ctx : OrchestratorContext) (messages : list BaseMessage)
    (state : GraphState) (cacheTag : option string) : M (AIMessage * bool) :=
  callModelTextRaw ctx [] messages state cacheTag.

(** *** The nodes *)

Inductive Node : Type := Plan | Act | Reflect | Validate | Converge.


Definition node_name (n : Node) : string :=
  match n with
  | Plan => "plan" | Act => "act" | Reflect => "reflect"
  | Validate => "validate" | Converge => "converge"
  end.

Definition call_json (c : ToolCall) : JsValue :=
  JObj [("name", opt_str (call_name c)); ("tool", opt_str (call_tool c));
        ("args", default JUndefined (call_args c))].

(** [toolMessages.map((m) => m.name!).filter(Boolean)] *)
Definition used_names (toolMessages : list MemoryMessage) : list string :=
  List.filter (λ s, negb (String.eqb s EmptyString)) (omap name toolMessages).

Definition defined (v : JsValue) : option JsValue :=
  match v with JUndefined => None | _ => Some v end.

Definition node_plan (ctx : OrchestratorContext) (state : GraphState) : M Update :=
  _ ← beforeNode "plan" state;
  let system := buildSystemPrompt (systemPrompt (params ctx)) in
  let task := normalizeTask (input state) in
  history ← getHistory (runId state);
  let messages :=
    toLCMessages (Some system) history
    ++ [HumanMessage (join nl
          [ "任务理解与规划：";
            "- 你需要将用户任务拆解为有序的可执行步骤，并指出可能用到的工具名称与调用参数字段。";
            "- 输出不泄露内部思考，用简短项目符号列出步骤。";
            "用户任务: " +:+ task ])] in
  r ← callModelText ctx messages state (Some "plan");
  let plan := ai_content r.1 in
  _ ← append (runId state) [mkMsg user task None None; mkMsg assistant plan None None];
  _ ← afterNode "plan" state [("plan", JStr plan); ("fromCache", JBool r.2)];
  mret (mkUpdate (Some plan) None None None None None None None
          (Some (cacheHit state || r.2))).

Definition act_system (ctx : OrchestratorContext) : string :=
  buildSystemPrompt (Some (join nl
    [ default EmptyString (systemPrompt (params ctx));
      "你可以使用提供的工具完成检索/执行。";
      "仅在需要时调用工具，然后基于工具结果生成候选答案。";
      "不要泄露内部思考或链路，仅输出任务相关内容。" ])).

(** The second half of the act node: the candidate answer is asked for on
    the history that now holds the tool results. *)
Definition act_summarize (ctx : OrchestratorContext) (state : GraphState) (ai1 : AIMessage)
    (usedTools : list string) : M Update :=
  history2 ← getHistory (runId state);
  let historyMsgs2 := toLCMessages (Some (act_system ctx)) history2 in
  r ← callModelText ctx historyMsgs2 state (Some "act.summarize");
  let candidate := ai_content r.1 in
  _ ← append (runId state) [mkMsg assistant candidate None None];
  _ ← afterNode "act" state
        [ ("toolCalls", JArr (List.map call_json (tool_calls ai1)));
          ("usedTools", JArr (List.map JStr usedTools));
          ("candidate", JStr candidate) ];
  mret (mkUpdate None None (Some candidate) (Some usedTools) (Some (step state + 1))
          None None None (Some (cacheHit state || r.2))).

Definition node_act (ctx : OrchestratorContext) (state : GraphState) : M Update :=
  _ ← beforeNode "act" state;
  let lcTools := buildLCTools (tools ctx) in
  history ← getHistory (runId state);
  let historyMsgs := toLCMessages (Some (act_system ctx)) history in
  invoke1 ← callModelTextRaw ctx lcTools historyMsgs state (Some "act.decide");
  let ai1 := invoke1.1 in
  toolMessages ← executeToolCalls ai1 (tools ctx);
  let usedTools := used_names toolMessages in
  _ ← match toolMessages with
      | [] => mret tt
      | _ => append (runId state) toolMessages
      end;
  act_summarize ctx state ai1 usedTools.

Definition node_reflect (ctx : OrchestratorContext) (state : GraphState) : M Update :=
  _ ← beforeNode "reflect" state;
  let system := buildSystemPrompt (Some (join nl
        [ default EmptyString (systemPrompt (params ctx));
          "你是批判性思维助手。你将对候选答案进行自检与改进建议。";
          "只输出改进建议要点，不要重复答案，不要泄露思考链。" ])) in
  history ← getHistory (runId state);
  let messages :=
    toLCMessages (Some system) history
    ++ [HumanMessage (join nl
          [ "请对上一步候选答案做自检与改进建议：";
            "- 覆盖准确性、完整性、可执行性、风险与来源可靠性。";
            "- 如果已足够好，请输出“OK”。" ])] in
  r ← callModelText ctx messages state (Some "reflect");
  let thoughts := ai_content r.1 in
  _ ← afterNode "reflect" state [("thoughts", JStr thoughts)];
  mret (mkUpdate None (Some thoughts) None None None None None None
          (Some (cacheHit state || r.2))).

Definition node_validate (ctx : OrchestratorContext) (state : GraphState) : M Update :=
  _ ← beforeNode "validate" state;
  r ← match extractSchemaFromInput (input state) with
      | Some schema =>
          let system := buildSystemPrompt (Some (join nl
                [ default EmptyString (systemPrompt (params ctx));
                  "依据给定的 JSON Schema/Zod 结构，输出严格符合该结构的对象。";
                  "不要解释，仅输出对象。" ])) in
          history ← getHistory (runId state);
          let messages :=
            toLCMessages (Some system) history
            ++ [HumanMessage "请输出结构化对象（符合 schema）。"] in
          object ← invokeWithStructuredOutput [] messages schema;
          mret (true, object)
      | None =>
          mret (match candidateAnswer state with
                | Some c => negb (String.eqb c EmptyString)
                            && (0 <? String.length (trim c))%nat
                | None => false
                end, JUndefined)
      end;
  _ ← afterNode "validate" state
        [("isValid", JBool r.1); ("hasObject", JBool (truthy r.2))];
  mret (mkUpdate None None None None None (Some r.1) (defined r.2) None None).

Definition node_converge (ctx : OrchestratorContext) (state : GraphState) : M Update :=
  _ ← beforeNode "converge" state;
  endedAt ← nowMs;
  _ ← afterNode "converge" state [("endedAt", JNum endedAt)];
  mret (mkUpdate None None None None None None None (Some endedAt) None).

Definition node (n : Node) : OrchestratorContext → GraphState → M Update :=
  match n with
  | Plan => node_plan | Act => node_act | Reflect => node_reflect
  | Validate => node_validate | Converge => node_converge
  end.

(** *** The edges; [None] is END *)
Definition route (n : Node) (state : GraphState) : option Node :=
  match n with
  | Plan => Some Act
  | Act => if maxSteps state <=? step state then Some Validate else Some Reflect
  | Reflect => if maxSteps state - 1 <=? step state then Some Validate else Some Act
  | Validate =>
      if default false (isValid state) then Some Converge
      else if maxSteps state <=? step state then Some Converge
      else Some Act
  | Converge => None
  end.

(** *** The StateGraph of the LangGraph package

    External collaborator.  [new StateGraph({ channels })] declares the
    state attributes.  [addNode(key, ..)] throws when [key] is one of them
    or names a node that is already present.  [invoke] of the compiled graph
    executes the nodes along the edges, merging what each returns through
    the reducers of the channels, and gives up with a [GraphRecursionError]
    when [recursionLimit] executions (25 unless configured) have not reached
    END. *)

(** The keys of [channels] in [buildReasoningGraph]. *)
Definition channels : list string :=
  [ "runId"; "input"; "params"; "step"; "maxSteps"; "plan"; "thoughts"; "actions";
    "toolResults"; "candidateAnswer"; "structuredSchemaJson"; "isValid"; "finalAnswer";
    "finalObject"; "startedAt"; "endedAt"; "cacheHit"; "usedTools"; "errors" ].

Definition channel_clash (key : string) : JsError :=
  Error (key +:+ " is already being used as a state attribute (a.k.a. a channel), "
             +:+ "cannot also be used as a node name.").

Definition node_present (key : string) : JsError :=
  Error ("Node `" +:+ key +:+ "` already present.").

(** [graph.addNode(key, ..)] on a graph whose nodes are [nodes] *)
Definition addNode (key : string) (nodes : list string) : JsError + list string :=
  if bool_decide (key ∈ channels) then inl (channel_clash key)
  else if bool_decide (key ∈ nodes) then inl (node_present key)
  else inr (nodes ++ [key]).

(** The calls of [addNode], in the order of the source. *)
Definition add_nodes (keys : list string) : JsError + list string :=
  foldl (λ acc key, match acc with inl e => inl e | inr nodes => addNode key nodes end)
        (inr []) keys.

Definition recursionLimit : nat := 25.

Definition GraphRecursionError : JsError :=
  Error ("Recursion limit of 25 reached without hitting a stop condition. "
         +:+ "You can increase the limit by setting the " +:+ dquote +:+ "recursionLimit"
         +:+ dquote +:+ " config key.").

(** The compiled graph run from a node, with [fuel] executions left: execute
    the node, merge what it returns through the channel reducers, follow the
    edge. *)
Fixpoint graph_from (ctx : OrchestratorContext) (fuel : nat) (n : Node) (state : GraphState)
  : M GraphState :=
  match fuel with
  | O => throw GraphRecursionError
  | S fuel =>
      u ← node n ctx state;
      let state' := apply_update state u in
      match route n state' with
      | None => mret state'
      | Some n' => graph_from ctx fuel n' state'
      end
  end.

(** [graph.invoke(initialState)] of a compiled graph: START leads to plan. *)
Definition graph_invoke (ctx : OrchestratorContext) (initialState : GraphState) : M GraphState :=
  graph_from ctx recursionLimit Plan initialState.

(** [buildReasoningGraph(ctx)]: the five nodes are added, then the edges, and
    the graph is compiled.  The first [addNode] throws, since "plan" is
    also the key of a channel. *)
Definition buildReasoningGraph (ctx : OrchestratorContext)
  : JsError + (GraphState → M GraphState) :=
  match add_nodes (List.map node_name [Plan; Act; Reflect; Validate; Converge]) with
  | inl e => inl e
  | inr _ => inr (graph_invoke ctx)
  end.

(** ** run.ts *)

(** [Partial<ModelParams>]: an absent property is [None]. *)
Record Overrides : Type := mkOverrides {
  o_model : option string;
  o_temperature : option Z;
  o_systemPrompt : option string;
  o_timeouts : option TimeoutConfig;
  o_retries : option RetryConfig;
  o_rateLimit : option RateLimitConfig;
}.

Record RunOptions : Type := mkOptions {
  opt_maxSteps : option Z;
  opt_signal : option AbortSignal;
  overrides : option Overrides;
}.

(** What [createLibraryA] closes over.  The event bus, the memory and the
    response cache it creates are the ones of the [World]. *)
Record Library : Type := mkLibrary {
  baseParams : ModelParams;
  lib_tools : list ToolDefinition;
  cacheCfg : CacheConfig;
  defaultMaxSteps : Z;
  collectEvents : bool;          (* shouldCollectEvents(), read from the environment *)
}.

Definition spread {A} (base over : option A) : option A :=
  match over with Some _ => over | None => base end.

Definition mergeParams (base : ModelParams) (o : option Overrides) : ModelParams :=
  match o with
  | None => base
  | Some o =>
      mkParams
        (default (model base) (o_model o))
        (spread (temperature base) (o_temperature o))
        (spread (systemPrompt base) (o_systemPrompt o))
        (Some (mkTimeouts
                 (spread (timeouts base ≫= perStepMs) (o_timeouts o ≫= perStepMs))
                 (spread (timeouts base ≫= totalMs) (o_timeouts o ≫= totalMs))))
        (Some (mkRetry
                 (spread (retries base ≫= retry_max) (o_retries o ≫= retry_max))
                 (spread (retries base ≫= initialDelayMs) (o_retries o ≫= initialDelayMs))
                 (spread (retries base ≫= factor) (o_retries o ≫= factor))
                 (spread (retries base ≫= maxDelayMs) (o_retries o ≫= maxDelayMs))))
        (Some (mkRateLimit
                 (spread (rateLimit base ≫= rpm) (o_rateLimit o ≫= rpm))
                 (spread (rateLimit base ≫= rl_enabled) (o_rateLimit o ≫= rl_enabled))))
  end.

(** [Array.from(new Set(l))]: first occurrences, in order. *)
Fixpoint array_from_set (seen : list string) (l : list string) : list string :=
  match l with
  | [] => []
  | x :: l => if bool_decide (x ∈ seen) then array_from_set seen l
              else x :: array_from_set (x :: seen) l
  end.

(** [eventBus.on(...)] at this point of the trace, and what the handler has
    pushed to [events] since. *)
Definition subscribe : M nat := λ w, (Normal (length (w_trace w)), w).

Definition emitted (tr : list Effect) : list EventPayload :=
  omap (λ x, match x with Emit e => Some e | _ => None end) tr.

Definition collected (collect : bool) (mark : nat) : M (option (list EventPayload)) := λ w,
  (Normal (if collect then Some (emitted (drop mark (w_trace w))) else None), w).

(** [limiter: { rpm, minIntervalMs, lastAt: undefined }]: a new object. *)
Definition new_limiter : M nat := λ w,
  (Normal (length (w_limiters w)), set_limiters (w_limiters w ++ [None]) w).

(** The meta object as event data; its [events] array is the one of the
    result and is not repeated here. *)
Definition meta_json (m : RunMeta) : list (string * JsValue) :=
  [ ("steps", JNum (steps m)); ("durationMs", JNum (durationMs m));
    ("model", JStr (meta_model m));
    ("usedTools", JArr (List.map JStr (meta_usedTools m)));
    ("cacheHit", JBool (meta_cacheHit m)) ].

(** The context [run] and [stream] build for one invocation: the tools and
    the response cache are the ones of the library, the limiter is a new
    object. *)
Definition run_context (lib : Library) (options : option RunOptions) : M OrchestratorContext :=
  ref ← new_limiter;
  mret (mkCtx (mergeParams (baseParams lib) (options ≫= overrides)) (lib_tools lib)
          (cacheCfg lib) ref (options ≫= opt_signal)).

(** [run], once its context has been built. *)
Definition run_with (lib : Library) (rid : string) (input : RunInput)
    (options : option RunOptions) (startedAt : Z) (mark : nat) (ctx : OrchestratorContext)
  : M RunResult :=
  let params := params ctx in
  let maxSteps := default (defaultMaxSteps lib) (options ≫= opt_maxSteps) in
  _ ← emit rid run_start [("model", JStr (model params)); ("maxSteps", JNum maxSteps)];
  graph ← lift (buildReasoningGraph ctx);
  let initialState :=
    mkState rid input 0 maxSteps None None None None None startedAt None false [] in
  p ← spawn (graph initialState);
  final ← withTimeout p (timeouts params ≫= totalMs) (options ≫= opt_signal);
  events ← collected (collectEvents lib) mark;      (* off() *)
  t ← nowMs;
  let meta :=
    mkMeta (step final) (t - startedAt) (model params)
      (array_from_set [] (usedTools final)) (cacheHit final) events in
  let res :=
    mkResult
      (if default false (truthy <$> finalObject final) then None
       else Some (default EmptyString (candidateAnswer final)))
      (finalObject final)
      meta in
  _ ← emit rid run_end (meta_json meta);
  mret res.

(** [run(input, options)]; [rid] is what [genRunId()] returned. *)
Definition run (lib : Library) (rid : string) (input : RunInput) (options : option RunOptions)
  : M RunResult :=
  startedAt ← nowMs;
  mark ← subscribe;
  ctx ← run_context lib options;
  run_with lib rid input options startedAt mark ctx.

(** The [for await] loop of [stream] over [streamText]: empty increments are
    dropped by [streamText]; the signal is looked at when an increment has
    arrived. *)
Fixpoint consume (sig : option AbortSignal) (chunks : list (Z * string))
    (fin : option JsError) (fullText : string) : M string :=
  match chunks with
  | [] => match fin with Some e => throw e | None => mret fullText end
  | (d, delta) :: chunks =>
      _ ← await (d, Normal tt);
      if String.eqb delta EmptyString then consume sig chunks fin fullText
      else
        now ← nowMs;
        if aborted sig now then mret fullText
        else
          _ ← effect (Yield (mkChunk (Some delta) None None));
          consume sig chunks fin (fullText +:+ delta)
  end.

Definition stream (lib : Library) (rid : string) (input : RunInput)
    (options : option RunOptions) : M unit :=
  startedAt ← nowMs;
  let params := mergeParams (baseParams lib) (options ≫= overrides) in
  let maxSteps := default (defaultMaxSteps lib) (options ≫= opt_maxSteps) in
  let tools := lib_tools lib in
  mark ← subscribe;
  _ ← run_context lib options;
  _ ← emit rid run_start [("model", JStr (model params)); ("maxSteps", JNum maxSteps)];
  let systemPlan := join nl
        [ "你是一个面向服务端的深度思考与工具编排代理。";
          "工作模式：规划 → 行动/工具 → 反思 → 验证 → 收敛。";
          "禁止泄露内部推理链或反思原文。只输出对用户有用的内容。" ] in
  history ← getHistory rid;
  let task := normalizeTask input in
  let planMsgs :=
    toLCMessages (Some systemPlan) history
    ++ [HumanMessage (join nl
          [ "任务理解与规划：";
            "- 将任务拆解为步骤，并列出可能需要的工具与参数字段。";
            "- 使用简短项目符号，不泄露内部思考。";
            "用户任务: " +:+ task ])] in
  p ← invokeText [] planMsgs;
  planAI ← await p;
  let planText := ai_content planAI in
  _ ← append rid [mkMsg user task None None; mkMsg assistant planText None None];
  let lcTools := buildLCTools tools in
  let systemAct := join nl
        [ "你可以使用提供的工具完成检索/执行。";
          "仅在需要时调用工具，然后基于工具结果生成候选答案。";
          "不要泄露内部思考或链路，仅输出任务相关内容。" ] in
  history ← getHistory rid;
  let actMsgs := toLCMessages (Some systemAct) history in
  p ← invokeText lcTools actMsgs;
  aiDecide ← await p;
  toolMessages ← executeToolCalls aiDecide tools;
  _ ← match toolMessages with
      | [] => mret tt
      | _ => append rid toolMessages
      end;
  match extractSchemaFromInput input with
  | Some schema =>
      let systemValidate := join nl
            [ "依据给定的 JSON Schema/Zod 结构，输出严格符合该结构的对象。";
              "不要解释，仅输出对象。" ] in
      history ← getHistory rid;
      let validateMsgs :=
        toLCMessages (Some systemValidate) history
        ++ [HumanMessage "请输出结构化对象（符合 schema）。"] in
      _ ← invokeWithStructuredOutput [] validateMsgs schema;
      t ← nowMs;
      let meta := mkMeta (Z.min maxSteps 3) (t - startedAt) (model params)
                    (used_names toolMessages) false None in
      _ ← emit rid run_end (meta_json meta);
      events ← collected (collectEvents lib) mark;
      effect (Yield (mkChunk None (Some "end")
                (Some (mkMeta (steps meta) (durationMs meta) (meta_model meta)
                         (meta_usedTools meta) false events))))
  | None =>
      let systemSummarize := join nl
            [ "基于已有对话与工具结果，给出高质量的最终答案。";
              "不泄露内部思考与反思，仅输出对用户有用的内容。" ] in
      history ← getHistory rid;
      let sumMsgs := toLCMessages (Some systemSummarize) history in
      n ← request ReqStream [] sumMsgs;
      fullText ← consume (options ≫= opt_signal) (on_stream gemini n).1 (on_stream gemini n).2
                   EmptyString;
      _ ← append rid [mkMsg assistant fullText None None];
      t ← nowMs;
      let meta := mkMeta (Z.min maxSteps 4) (t - startedAt) (model params)
                    (used_names toolMessages) false None in
      _ ← emit rid run_end (meta_json meta);
      events ← collected (collectEvents lib) mark;
      effect (Yield (mkChunk None (Some "end")
                (Some (mkMeta (steps meta) (durationMs meta) (meta_model meta)
                         (meta_usedTools meta) false events))))
  end.

End WithModel.

(** ** core/cache.ts: the other methods of SimpleCache

    [has] does not refresh an entry ([updateAgeOnHas] is off) and, unlike
    [get], leaves an expired one where it is. *)

Definition SimpleCache_has (cfg : CacheConfig) (key : string) : M bool := λ w,
  (Normal (match cache_find key (w_responseCache w) with
           | Some hit => negb (is_stale cfg (w_now w) hit)
           | None => false
           end), w).

Definition SimpleCache_delete (key : string) : M unit := λ w,
  (Normal tt, set_responseCache (cache_remove key (w_responseCache w)) w).

Definition SimpleCache_clear : M unit := λ w,
  (Normal tt, set_responseCache [] w).

(** ** core/memory/inmemory.ts: clear *)

Definition InMemoryMemory_clear (rid : string) : M unit := λ w,
  (Normal tt, set_store (delete rid (w_store w)) w).

(** ** core/eventBus.ts: createEventBus

    [handlers] is a [Set] of functions, iterated in insertion order; a
    handler is known by its reference, a number here.  What a handler or a
    method of the logger does is its own business: the bus sees the call and
    whether it throws, which may depend on the calls made so far.  Handlers
    are taken not to subscribe, unsubscribe or emit while they run. *)

Module EventBus.

Inductive LogLine : Type :=
| Warned (what : string) (err : JsError)      (* logger.warn(what, err) *)
| Debugged (e : EventPayload).                (* logger.debug("[eventBus]", e.kind, iso, e.data ?? {}) *)

(** The methods the logger has ([None]: the property is not there); a
    method throws or returns, given the lines logged before. *)
Record LoggerLike : Type := mkLogger {
  debug : option (list LogLine → LogLine → option JsError);
  warn : option (list LogLine → LogLine → option JsError);
}.

Record Bus : Type := mkBus {
  handlers : list nat;                        (* the Set, in insertion order *)
  calls : list (nat * EventPayload);          (* the calls h(e), in order *)
  logged : list LogLine;                      (* the calls of the logger, in order *)
}.


(** [on(handler)]: [handlers.add(handler)] *)
Definition on (h : nat) (bus : Bus) : Bus :=
  mkBus (if bool_decide (h ∈ handlers bus) then handlers bus else handlers bus ++ [h])
        (calls bus) (logged bus).

(** The function [on] returned: [handlers.delete(handler)] *)
Definition off (h : nat) (bus : Bus) : Bus :=
  mkBus (List.filter (λ h', negb (Nat.eqb h' h)) (handlers bus)) (calls bus) (logged bus).

(** A call of a method of the logger, if it is there: the line is logged,
    and the call returns ([None]) or throws. *)
Definition log_with (method : option (list LogLine → LogLine → option JsError))
    (line : LogLine) (bus : Bus) : Bus * option JsError :=
  match method with
  | Some f => (mkBus (handlers bus) (calls bus) (logged bus ++ [line]), f (logged bus) line)
  | None => (bus, None)
  end.

(** [logger?.warn?.(what, err)] *)
Definition call_warn (logger : option LoggerLike) (what : string) (err : JsError) (bus : Bus)
  : Bus * option JsError :=
  log_with (logger ≫= warn) (Warned what err) bus.

(** [new Date(t).toISOString()] throws a RangeError outside the time values. *)
Definition valid_time (t : Z) : bool :=
  (-8640000000000000 <=? t) && (t <=? 8640000000000000).

(** The [for (const h of handlers)] of [emit], each call in its own [try];
    what [logger.warn] throws in the [catch] leaves the loop. *)
Fixpoint deliver (throws : list (nat * EventPayload) → nat → EventPayload → option JsError)
    (logger : option LoggerLike) (hs : list nat) (e : EventPayload) (bus : Bus)
  : Bus * option JsError :=
  match hs with
  | [] => (bus, None)
  | h :: hs =>
      let called := mkBus (handlers bus) (calls bus ++ [(h, e)]) (logged bus) in
      match throws (calls bus) h e with
      | Some err =>
          match call_warn logger "[eventBus] handler error" err called with
          | (bus', None) => deliver throws logger hs e bus'
          | (bus', Some err') => (bus', Some err')
          end
      | None => deliver throws logger hs e called
      end
  end.

(** The body of the outer [try]: the loop, then the debug mirror, whose
    arguments are evaluated only when the logger has [debug]. *)
Definition emit_body (throws : list (nat * EventPayload) → nat → EventPayload → option JsError)
    (logger : option LoggerLike) (e : EventPayload) (bus : Bus) : Bus * option JsError :=
  match deliver throws logger (handlers bus) e bus with
  | (bus', Some err) => (bus', Some err)
  | (bus', None) =>
      match logger ≫= debug with
      | Some f =>
          if valid_time (ev_timestamp e) then log_with (Some f) (Debugged e) bus'
          else (bus', Some (Error "Invalid time value"))
      | None => (bus', None)
      end
  end.

(** [emit(e)]: the bus afterwards, and what the call throws, if it does;
    that can only be what [logger.warn] threw in the outer [catch]. *)
Definition emit_run (throws : list (nat * EventPayload) → nat → EventPayload → option JsError)
    (logger : option LoggerLike) (e : EventPayload) (bus : Bus) : Bus * option JsError :=
  match emit_body throws logger e bus with
  | (bus', Some err) => call_warn logger "[eventBus] emit error" err bus'
  | (bus', None) => (bus', None)
  end.

Definition emit (throws : list (nat * EventPayload) → nat → EventPayload → option JsError)
    (logger : option LoggerLike) (e : EventPayload) (bus : Bus) : Bus :=
  (emit_run throws logger e bus).1.

End EventBus.

(** * Vocabulary of the statements *)

(** Two values that differ only in the order in which the properties of
    their objects were inserted, at any depth. *)
Inductive reorder : JsValue → JsValue → Prop :=
| reorder_refl v : reorder v v
| reorder_arr xs ys :
    length xs = length ys →
    (∀ i x y, xs !! i = Some x → ys !! i = Some y → reorder x y) →
    reorder (JArr xs) (JArr ys)
| reorder_obj fs gs :
    fs.*1 ≡ₚ gs.*1 →
    (∀ k, k ∈ fs.*1 → reorder (js_get fs k) (js_get gs k)) →
    reorder (JObj fs) (JObj gs).

(** The text of the cache key: the JSON text of the object whose members
    are, in this order, "messages" (an array of objects with the members
    "_type", "content" and, if the message has one, "name"), "model", "tag"
    and, if a temperature is set, "temperature". *)
Definition message_text (m : BaseMessage) : string :=
  "{" +:+ join ","
            ([ json_quote "_type" +:+ ":" +:+ json_quote (_type m);
               json_quote "content" +:+ ":" +:+ json_quote (lc_content m) ]
             ++ match lc_name m with
                | Some n => [json_quote "name" +:+ ":" +:+ json_quote n]
                | None => []
                end)
      +:+ "}".

Definition key_text (tag model : string) (temperature : option Z)
    (messages : list BaseMessage) : string :=
  "{" +:+ join ","
            ([ json_quote "messages" +:+ ":"
                 +:+ ("[" +:+ join "," (List.map message_text messages) +:+ "]");
               json_quote "model" +:+ ":" +:+ json_quote model;
               json_quote "tag" +:+ ":" +:+ json_quote tag ]
             ++ match temperature with
                | Some t => [json_quote "temperature" +:+ ":" +:+ pretty t]
                | None => []
                end)
      +:+ "}".

(** An effect with the time stamp of its event erased. *)
Definition untimed (x : Effect) : Effect :=
  match x with
  | Emit e => Emit (mkEvent (ev_runId e) (ev_kind e) 0 (ev_data e))
  | _ => x
  end.

(** When and how the attempt that issues request [n] at instant [t0] settles. *)
Definition attempt_at (gemini : Model) (ctx : OrchestratorContext) (n : nat) (t0 : Z)
  : Z * Completion AIMessage :=
  race t0 ((on_invoke gemini n).1, settled (on_invoke gemini n).2)
       (timeouts (params ctx) ≫= perStepMs) (signal ctx).

(** What [retryAsync] does around failure number [i + 1] (counting from the
    request [n0]) when the error is [e]: the request, the [retry] event, the
    backoff sleep. *)
Definition retry_round (ctx : OrchestratorContext) (state : GraphState) (bound : list string)
    (messages : list BaseMessage) (e : nat → JsError) (n0 : nat) (i : nat) : list Effect :=
  [ Request ReqInvoke bound messages;
    Emit (mkEvent (runId state) retry 0
            [("attempt", JNum (Z.of_nat i + 1)); ("error", JStr (message (e (n0 + i)%nat)))]);
    Sleep (Z.min (retry_initial_of ctx * retry_factor_of ctx ^ Z.of_nat i)
                 (retry_maxDelay_of ctx)) ].

(** The part of the rate limiter in a trace. *)
Definition ratelimit_effect (x : Effect) : Prop :=
  match x with
  | Emit e => ev_kind e = ratelimit_delay
  | Sleep _ => True
  | _ => False
  end.

Definition is_event (k : EventKind) (x : Effect) : bool :=
  match x with Emit e => bool_decide (ev_kind e = k) | _ => false end.

(** The errors [withTimeout] itself raises under a context. *)
Definition timeout_error (ctx : OrchestratorContext) (e : JsError) : Prop :=
  e = Error "Aborted"
  ∨ e = Error ("Timeout after "
               +:+ pretty (default 0 (timeouts (params ctx) ≫= perStepMs)) +:+ "ms").

(** ** Concrete configurations used in the examples *)

Definition demo_world : World := mkWorld 1700000000000 [] [] ∅ [] 0.

Definition demo_cache : CacheConfig := mkCacheCfg (Some true) (Some 60000) (Some 500).

Definition demo_params : ModelParams :=
  mkParams "gemini-1.5-pro" None None None None None.

Definition demo_ctx : OrchestratorContext := mkCtx demo_params [] demo_cache 0 None.

Definition demo_state : GraphState :=
  mkState "run_a" (InputText "hello") 0 6 None None None None None 1700000000000 None false [].

Definition demo_messages : list BaseMessage := [HumanMessage "hello"].

Definition other_messages : list BaseMessage := [HumanMessage "second"].

Definition answer : AIMessage := mkAI "OK answer from mock model." [].

(** A model that always answers. *)
Definition steady : Model :=
  mkModel (λ _, (100, inr answer))
          (λ _, (50, inr (JObj [("ok", JBool true)])))
          (λ _, ([(10, "This is "); (10, "a streaming "); (10, "response.")], None)).

(** A model whose first request is rejected after 40 ms. *)
Definition flaky : Model :=
  mkModel (λ n, match n with O => (40, inl (Error "503 Service Unavailable"))
                        | _ => (100, inr answer) end)
          (on_structured steady) (on_stream steady).

(** A model whose first answer takes five seconds. *)
Definition slow : Model :=
  mkModel (λ n, match n with O => (5000, inr answer) | _ => (100, inr answer) end)
          (on_structured steady) (on_stream steady).


(** A model that rejects every request. *)
Definition broken : Model :=
  mkModel (λ _, (40, inl (Error "503 Service Unavailable")))
          (on_structured steady) (on_stream steady).

Definition demo_lib : Library := mkLibrary demo_params [] demo_cache 1 false.

Definition schema_input : RunInput :=
  InputObject (Some "plan a trip") (Some (JsonSchema (JObj [("type", JStr "object")]))).

(** A context with a per-step deadline of one second. *)
Definition deadline_ctx : OrchestratorContext :=
  mkCtx (mkParams "gemini-1.5-pro" None None (Some (mkTimeouts (Some 1000) None)) None None)
        [] demo_cache 0 None.

(** A library limited to 60 requests per minute, with a step ceiling of 1. *)
Definition limited_lib : Library :=
  mkLibrary
    (mkParams "gemini-1.5-pro" None None None None (Some (mkRateLimit (Some 60) (Some true))))
    [] demo_cache 1 false.

(** Options whose signal is aborted 215 ms after [demo_world]'s clock. *)
Definition abort_mid : option RunOptions :=
  Some (mkOptions None (Some (mkSignal (Some 1700000000215))) None).

Definition is_request (x : Effect) : bool :=
  match x with Request _ _ _ => true | _ => false end.

Definition is_execute (x : Effect) : Prop :=
  match x with Execute _ _ => True | _ => False end.

(** The events of the nodes themselves. *)
Definition node_event (x : Effect) : bool :=
  is_event node_enter x || is_event node_exit x.

Definition quiet (x : Effect) : Prop := node_event x = false.

Definition enter_event (n : Node) (state : GraphState) (t : Z) : Effect :=
  Emit (mkEvent (runId state) node_enter t
          [("node", JStr (node_name n)); ("step", JNum (step state))]).

Definition exit_event (n : Node) (state : GraphState) (t : Z) (d : list (string * JsValue))
  : Effect :=
  Emit (mkEvent (runId state) node_exit t
          ([("node", JStr (node_name n)); ("step", JNum (step state))] ++ d)).

(** What ends the trace of a node: its [node:exit] when it returns, nothing
    when it throws. *)
Definition exit_tail {A} (n : Node) (state : GraphState) (r : Completion A)
    (tl : list Effect) : Prop :=
  match r with
  | Normal _ => ∃ t d, tl = [exit_event n state t d]
  | _ => tl = []
  end.

(** The node events of a run of the graph: the enter and exit of one phase
    after the other, the last phase possibly left open. *)
Inductive phases : list Effect → Prop :=
| phases_done : phases []
| phases_open n state t : phases [enter_event n state t]
| phases_next n state t t' d rest :
    phases rest →
    phases (enter_event n state t :: exit_event n state t' d :: rest).

(** The value of the step counter at an entry into act. *)
Definition act_entry (x : Effect) : option Z :=
  match x with
  | Emit (mkEvent _ node_enter _ [("node", JStr n); ("step", JNum s)]) =>
      if String.eqb n "act" then Some s else None
  | _ => None
  end.

(** The name of the node an event announces the entry of. *)
Definition entered (x : Effect) : option string :=
  match x with
  | Emit (mkEvent _ node_enter _ (("node", JStr n) :: _)) => Some n
  | _ => None
  end.


(** The chunks a stream yielded. *)
Definition yielded (tr : list Effect) : list StreamChunk :=
  omap (λ x, match x with Yield c => Some c | _ => None end) tr.

Definition delta_chunk (d : string) : StreamChunk := mkChunk (Some d) None None.

Definition end_chunk (m : RunMeta) : StreamChunk := mkChunk None (Some "end") (Some m).

(** The non-empty increments of a model stream opened at [t0], with the
    instants at which they arrive. *)
Fixpoint arrivals (t0 : Z) (chunks : list (Z * string)) : list (Z * string) :=
  match chunks with
  | [] => []
  | (d, s) :: chunks =>
      if String.eqb s EmptyString then arrivals (t0 + d) chunks
      else (t0 + d, s) :: arrivals (t0 + d) chunks
  end.

(** The increments that arrive before the first one that finds the signal
    aborted. *)
Fixpoint before_abort (sig : option AbortSignal) (l : list (Z * string)) : list string :=
  match l with
  | [] => []
  | (t, s) :: l => if aborted sig t then [] else s :: before_abort sig l
  end.

Definition concat_all (l : list string) : string := foldr String.append EmptyString l.

(** The part of a trace before its first model request. *)
Fixpoint before_request (l : list Effect) : list Effect :=
  match l with
  | [] => []
  | x :: l => if is_request x then [] else x :: before_request l
  end.

(** What [m] appends to the trace of [w]. *)
Definition delta_of {A} (m : M A) (w : World) : list Effect :=
  drop (length (w_trace w)) (w_trace (m w).2).

(** ** Vocabulary of the further properties *)

(** The tool a call by name reaches: of the enabled, visible tools of that
    name, the one that comes last in the list. *)
Definition find_tool (tools : list ToolDefinition) (n : string) : option ToolDefinition :=
  head (reverse (List.filter (λ t, visible t && String.eqb (tool_name t) n) tools)).

(** The [Execute] effect of a call: there is one when a tool is found for
    its name and the arguments parse. *)
Definition executed (find : string → option ToolDefinition) (call : ToolCall)
  : option Effect :=
  match find (toolName_of call) with
  | Some def =>
      match tool_parse def (args_of call) with
      | inr parsed => Some (Execute (toolName_of call) parsed)
      | inl _ => None
      end
  | None => None
  end.

(** What a call comes to: the time it takes and the tool message that
    answers it, or [None] when its tool never settles. *)
Definition tool_answer (find : string → option ToolDefinition) (call : ToolCall)
  : option (Z * MemoryMessage) :=
  let reply c := mkMsg tool c (Some (toolName_of call)) None in
  match find (toolName_of call) with
  | None => Some (0, unregistered (toolName_of call))
  | Some def =>
      match tool_parse def (args_of call) with
      | inl e => Some (0, reply (error_payload (message e)))
      | inr parsed =>
          match execute def parsed with
          | Settles d (inl e) => Some (d, reply (error_payload (message e)))
          | Settles d (inr result) => Some (d, reply (safeJSONStringify result))
          | Hangs => None
          end
      end
  end.

(** The calls of a batch up to, and including, the first one that hangs. *)
Fixpoint reached (find : string → option ToolDefinition) (calls : list ToolCall)
  : list ToolCall :=
  match calls with
  | [] => []
  | call :: calls =>
      match tool_answer find call with
      | Some _ => call :: reached find calls
      | None => [call]
      end
  end.

(** The answers to the calls of a batch that come before the first one
    that hangs, and whether none does. *)
Fixpoint answers_of (find : string → option ToolDefinition) (calls : list ToolCall)
  : list (Z * MemoryMessage) :=
  match calls with
  | [] => []
  | call :: calls =>
      match tool_answer find call with
      | Some a => a :: answers_of find calls
      | None => []
      end
  end.

Definition all_settle (find : string → option ToolDefinition) (calls : list ToolCall) : bool :=
  forallb (λ call, bool_decide (is_Some (tool_answer find call))) calls.


(** Tools that settle whatever they are called with. *)
Definition settling (tools : list ToolDefinition) : Prop :=
  ∀ t v, t ∈ tools → execute t v ≠ Hangs.

(** The time a batch takes: the times of its calls, added up. *)
Definition batch_time (answers : list (Z * MemoryMessage)) : Z :=
  foldr (λ a acc, a.1 + acc) 0 answers.

(** What [stream] does between its two events: requests, tool executions
    and chunks that carry no event. *)
Definition body_effect (x : Effect) : Prop :=
  match x with
  | Request _ _ _ | Execute _ _ => True
  | Yield c => event c = None
  | _ => False
  end.

(** How the trace of a [stream] ends: with [run:end] and the end chunk when
    it completes, with neither when it throws. *)
Definition stream_tail (rid : string) (r : Completion unit) (tl : list Effect) : Prop :=
  match r with
  | Normal _ => ∃ t m, tl = [Emit (mkEvent rid run_end t (meta_json m)); Yield (end_chunk m)]
  | _ => tl = []
  end.

(** The delays handed to [sleep] in a trace, added up (a negative one
    counts as 0). *)
Definition slept (tr : list Effect) : Z :=
  foldr (λ x acc, match x with Sleep ms => Z.max 0 ms + acc | _ => acc end) 0 tr.

(** *** Further configurations used in the examples *)


(** A context that does not retry, and one limited to 60 requests per minute. *)
Definition once_ctx : OrchestratorContext :=
  mkCtx (mkParams "gemini-1.5-pro" None None None (Some (mkRetry (Some 1) None None None)) None)
        [] demo_cache 0 None.

Definition limited_ctx : OrchestratorContext :=
  mkCtx (mkParams "gemini-1.5-pro" None None None None (Some (mkRateLimit (Some 60) (Some true))))
        [] demo_cache 0 None.

(** Two tools, the second of which throws, and a decision that calls both. *)
Definition echo_tool : ToolDefinition :=
  mkTool "echo" "Returns its input" (λ v, inr v) None None (λ v, Settles 5 (inr v)).

Definition fetch_tool : ToolDefinition :=
  mkTool "fetch" "Fetches a page" (λ v, inr v) None None
    (λ _, Settles 30 (inl (Error "network down"))).

Definition fetch_call : ToolCall := mkCall (Some "fetch") None None.

Definition echo_call : ToolCall := mkCall (Some "echo") None (Some (JObj [("q", JStr "hi")])).

(** A call of the echo tool whose arguments are [null]. *)
Definition null_call : ToolCall := mkCall (Some "echo") None (Some JNull).

Definition tool_batch : AIMessage := mkAI "Decide tools" [fetch_call; echo_call; null_call].




(** An object whose keys are out of order at two depths. *)
Definition unsorted_object : JsValue :=
  JObj [("b", JNum 1); ("a", JArr [JObj [("d", JNull); ("c", JBool true)]])].

(** A model whose non-streaming requests are all fulfilled. *)
Definition answers (gemini : Model) : Prop :=
  (∀ n, ∃ ai, (on_invoke gemini n).2 = inr ai)
  ∧ (∀ n, ∃ v, (on_structured gemini n).2 = inr v).


(** * Properties *)

Arguments trim : simpl never.
Arguments join : simpl never.
Arguments buildSystemPrompt : simpl never.
Arguments toLCMessages : simpl never.
Arguments makeCacheKey : simpl never.
Arguments cache_key_of : simpl never.
Arguments JSON_stringify : simpl never.
Arguments error_payload : simpl never.
Arguments toolMap : simpl never.
Arguments Z.mul : simpl never.
Arguments Z.add : simpl never.
Arguments Z.sub : simpl never.

(** ** Reasoning about the monad *)

Lemma bind_run {A B} (m : M A) (f : A → M B) (w : World) :
  (m ≫= f) w = match m w with
               | (Normal a, w') => f a w'
               | (Throw e, w') => (Throw e, w')
               | (OutOfFuel, w') => (OutOfFuel, w')
               end.
Proof. reflexivity. Qed.

Lemma ret_run {A} (a : A) (w : World) : (mret a : M A) w = (Normal a, w).
Proof. reflexivity. Qed.

(** [frames P m]: running [m] only appends effects satisfying [P]. *)
Definition frames (P : Effect → Prop) {A} (m : M A) : Prop :=
  ∀ w, ∃ tr, w_trace (m w).2 = w_trace w ++ tr ∧ Forall P tr.

(** [silent m]: [m] appends nothing. *)
Definition silent {A} (m : M A) : Prop := ∀ w, w_trace (m w).2 = w_trace w.


(** [total m]: [m] never runs out of fuel. *)
Definition total {A} (m : M A) : Prop := ∀ w, (m w).1 ≠ OutOfFuel.

Create HintDb monad discriminated.

Lemma silent_frames P {A} (m : M A) : silent m → frames P m.
Proof. intros H w. exists []. rewrite H, app_nil_r. auto. Qed.

Lemma frames_mono (P Q : Effect → Prop) {A} (m : M A) :
  (∀ x, P x → Q x) → frames P m → frames Q m.
Proof.
  intros HPQ Hm w. destruct (Hm w) as (tr & E & F).
  exists tr. split; [exact E|]. eapply Forall_impl; eauto.
Qed.

Lemma frames_bind P {A B} (m : M A) (f : A → M B) :
  frames P m → (∀ a, frames P (f a)) → frames P (m ≫= f).
Proof.
  intros Hm Hf w. rewrite bind_run. destruct (Hm w) as (tr & E & F).
  destruct (m w) as [[a|e|] w1]; simpl in *; try (exists tr; by split).
  destruct (Hf a w1) as (tr2 & E2 & F2). exists (tr ++ tr2).
  rewrite E2, E, app_assoc. split; [done|]. by apply Forall_app.
Qed.

Lemma frames_try_catch P {A} (m : M A) (h : JsError → M A) :
  frames P m → (∀ e, frames P (h e)) → frames P (try_catch m h).
Proof.
  intros Hm Hh w. unfold try_catch. destruct (Hm w) as (tr & E & F).
  destruct (m w) as [[a|e|] w1]; simpl in *; try (exists tr; by split).
  destruct (Hh e w1) as (tr2 & E2 & F2). exists (tr ++ tr2).
  rewrite E2, E, app_assoc. split; [done|]. by apply Forall_app.
Qed.

Lemma frames_effect (P : Effect → Prop) x : P x → frames P (effect x).
Proof. intros H w. exists [x]. split; [done|]. by constructor. Qed.

Lemma frames_emit (P : Effect → Prop) rid k d :
  (∀ t, P (Emit (mkEvent rid k t d))) → frames P (emit rid k d).
Proof. intros H w. exists [Emit (mkEvent rid k (w_now w) d)]. split; [done|]. by constructor. Qed.

Lemma frames_sleep (P : Effect → Prop) ms : P (Sleep ms) → frames P (sleep ms).
Proof. intros H w. exists [Sleep ms]. split; [done|]. by constructor. Qed.

Lemma frames_request (P : Effect → Prop) k b ms : P (Request k b ms) → frames P (request k b ms).
Proof. intros H w. exists [Request k b ms]. split; [done|]. by constructor. Qed.

Lemma silent_mret {A} (a : A) : silent (mret a : M A).
Proof. by intros w. Qed.
Lemma silent_throw {A} e : silent (throw e : M A).
Proof. by intros w. Qed.
Lemma silent_out_of_fuel {A} : silent (out_of_fuel : M A).
Proof. by intros w. Qed.
Lemma silent_lift {A} (r : JsError + A) : silent (lift r).
Proof. by destruct r; intros w. Qed.
Lemma silent_nowMs : silent nowMs.
Proof. by intros w. Qed.
Lemma silent_await {A} (p : Promise A) : silent (await p).
Proof. by intros w. Qed.
Lemma silent_getHistory rid : silent (getHistory rid).
Proof. by intros w. Qed.
Lemma silent_append rid ms : silent (append rid ms).
Proof. by intros w. Qed.
Lemma silent_SimpleCache_get cfg k : silent (SimpleCache_get cfg k).
Proof. intros w. unfold SimpleCache_get. by repeat case_match. Qed.
Lemma silent_SimpleCache_set cfg k v : silent (SimpleCache_set cfg k v).
Proof. by intros w. Qed.
Lemma silent_limiter_lastAt r : silent (limiter_lastAt r).
Proof. by intros w. Qed.
Lemma silent_limiter_record r t : silent (limiter_record r t).
Proof. by intros w. Qed.
Lemma silent_subscribe : silent subscribe.
Proof. by intros w. Qed.
Lemma silent_collected c n : silent (collected c n).
Proof. by intros w. Qed.
Lemma silent_new_limiter : silent new_limiter.
Proof. by intros w. Qed.
Lemma silent_withTimeout {A} (p : Promise A) ms sig : silent (withTimeout p ms sig).
Proof. by intros w. Qed.

#[global] Hint Resolve silent_mret silent_throw silent_out_of_fuel silent_lift silent_nowMs
  silent_await silent_getHistory silent_append silent_SimpleCache_get silent_SimpleCache_set
  silent_limiter_lastAt silent_limiter_record silent_subscribe silent_collected
  silent_new_limiter silent_withTimeout : monad.



Lemma total_bind {A B} (m : M A) (f : A → M B) :
  total m → (∀ a, total (f a)) → total (m ≫= f).
Proof.
  intros Hm Hf w. rewrite bind_run. specialize (Hm w).
  destruct (m w) as [[a|e|] w1]; simpl in *; try done. apply Hf.
Qed.

Lemma total_try_catch {A} (m : M A) (h : JsError → M A) :
  total m → (∀ e, total (h e)) → total (try_catch m h).
Proof.
  intros Hm Hh w. unfold try_catch. specialize (Hm w).
  destruct (m w) as [[a|e|] w1]; simpl in *; try done. apply Hh.
Qed.

Ltac frames_step :=
  first [ apply frames_bind; [|intros]
        | apply frames_try_catch; [|intros]
        | apply silent_frames; solve [auto with monad]
        | apply frames_emit; intros
        | apply frames_sleep
        | apply frames_request
        | apply frames_effect ].

(** Runs the primitive steps at the head of a computation. *)
Ltac mrun :=
  repeat progress
    (rewrite ?bind_run;
     cbn [nowMs effect sleep await throw out_of_fuel lift request subscribe collected
          new_limiter limiter_lastAt limiter_record getHistory append
          w_now w_trace w_responseCache w_store w_limiters w_requests
          set_now log set_responseCache set_store set_limiters set_requests
          mret M_ret fst snd]).

(** Exposes the fields of the worlds built by the setters. *)
Ltac wnorm :=
  unfold set_limiters, set_now, log, set_requests, set_responseCache, set_store;
  cbn [w_now w_trace w_responseCache w_store w_limiters w_requests].

Ltac total_step :=
  first [ apply total_bind; [|intros]
        | apply total_try_catch; [|intros]
        | (intros ?w; simpl; discriminate) ].

(** ** The effects of the execution policy *)

Inductive policy_effect : Effect → Prop :=
| pe_emit rid k t d :
    k ∈ [cache_hit; ratelimit_delay; retry; model_call_end] →
    policy_effect (Emit (mkEvent rid k t d))
| pe_sleep ms : policy_effect (Sleep ms)
| pe_request b ms : policy_effect (Request ReqInvoke b ms).

#[global] Hint Constructors policy_effect : monad.

Lemma frames_ensureRateLimit ctx state : frames policy_effect (ensureRateLimit ctx state).
Proof.
  unfold ensureRateLimit.
  repeat first [ frames_step | case_match ];
    try (constructor; set_solver).
Qed.

Lemma frames_retry_loop {T} (fn : M T) ctx state fuel attempt delay :
  frames policy_effect fn →
  frames policy_effect (retry_loop fn ctx state fuel attempt delay).
Proof.
  intros Hfn. revert attempt delay.
  induction fuel as [|fuel IH]; intros attempt delay; simpl;
    repeat first [ done | frames_step | case_match ];
    try (constructor; set_solver); apply IH.
Qed.

(** [retryAsync] terminates: the fuel handed to the loop is never used up. *)
Lemma total_retry_loop {T} (fn : M T) ctx state fuel attempt delay :
  total fn →
  retry_max_of ctx - attempt - 1 ≤ Z.of_nat fuel →
  total (retry_loop fn ctx state fuel attempt delay).
Proof.
  intros Hfn. revert attempt delay.
  induction fuel as [|fuel IH]; intros attempt delay Hfuel; simpl.
  - apply total_try_catch; [done|]. intros e. case_match; [total_step|].
    apply Z.leb_gt in H. lia.
  - apply total_try_catch; [done|]. intros e. case_match; [total_step|].
    unfold emit. repeat total_step. apply IH. lia.
Qed.

Lemma retryAsync_total {T} (fn : M T) ctx state :
  total fn → total (retryAsync fn ctx state).
Proof. intros Hfn. unfold retryAsync. apply total_retry_loop; [done|lia]. Qed.

Lemma frames_attempt gemini ctx bound messages :
  frames policy_effect (attempt gemini ctx bound messages).
Proof. unfold attempt, invokeText. repeat frames_step. constructor. Qed.

Lemma frames_callModelTextRaw gemini ctx bound messages state tag :
  frames policy_effect (callModelTextRaw gemini ctx bound messages state tag).
Proof.
  unfold callModelTextRaw.
  repeat first [ apply frames_ensureRateLimit
               | apply frames_retry_loop, frames_attempt
               | frames_step | case_match ];
    try (constructor; set_solver).
Qed.

(** ** retryAsync *)

Section Retry.

Context (gemini : Model) (ctx : OrchestratorContext) (state : GraphState).
Context (bound : list string) (messages : list BaseMessage).

Lemma attempt_run (w : World) :
  attempt gemini ctx bound messages w = ((attempt_at gemini ctx (w_requests w) (w_now w)).2,
          set_now (attempt_at gemini ctx (w_requests w) (w_now w)).1
            (set_requests (S (w_requests w)) (log [Request ReqInvoke bound messages] w))).
Proof. reflexivity. Qed.

Lemma retry_loop_eq {T} (f : M T) fuel attempt delay :
  retry_loop f ctx state fuel attempt delay =
  try_catch f (λ e,
    if retry_max_of ctx <=? attempt + 1 then throw e
    else
      _ ← emit (runId state) retry
            [("attempt", JNum (attempt + 1)); ("error", JStr (message e))];
      _ ← sleep (Z.min delay (retry_maxDelay_of ctx));
      match fuel with
      | O => out_of_fuel
      | S fuel => retry_loop f ctx state fuel (attempt + 1) (delay * retry_factor_of ctx)
      end).
Proof. destruct fuel; reflexivity. Qed.

(** The rounds seen from inside the loop, where [attempt] and [delay] are
    the loop variables. *)
Fixpoint rounds_from (e : nat → JsError) (a delay : Z) (n : nat) (k : nat) : list Effect :=
  match k with
  | O => []
  | S k =>
      [ Request ReqInvoke bound messages;
        Emit (mkEvent (runId state) retry 0
                [("attempt", JNum (a + 1)); ("error", JStr (message (e n)))]);
        Sleep (Z.min delay (retry_maxDelay_of ctx)) ]
      ++ rounds_from e (a + 1) (delay * retry_factor_of ctx) (S n) k
  end.

Lemma flat_map_seq_S {A} (f : nat → list A) k :
  flat_map f (seq 1 k) = flat_map (λ i, f (S i)) (seq 0 k).
Proof.
  rewrite <- seq_shift, !flat_map_concat_map, map_map. reflexivity.
Qed.

Lemma rounds_from_closed e k : ∀ a delay n,
  rounds_from e a delay n k =
  flat_map (λ i,
    [ Request ReqInvoke bound messages;
      Emit (mkEvent (runId state) retry 0
              [("attempt", JNum (a + Z.of_nat i + 1));
               ("error", JStr (message (e (n + i)%nat)))]);
      Sleep (Z.min (delay * retry_factor_of ctx ^ Z.of_nat i) (retry_maxDelay_of ctx)) ])
    (seq 0 k).
Proof.
  induction k as [|k IH]; intros a delay n; [reflexivity|].
  change (seq 0 (S k)) with (0%nat :: seq 1 k).
  cbn [rounds_from flat_map]. rewrite flat_map_seq_S, IH.
  f_equal; [|apply flat_map_ext; intros i].
  - change (Z.of_nat 0) with 0. rewrite Z.pow_0_r, Z.mul_1_r, Z.add_0_r, Nat.add_0_r.
    reflexivity.
  - replace (a + 1 + Z.of_nat i + 1) with (a + Z.of_nat (S i) + 1) by lia.
    replace (S n + i)%nat with (n + S i)%nat by lia.
    rewrite Nat2Z.inj_succ, Z.pow_succ_r, Z.mul_assoc by lia. reflexivity.
Qed.

Lemma rounds_retry_round e k n :
  rounds_from e 0 (retry_initial_of ctx) n k =
  flat_map (retry_round ctx state bound messages e n) (seq 0 k).
Proof.
  rewrite rounds_from_closed. apply flat_map_ext. intros i.
  unfold retry_round. rewrite Z.add_0_l. reflexivity.
Qed.

(** The loop after [k] failing attempts: it is where it would be had it
    started there. *)
Lemma retry_loop_rounds (e : nat → JsError) k : ∀ fuel a delay w,
  (∀ i t, (i < k)%nat →
     (attempt_at gemini ctx (w_requests w + i) t).2 = Throw (e (w_requests w + i)%nat)) →
  a + Z.of_nat k < retry_max_of ctx →
  retry_max_of ctx - a - 1 ≤ Z.of_nat fuel →
  ∃ w' tr,
    retry_loop (attempt gemini ctx bound messages) ctx state fuel a delay w
    = retry_loop (attempt gemini ctx bound messages) ctx state (fuel - k) (a + Z.of_nat k)
        (delay * retry_factor_of ctx ^ Z.of_nat k) w'
    ∧ w_trace w' = w_trace w ++ tr
    ∧ List.map untimed tr = rounds_from e a delay (w_requests w) k
    ∧ w_requests w' = (w_requests w + k)%nat
    ∧ w_responseCache w' = w_responseCache w
    ∧ w_store w' = w_store w
    ∧ w_limiters w' = w_limiters w.
Proof.
  induction k as [|k IH]; intros fuel a delay w Hfail Hmax Hfuel.
  - exists w, []. rewrite Nat.sub_0_r, Z.add_0_r, Z.pow_0_r, Z.mul_1_r, app_nil_r.
    repeat split; try done; simpl; lia.
  - destruct fuel as [|fuel]; [lia|].
    rewrite retry_loop_eq. unfold try_catch at 1. rewrite attempt_run.
    rewrite (surjective_pairing (attempt_at _ _ _ _)).
    pose proof (Hfail 0%nat (w_now w) ltac:(lia)) as H0.
    rewrite Nat.add_0_r in H0. rewrite H0.
    destruct (retry_max_of ctx <=? a + 1) eqn:Hle; [apply Z.leb_le in Hle; lia|].
    cbn [fst snd]. unfold emit. rewrite !bind_run. cbn [nowMs effect sleep fst snd].
    rewrite !bind_run. cbn [nowMs effect sleep fst snd].
    match goal with |- context [retry_loop _ _ _ fuel _ _ ?w1] =>
      destruct (IH fuel (a + 1) (delay * retry_factor_of ctx) w1) as (w' & tr & E & Et & Eu & En & Ec & Es & El)
    end.
    + intros i t Hi. cbn [w_requests set_now log set_requests].
      replace (S (w_requests w) + i)%nat with (w_requests w + S i)%nat by lia.
      apply Hfail. lia.
    + lia.
    + lia.
    + exists w'. eexists. split; [|split; [|split; [|split; [|split; [|split]]]]].
      * rewrite E. f_equal; try lia.
        rewrite Nat2Z.inj_succ, Z.pow_succ_r by lia. lia.
      * rewrite Et. simpl. rewrite <- !app_assoc. reflexivity.
      * rewrite !map_app, Eu. simpl. reflexivity.
      * rewrite En. simpl. lia.
      * rewrite Ec. reflexivity.
      * rewrite Es. reflexivity.
      * rewrite El. reflexivity.
Qed.

End Retry.

(** ** The policy-wrapped call on a cache miss *)

Lemma SimpleCache_get_run cfg key w :
  ∃ c, SimpleCache_get cfg key w = ((SimpleCache_get cfg key w).1, set_responseCache c w).
Proof.
  unfold SimpleCache_get. repeat case_match; simpl;
    try (eexists; reflexivity).
  exists (w_responseCache w). by destruct w.
Qed.

Lemma ensureRateLimit_run ctx state w :
  ∃ rl now lims,
    ensureRateLimit ctx state w
    = (Normal tt, mkWorld now (w_trace w ++ rl) (w_responseCache w) (w_store w) lims
                    (w_requests w))
    ∧ Forall ratelimit_effect rl.
Proof.
  unfold ensureRateLimit.
  destruct (negb _); [exists [], (w_now w), (w_limiters w); rewrite app_nil_r; by destruct w|].
  destruct (_ ≫= rpm) as [r|]; [|exists [], (w_now w), (w_limiters w); rewrite app_nil_r; by destruct w].
  destruct (_ || _); [exists [], (w_now w), (w_limiters w); rewrite app_nil_r; by destruct w|].
  unfold emit. mrun.
  destruct (0 <? _) eqn:Hw; mrun.
  - eexists [_; _], _, _. split; [unfold set_limiters, set_now, log; simpl; rewrite <- app_assoc; reflexivity|].
    repeat constructor.
  - eexists [], _, _. split; [unfold set_limiters; simpl; rewrite app_nil_r; reflexivity|].
    constructor.
Qed.

Section PolicyMiss.

Context (gemini : Model) (ctx : OrchestratorContext) (state : GraphState).
Context (bound : list string) (messages : list BaseMessage) (tag : option string).

(** After a miss the wrapper is the retry loop, entered after the rate
    limiter, with the store and the event at the end. *)
Lemma callModelTextRaw_miss w :
  (SimpleCache_get (responseCache ctx) (cache_key_of ctx messages tag) w).1 = Normal None →
  ∃ w1 rl,
    w_trace w1 = w_trace w ++ rl ∧ Forall ratelimit_effect rl
    ∧ w_requests w1 = w_requests w
    ∧ callModelTextRaw gemini ctx bound messages state tag w
      = match retryAsync (attempt gemini ctx bound messages) ctx state w1 with
        | (Normal ai, w2) =>
            (Normal (ai, false),
             log [Emit (mkEvent (runId state) model_call_end (w_now w2)
                          [("node", JStr "model.invoke"); ("cached", JBool false)])]
               (set_responseCache
                  (mkEntry (cache_key_of ctx messages tag) ai (w_now w2)
                   :: take (Z.to_nat (cache_capacity (responseCache ctx) - 1))
                        (cache_remove (cache_key_of ctx messages tag) (w_responseCache w2)))
                  w2))
        | (Throw e, w2) => (Throw e, w2)
        | (OutOfFuel, w2) => (OutOfFuel, w2)
        end.
Proof.
  intros Hmiss. unfold callModelTextRaw. rewrite bind_run.
  destruct (SimpleCache_get_run (responseCache ctx) (cache_key_of ctx messages tag) w) as (c & Ec).
  rewrite Ec, Hmiss. rewrite bind_run.
  destruct (ensureRateLimit_run ctx state (set_responseCache c w)) as (rl & now & lims & Er & Hrl).
  rewrite Er. cbn [set_responseCache w_trace w_store w_requests w_responseCache].
  exists (mkWorld now (w_trace w ++ rl) c (w_store w) lims (w_requests w)), rl.
  split; [reflexivity|]. split; [exact Hrl|]. split; [reflexivity|].
  rewrite bind_run.
  destruct (retryAsync _ _ _ _) as [[ai|e|] w2]; try reflexivity.
Qed.

Context (e : nat → JsError).

Lemma retryAsync_succeeds w k ai :
  (∀ i t, (i < k)%nat →
     (attempt_at gemini ctx (w_requests w + i) t).2 = Throw (e (w_requests w + i)%nat)) →
  (∀ t, (attempt_at gemini ctx (w_requests w + k) t).2 = Normal ai) →
  Z.of_nat k < retry_max_of ctx →
  ∃ w' tr,
    retryAsync (attempt gemini ctx bound messages) ctx state w = (Normal ai, w')
    ∧ w_trace w' = w_trace w ++ tr
    ∧ List.map untimed tr
      = flat_map (retry_round ctx state bound messages e (w_requests w)) (seq 0 k)
        ++ [Request ReqInvoke bound messages].
Proof.
  intros Hfail Hok Hk. unfold retryAsync.
  destruct (retry_loop_rounds gemini ctx state bound messages e k
              (Z.to_nat (retry_max_of ctx)) 0 (retry_initial_of ctx) w)
    as (w1 & tr & E & Et & Eu & En & _); [done|lia|lia|].
  rewrite E, retry_loop_eq. unfold try_catch. rewrite attempt_run.
  rewrite (surjective_pairing (attempt_at _ _ _ _)), En, Hok. cbn [fst snd].
  eexists _, (tr ++ [_]). split; [reflexivity|].
  split; [simpl; rewrite Et, app_assoc; reflexivity|].
  rewrite map_app, Eu, rounds_retry_round. reflexivity.
Qed.

Lemma retryAsync_exhausts w k :
  (∀ i t, (i < S k)%nat →
     (attempt_at gemini ctx (w_requests w + i) t).2 = Throw (e (w_requests w + i)%nat)) →
  Z.of_nat (S k) = retry_max_of ctx →
  ∃ w' tr,
    retryAsync (attempt gemini ctx bound messages) ctx state w
    = (Throw (e (w_requests w + k)%nat), w')
    ∧ w_trace w' = w_trace w ++ tr
    ∧ List.map untimed tr
      = flat_map (retry_round ctx state bound messages e (w_requests w)) (seq 0 k)
        ++ [Request ReqInvoke bound messages].
Proof.
  intros Hfail Hk. unfold retryAsync.
  destruct (retry_loop_rounds gemini ctx state bound messages e k
              (Z.to_nat (retry_max_of ctx)) 0 (retry_initial_of ctx) w)
    as (w1 & tr & E & Et & Eu & En & _); [intros; apply Hfail; lia|lia|lia|].
  rewrite E, retry_loop_eq. unfold try_catch. rewrite attempt_run.
  rewrite (surjective_pairing (attempt_at _ _ _ _)), En, Hfail by lia. cbn [fst snd].
  destruct (retry_max_of ctx <=? 0 + Z.of_nat k + 1) eqn:Hle; [|apply Z.leb_gt in Hle; lia].
  eexists _, (tr ++ [_]). split; [reflexivity|].
  split; [simpl; rewrite Et, app_assoc; reflexivity|].
  rewrite map_app, Eu, rounds_retry_round. reflexivity.
Qed.

End PolicyMiss.

Lemma is_event_untimed k x : is_event k (untimed x) = is_event k x.
Proof. by destruct x. Qed.

Lemma ratelimit_not_event k rl :
  k ≠ ratelimit_delay → Forall ratelimit_effect rl → Forall (λ x, is_event k x = false) rl.
Proof.
  intros Hk Hrl. eapply Forall_impl; [exact Hrl|].
  intros [ev| | | |] H; simpl in *; try done.
  apply bool_decide_eq_false. congruence.
Qed.

Lemma rounds_not_call_end ctx state bound messages e n k :
  Forall (λ x, is_event model_call_end x = false)
    (flat_map (retry_round ctx state bound messages e n) (seq 0 k)).
Proof.
  apply Forall_flat_map, Forall_forall. intros i _.
  unfold retry_round. repeat constructor.
Qed.

(** C4 (retry bound).  On a cache miss, when the attempts for the next [k]
    requests fail (with the errors [e]) and [k] is below the maximum attempt
    count, an attempt that succeeds next makes the wrapped call succeed:
    after the rate limiter's part the trace is, for [i = 1..k], the request,
    the [retry] event with attempt number [i] and the message of the i-th
    error, and a sleep of [min (initialDelay * factor^(i-1)) maxDelay],
    then the successful request and one [model:call:end].  When [k] equals
    the maximum attempt count the k-th error comes out of the wrapper after
    [k - 1] such rounds, and no [model:call:end] event is emitted. *)
Theorem retry_bound gemini ctx bound messages state tag (e : nat → JsError) (w : World)
    (k : nat) :
  (SimpleCache_get (responseCache ctx) (cache_key_of ctx messages tag) w).1 = Normal None →
  (∀ i t, (i < k)%nat →
     (attempt_at gemini ctx (w_requests w + i) t).2 = Throw (e (w_requests w + i)%nat)) →
  (∀ ai, Z.of_nat k < retry_max_of ctx →
     (∀ t, (attempt_at gemini ctx (w_requests w + k) t).2 = Normal ai) →
     ∃ w' rl tr,
       callModelTextRaw gemini ctx bound messages state tag w = (Normal (ai, false), w')
       ∧ w_trace w' = w_trace w ++ rl ++ tr
       ∧ Forall ratelimit_effect rl
       ∧ List.map untimed tr
         = flat_map (retry_round ctx state bound messages e (w_requests w)) (seq 0 k)
           ++ [ Request ReqInvoke bound messages;
                Emit (mkEvent (runId state) model_call_end 0
                        [("node", JStr "model.invoke"); ("cached", JBool false)]) ])
  ∧ (Z.of_nat k = retry_max_of ctx → (0 < k)%nat →
     ∃ w' rl tr,
       callModelTextRaw gemini ctx bound messages state tag w
       = (Throw (e (w_requests w + (k - 1))%nat), w')
       ∧ w_trace w' = w_trace w ++ rl ++ tr
       ∧ Forall ratelimit_effect rl
       ∧ List.map untimed tr
         = flat_map (retry_round ctx state bound messages e (w_requests w)) (seq 0 (k - 1))
           ++ [Request ReqInvoke bound messages]
       ∧ Forall (λ x, is_event model_call_end x = false) (rl ++ tr)).
Proof.
  intros Hmiss Hfail.
  destruct (callModelTextRaw_miss gemini ctx state bound messages tag w Hmiss)
    as (w1 & rl & Et1 & Hrl & En1 & Ecall).
  split.
  - intros ai Hk Hok.
    destruct (retryAsync_succeeds gemini ctx state bound messages e w1 k ai)
      as (w2 & tr & Er & Et2 & Eu); [rewrite En1; done|rewrite En1; done|done|].
    rewrite Ecall, Er. eexists _, rl, (tr ++ [_]).
    split; [reflexivity|]. split; [simpl; rewrite Et2, Et1, <- !app_assoc; reflexivity|].
    split; [done|]. rewrite map_app, Eu, En1, <- app_assoc. reflexivity.
  - intros Hk Hpos. destruct k as [|k]; [lia|].
    replace (S k - 1)%nat with k by lia.
    destruct (retryAsync_exhausts gemini ctx state bound messages e w1 k)
      as (w2 & tr & Er & Et2 & Eu); [rewrite En1; done|done|].
    rewrite Ecall, Er, En1. exists w2, rl, tr.
    split; [reflexivity|]. split; [rewrite Et2, Et1, <- !app_assoc; reflexivity|].
    split; [done|]. split; [rewrite Eu, En1; reflexivity|].
    apply Forall_app. split; [by apply ratelimit_not_event|].
    assert (Forall (λ x, is_event model_call_end x = false) (List.map untimed tr)) as H.
    { rewrite Eu. apply Forall_app. split; [apply rounds_not_call_end|by repeat constructor]. }
    rewrite Forall_forall in H |- *. intros x Hx.
    rewrite <- is_event_untimed. apply H. by apply list_elem_of_fmap_2.
Qed.

Lemma retry_bound_witness :
  ∃ w' rl tr,
    callModelTextRaw flaky demo_ctx [] demo_messages demo_state None demo_world
    = (Normal (answer, false), w')
    ∧ w_trace w' = w_trace demo_world ++ rl ++ tr
    ∧ Forall ratelimit_effect rl
    ∧ List.map untimed tr
      = flat_map (retry_round demo_ctx demo_state [] demo_messages
                    (λ _, Error "503 Service Unavailable") 0) (seq 0 1)
        ++ [ Request ReqInvoke [] demo_messages;
             Emit (mkEvent "run_a" model_call_end 0
                     [("node", JStr "model.invoke"); ("cached", JBool false)]) ].
Proof.
  refine (proj1 (retry_bound flaky demo_ctx [] demo_messages demo_state None
                   (λ _, Error "503 Service Unavailable") demo_world 1 _ _) answer _ _).
  - reflexivity.
  - intros i t Hi. destruct i; [reflexivity|lia].
  - reflexivity.
  - intros t. reflexivity.
Defined.

(** ** Timeouts and cancellation under retry *)

Lemma retry_loop_head gemini ctx state bound messages fuel a delay w :
  ∃ tr, w_trace (retry_loop (attempt gemini ctx bound messages) ctx state fuel a delay w).2
        = w_trace w ++ Request ReqInvoke bound messages :: tr.
Proof.
  rewrite retry_loop_eq. unfold try_catch. rewrite attempt_run.
  destruct (attempt_at _ _ _ _) as [t [ai|e|]]; cbn [fst snd];
    try (exists []; reflexivity).
  match goal with |- context [?h ?w1] =>
    match type of w1 with World =>
      assert (frames policy_effect h) as Hh
    end
  end.
  { repeat first [ apply frames_retry_loop, frames_attempt | frames_step | case_match ];
      constructor; set_solver. }
  match goal with |- context [w_trace (?h ?w1).2] => destruct (Hh w1) as (tr & E & _) end.
  exists tr. rewrite E. simpl. rewrite <- app_assoc. reflexivity.
Qed.

(** C2, counterexample.  With a per-step deadline of one second and the
    default retry policy, a first answer that takes five seconds is cut off
    by the deadline; the timeout error is then retried: a [retry] event
    carries it, the backoff is slept and the model is invoked a second
    time, after which the call succeeds. *)
Lemma timeout_is_retried :
  (attempt_at slow deadline_ctx 0 (w_now demo_world)).2 = Throw (Error "Timeout after 1000ms")
  ∧ (callModelTextRaw slow deadline_ctx [] demo_messages demo_state None demo_world).1
    = Normal (answer, false)
  ∧ w_trace (callModelTextRaw slow deadline_ctx [] demo_messages demo_state None demo_world).2
    = [ Request ReqInvoke [] demo_messages;
        Emit (mkEvent "run_a" retry 1700000001000
                [("attempt", JNum 1); ("error", JStr "Timeout after 1000ms")]);
        Sleep 500;
        Request ReqInvoke [] demo_messages;
        Emit (mkEvent "run_a" model_call_end 1700000001600
                [("node", JStr "model.invoke"); ("cached", JBool false)]) ].
Proof. vm_compute. auto. Qed.

(** C2, amended.  An error raised by the timeout wrapper (deadline elapsed
    or signal aborted) during an attempt is handled by the retry loop like
    any other error.  When it is the last allowed failure (the attempt
    count reaches the maximum) it is propagated at once: nothing follows
    the request in the trace.  Otherwise a [retry] event carrying the
    attempt number and its message is emitted, the backoff delay is slept
    and the model is invoked again. *)
Theorem timeout_retry_policy gemini ctx state bound messages fuel a delay w e :
  (attempt_at gemini ctx (w_requests w) (w_now w)).2 = Throw e →
  timeout_error ctx e →
  retry_max_of ctx - a - 1 ≤ Z.of_nat fuel →
  let t := (attempt_at gemini ctx (w_requests w) (w_now w)).1 in
  let run := retry_loop (attempt gemini ctx bound messages) ctx state fuel a delay w in
  (retry_max_of ctx ≤ a + 1 →
     run = (Throw e, set_now t (set_requests (S (w_requests w))
                                  (log [Request ReqInvoke bound messages] w))))
  ∧ (a + 1 < retry_max_of ctx →
     ∃ tr, w_trace run.2
           = w_trace w
             ++ [ Request ReqInvoke bound messages;
                  Emit (mkEvent (runId state) retry t
                          [("attempt", JNum (a + 1)); ("error", JStr (message e))]);
                  Sleep (Z.min delay (retry_maxDelay_of ctx));
                  Request ReqInvoke bound messages ] ++ tr).
Proof.
  intros He _ Hfuel t run. subst run t.
  rewrite retry_loop_eq. unfold try_catch. rewrite attempt_run.
  rewrite (surjective_pairing (attempt_at _ _ _ _)), He. cbn [fst snd]. split.
  - intros Hmax. apply Z.leb_le in Hmax. rewrite Hmax. reflexivity.
  - intros Hmax. destruct (retry_max_of ctx <=? a + 1) eqn:Hle; [apply Z.leb_le in Hle; lia|].
    destruct fuel as [|fuel]; [lia|].
    unfold emit. mrun.
    match goal with |- context [retry_loop _ _ _ fuel ?a' ?d' ?w1] =>
      destruct (retry_loop_head gemini ctx state bound messages fuel a' d' w1) as (tr & E)
    end.
    exists tr. rewrite E. simpl. rewrite <- !app_assoc. reflexivity.
Qed.

Lemma timeout_retry_policy_witness :
  ∃ tr, w_trace (retry_loop (attempt slow deadline_ctx [] demo_messages) deadline_ctx
                   demo_state 3 0 500 demo_world).2
        = w_trace demo_world
          ++ [ Request ReqInvoke [] demo_messages;
               Emit (mkEvent "run_a" retry 1700000001000
                       [("attempt", JNum 1); ("error", JStr "Timeout after 1000ms")]);
               Sleep (Z.min 500 (retry_maxDelay_of deadline_ctx));
               Request ReqInvoke [] demo_messages ] ++ tr.
Proof.
  refine (proj2 (timeout_retry_policy slow deadline_ctx demo_state [] demo_messages 3 0 500
                   demo_world (Error "Timeout after 1000ms") _ _ _) _).
  - reflexivity.
  - right. reflexivity.
  - vm_compute. discriminate.
  - reflexivity.
Defined.

(** ** stableStringify does not depend on the order of the keys *)

Lemma ascii_compare_N a b : Ascii.compare a b = (N_of_ascii a ?= N_of_ascii b)%N.
Proof. reflexivity. Qed.

Lemma string_leb_trans s1 : ∀ s2 s3,
  String.leb s1 s2 = true → String.leb s2 s3 = true → String.leb s1 s3 = true.
Proof.
  unfold String.leb.
  induction s1 as [|a s1 IH]; intros [|b s2] [|c s3]; simpl; try done.
  rewrite !ascii_compare_N.
  destruct (N.compare_spec (N_of_ascii a) (N_of_ascii b)) as [Eab|Lab|Gab];
    destruct (N.compare_spec (N_of_ascii b) (N_of_ascii c)) as [Ebc|Lbc|Gbc];
    destruct (N.compare_spec (N_of_ascii a) (N_of_ascii c)) as [Eac|Lac|Gac];
    try done; try lia; apply IH.
Qed.

Global Instance str_le_trans : Transitive str_le.
Proof. intros x y z. apply string_leb_trans. Qed.

Global Instance str_le_total : Total str_le.
Proof. intros x y. apply String.leb_total. Qed.

Global Instance str_le_antisym : AntiSymm (=) str_le.
Proof. intros x y. apply String.leb_antisym. Qed.

Lemma sorted_keys_perm (ks ks' : list string) :
  ks ≡ₚ ks' → merge_sort str_le ks = merge_sort str_le ks'.
Proof.
  intros Hp. apply (@StronglySorted_unique _ str_le str_le_antisym).
  - apply StronglySorted_merge_sort; apply _.
  - apply StronglySorted_merge_sort; apply _.
  - rewrite !merge_sort_Permutation. exact Hp.
Qed.

Lemma js_get_map (f : JsValue → JsValue) fs k :
  f JUndefined = JUndefined →
  js_get (List.map (λ kv : string * JsValue, let (k, v) := kv in (k, f v)) fs) k
  = f (js_get fs k).
Proof.
  intros Hf. induction fs as [|[k' v] fs IH]; simpl; [done|].
  destruct (String.eqb k' k); [done|exact IH].
Qed.

Lemma js_get_elem fs k : k ∈ fs.*1 → (k, js_get fs k) ∈ fs.
Proof.
  induction fs as [|[k' v] fs IH]; simpl; [by intros ?%elem_of_nil|].
  intros [->|Hin]%elem_of_cons.
  - rewrite String.eqb_refl. apply list_elem_of_here.
  - destruct (String.eqb_spec k' k) as [->|]; [apply list_elem_of_here|].
    apply list_elem_of_further, IH, Hin.
Qed.

Lemma sortKeys_reorder v v' :
  reorder v v' → wf_value v → wf_value v' → sortKeys v = sortKeys v'.
Proof.
  induction 1 as [v|xs ys Hlen Hall IH|fs gs Hperm Hall IH]; intros Hwf Hwf'; [done| |].
  - inversion Hwf as [| | | | |? Hxs|]; subst. inversion Hwf' as [| | | | |? Hys|]; subst.
    simpl. f_equal. apply list_eq. intros i.
    change (List.map sortKeys xs) with (sortKeys <$> xs).
    change (List.map sortKeys ys) with (sortKeys <$> ys).
    rewrite !list_lookup_fmap.
    destruct (xs !! i) as [x|] eqn:Ex, (ys !! i) as [y|] eqn:Ey; simpl.
    + f_equal. eapply IH; eauto using list_elem_of_lookup_2.
    + apply lookup_lt_Some in Ex. apply lookup_ge_None in Ey. lia.
    + apply lookup_lt_Some in Ey. apply lookup_ge_None in Ex. lia.
    + done.
  - inversion Hwf as [| | | | | |? Hnd Hfs]; subst.
    inversion Hwf' as [| | | | | |? Hnd' Hgs]; subst.
    simpl. f_equal.
    change (List.map fst fs) with (fs.*1). change (List.map fst gs) with (gs.*1).
    rewrite (sorted_keys_perm _ _ Hperm).
    apply map_ext_in. intros k Hk. f_equal.
    rewrite !js_get_map by done.
    assert (k ∈ gs.*1) as Hkg.
    { rewrite <- merge_sort_Permutation with (R := str_le). by apply list_elem_of_In. }
    assert (k ∈ fs.*1) as Hkf by (by rewrite Hperm).
    apply IH; [done| |].
    + eapply Hfs, js_get_elem, Hkf.
    + eapply Hgs, js_get_elem, Hkg.
Qed.

Lemma stableStringify_reorder v v' :
  reorder v v' → wf_value v → wf_value v' → stableStringify v = stableStringify v'.
Proof. intros. unfold stableStringify. by rewrite (sortKeys_reorder v v'). Qed.

(** ** The policy-wrapped call on a cache hit *)

Lemma cache_key_components ctx ctx' messages messages' tag tag' :
  default "text" tag' = default "text" tag →
  model (params ctx') = model (params ctx) →
  temperature (params ctx') = temperature (params ctx) →
  List.map (λ m, (_type m, lc_content m, lc_name m)) messages'
  = List.map (λ m, (_type m, lc_content m, lc_name m)) messages →
  cache_key_of ctx' messages' tag' = cache_key_of ctx messages tag.
Proof.
  intros Htag Hmodel Htemp Hmsgs. unfold cache_key_of.
  rewrite Htag, Hmodel, Htemp. do 7 f_equal.
  revert messages' Hmsgs.
  induction messages as [|m ms IH]; intros [|m' ms'] Hmsgs; try done.
  simpl in *. injection Hmsgs as -> -> -> Hrest. f_equal. by apply IH.
Qed.

Lemma SimpleCache_get_normal cfg key w : ∃ o, (SimpleCache_get cfg key w).1 = Normal o.
Proof. unfold SimpleCache_get. repeat case_match; simpl; eauto. Qed.

Lemma callModelTextRaw_hit gemini ctx bound messages state tag w ai :
  (SimpleCache_get (responseCache ctx) (cache_key_of ctx messages tag) w).1 = Normal (Some ai) →
  ∃ c, callModelTextRaw gemini ctx bound messages state tag w
       = (Normal (ai, true),
          mkWorld (w_now w)
            (w_trace w ++ [Emit (mkEvent (runId state) cache_hit (w_now w)
                                   [("key", JStr (cache_key_of ctx messages tag))])])
            c (w_store w) (w_limiters w) (w_requests w)).
Proof.
  intros Hhit. unfold callModelTextRaw. rewrite bind_run.
  destruct (SimpleCache_get_run (responseCache ctx) (cache_key_of ctx messages tag) w) as (c & Ec).
  rewrite Ec, Hhit. unfold emit. mrun. exists c. reflexivity.
Qed.

Lemma stored_after_miss gemini ctx bound messages state tag w ai w1 :
  callModelTextRaw gemini ctx bound messages state tag w = (Normal (ai, false), w1) →
  cache_find (cache_key_of ctx messages tag) (w_responseCache w1)
  = Some (mkEntry (cache_key_of ctx messages tag) ai (w_now w1)).
Proof.
  intros Hcall.
  destruct (SimpleCache_get_normal (responseCache ctx) (cache_key_of ctx messages tag) w)
    as ([ai'|] & Hget).
  - destruct (callModelTextRaw_hit gemini ctx bound messages state tag w ai' Hget) as (c & E).
    rewrite E in Hcall. done.
  - destruct (callModelTextRaw_miss gemini ctx state bound messages tag w Hget)
      as (w0 & rl & _ & _ & _ & E).
    rewrite E in Hcall.
    destruct (retryAsync _ _ _ _) as [[ai2|e|] w2]; try done.
    injection Hcall as -> <-. unfold cache_find. simpl. by rewrite String.eqb_refl.
Qed.

Lemma SimpleCache_get_fresh cfg key w ai t :
  cache_find key (w_responseCache w) = Some (mkEntry key ai t) →
  is_stale cfg (w_now w) (mkEntry key ai t) = false →
  (SimpleCache_get cfg key w).1 = Normal (Some ai).
Proof. intros Hfind Hstale. unfold SimpleCache_get. by rewrite Hfind, Hstale. Qed.

(** ** The text of the cache key *)

Lemma JSON_stringify_arr xs :
  JSON_stringify (JArr xs)
  = Some ("[" +:+ join "," (List.map (λ x, default "null" (JSON_stringify x)) xs) +:+ "]").
Proof.
  change (JSON_stringify (JArr xs))
    with (Some ("[" +:+ join ","
                  ((fix items (l : list JsValue) : list string :=
                      match l with
                      | [] => []
                      | x :: l => default "null" (JSON_stringify x) :: items l
                      end) xs) +:+ "]")).
  reflexivity.
Qed.

Lemma JSON_stringify_obj fs :
  JSON_stringify (JObj fs)
  = Some ("{" +:+ join ","
                    (omap (λ kv : string * JsValue,
                             (λ s, json_quote kv.1 +:+ ":" +:+ s) <$> JSON_stringify kv.2) fs)
              +:+ "}").
Proof.
  change (JSON_stringify (JObj fs))
    with (Some ("{" +:+ join ","
                  ((fix members (l : list (string * JsValue)) : list string :=
                      match l with
                      | [] => []
                      | (k, x) :: l =>
                          match JSON_stringify x with
                          | Some s => (json_quote k +:+ ":" +:+ s) :: members l
                          | None => members l
                          end
                      end) fs) +:+ "}")).
  do 4 f_equal. induction fs as [|[k x] fs IH]; [done|].
  cbn [omap list_omap fst snd]. rewrite <- IH. by destruct (JSON_stringify x).
Qed.

Lemma message_key_text m :
  default "null"
    (JSON_stringify
       (sortKeys (JObj [ ("_type", JStr (_type m)); ("content", JStr (lc_content m));
                         ("name", opt_str (lc_name m)) ])))
  = message_text m.
Proof. unfold message_text. destruct (lc_name m); reflexivity. Qed.

(** The key of a call is the JSON text of its components, keys sorted. *)
Lemma cache_key_text ctx messages tag :
  cache_key_of ctx messages tag
  = key_text (default "text" tag) (model (params ctx)) (temperature (params ctx)) messages.
Proof.
  unfold cache_key_of, makeCacheKey, stableStringify, key_text.
  set (f := λ m : BaseMessage, JObj [ ("_type", JStr (_type m)); ("content", JStr (lc_content m));
                                      ("name", opt_str (lc_name m)) ]).
  assert (∀ t : JsValue,
            (t = JUndefined ∨ ∃ n, t = JNum n) →
            sortKeys (JObj [ ("tag", JStr (default "text" tag)); ("model", JStr (model (params ctx)));
                             ("temperature", t); ("messages", JArr (List.map f messages)) ])
            = JObj [ ("messages", JArr (List.map sortKeys (List.map f messages)));
                     ("model", JStr (model (params ctx)));
                     ("tag", JStr (default "text" tag)); ("temperature", t) ]) as Hsort.
  { intros t [->|[n ->]]; reflexivity. }
  rewrite Hsort by (destruct (temperature (params ctx)); eauto).
  rewrite JSON_stringify_obj. cbn [omap list_omap fst snd].
  rewrite JSON_stringify_arr, !map_map.
  rewrite (map_ext _ message_text) by (intros m; apply message_key_text).
  destruct (temperature (params ctx)); reflexivity.
Qed.

(** C5 (memoization).  The cache key of a policy-wrapped call is the JSON
    text of the object with the members "messages", "model", "tag" and
    "temperature", in this sorted order, the messages given by their type,
    content and name ([key_text]); [makeCacheKey] gives one key to two
    objects that differ only in the order of their keys, at any depth.
    After a policy-wrapped call that went to the model and returned [ai], a
    second call with the same tag, model id, temperature and messages, made
    while that entry is still in the cache and not expired, returns the same
    [ai] marked as cached; its only effect is one [cache:hit] event that
    carries the key: the clock, the limiter and the request counter are
    untouched, so there is no rate-limit wait, no retry, no model invocation
    and no [model:call:end]. *)
Theorem cached_call_bypasses_policy :
  (∀ ctx messages tag,
     cache_key_of ctx messages tag
     = key_text (default "text" tag) (model (params ctx)) (temperature (params ctx)) messages)
  ∧ (∀ parts parts',
       reorder (JObj parts) (JObj parts') → wf_value (JObj parts) → wf_value (JObj parts') →
       makeCacheKey parts = makeCacheKey parts')
  ∧ (∀ gemini ctx bound messages state tag w ai w1,
       callModelTextRaw gemini ctx bound messages state tag w = (Normal (ai, false), w1) →
       ∀ gemini' ctx' bound' messages' state' tag' w2,
         default "text" tag' = default "text" tag →
         model (params ctx') = model (params ctx) →
         temperature (params ctx') = temperature (params ctx) →
         List.map (λ m, (_type m, lc_content m, lc_name m)) messages'
         = List.map (λ m, (_type m, lc_content m, lc_name m)) messages →
         cache_find (cache_key_of ctx messages tag) (w_responseCache w2)
         = cache_find (cache_key_of ctx messages tag) (w_responseCache w1) →
         is_stale (responseCache ctx') (w_now w2)
           (mkEntry (cache_key_of ctx messages tag) ai (w_now w1)) = false →
         ∃ c, callModelTextRaw gemini' ctx' bound' messages' state' tag' w2
              = (Normal (ai, true),
                 mkWorld (w_now w2)
                   (w_trace w2
                    ++ [Emit (mkEvent (runId state') cache_hit (w_now w2)
                                [("key",
                                  JStr (key_text (default "text" tag) (model (params ctx))
                                          (temperature (params ctx)) messages))])])
                   c (w_store w2) (w_limiters w2) (w_requests w2))).
Proof.
  split; [exact cache_key_text|].
  split; [intros parts parts'; apply stableStringify_reorder|].
  intros gemini ctx bound messages state tag w ai w1 Hfirst
         gemini' ctx' bound' messages' state' tag' w2 Htag Hmodel Htemp Hmsgs Hkept Hfresh.
  pose proof (cache_key_components ctx ctx' messages messages' tag tag' Htag Hmodel Htemp Hmsgs)
    as Hkey.
  pose proof (stored_after_miss _ _ _ _ _ _ _ _ _ Hfirst) as Hstored.
  rewrite <- Hkept in Hstored. rewrite <- Hkey in Hstored, Hfresh.
  destruct (callModelTextRaw_hit gemini' ctx' bound' messages' state' tag' w2 ai) as (c & E).
  { eapply SimpleCache_get_fresh; eauto. }
  exists c. rewrite E, Hkey, cache_key_text. reflexivity.
Qed.

Lemma cached_call_bypasses_policy_witness :
  let w1 := (callModelTextRaw steady demo_ctx [] demo_messages demo_state None demo_world).2 in
  ∃ c, callModelTextRaw flaky demo_ctx ["search"] demo_messages demo_state (Some "text") w1
       = (Normal (answer, true),
          mkWorld (w_now w1)
            (w_trace w1
             ++ [Emit (mkEvent "run_a" cache_hit (w_now w1)
                         [("key",
                           JStr (key_text "text" (model (params demo_ctx))
                                   (temperature (params demo_ctx)) demo_messages))])])
            c (w_store w1) (w_limiters w1) (w_requests w1)).
Proof.
  intros w1.
  refine (proj2 (proj2 cached_call_bypasses_policy) steady demo_ctx [] demo_messages demo_state
            None demo_world answer w1 _ flaky demo_ctx ["search"] demo_messages demo_state
            (Some "text") w1 _ _ _ _ _ _); try reflexivity.
Defined.

(** ** The validate node *)



(** ** The rate limiter *)

(** C7, counterexample.  One library instance limited to 60 requests per
    minute.  The context built for a first invocation gets limiter 0; a
    policy-wrapped call under it records [1700000000000] there and returns
    100 ms later.  The context built then for a second invocation gets
    limiter 1, which has no last-call time: a policy-wrapped call under it
    goes to the model at once, 100 ms after the first call, where the same
    call under the first context waits for the 900 ms that are missing.
    And two calls of [run] leave two limiter objects behind, neither of
    which ever recorded a call. *)
Lemma limiter_is_per_run :
  let first := run_context limited_lib None demo_world in
  let ctx1 := match first.1 with Normal ctx => ctx | _ => demo_ctx end in
  let w1 := (callModelTextRaw steady ctx1 [] demo_messages demo_state None first.2).2 in
  let second := run_context limited_lib None w1 in
  let ctx2 := match second.1 with Normal ctx => ctx | _ => demo_ctx end in
  limiter ctx1 = 0%nat
  ∧ limiter ctx2 = 1%nat
  ∧ w_limiters w1 = [Some 1700000000000]
  ∧ w_now w1 = 1700000000100
  ∧ delta_of (callModelTextRaw steady ctx2 [] other_messages demo_state None) second.2
    = [ Request ReqInvoke [] other_messages;
        Emit (mkEvent "run_a" model_call_end 1700000000200
                [("node", JStr "model.invoke"); ("cached", JBool false)]) ]
  ∧ delta_of (callModelTextRaw steady ctx1 [] other_messages demo_state None) second.2
    = [ Emit (mkEvent "run_a" ratelimit_delay 1700000000100 [("waitMs", JNum 900)]);
        Sleep 900;
        Request ReqInvoke [] other_messages;
        Emit (mkEvent "run_a" model_call_end 1700000001100
                [("node", JStr "model.invoke"); ("cached", JBool false)]) ]
  ∧ w_limiters (run steady limited_lib "run_b" (InputText "second") None
                  (run steady limited_lib "run_a" (InputText "first") None demo_world).2).2
    = [None; None].
Proof. vm_compute. repeat split. Qed.

Lemma ceil_div_interval r : 0 < r → 60000 ≤ ceil_div 60000 r * r.
Proof.
  intros Hr. unfold ceil_div.
  pose proof (Z.mul_div_le (Z.opp 60000) r Hr). lia.
Qed.

Lemma ceil_div_range r : 0 < r → 1 ≤ ceil_div 60000 r ≤ 60000.
Proof.
  intros Hr. unfold ceil_div.
  match goal with |- context [?a / r] =>
    assert (- 60000 ≤ a / r) by (apply Z.div_le_lower_bound; lia);
    assert (a / r < 0) by (apply Z.div_lt_upper_bound; lia)
  end.
  lia.
Qed.

(** What the limiter does when it is switched on. *)
Lemma ensureRateLimit_on ctx state w r :
  rateLimit (params ctx) ≫= rl_enabled = Some true →
  rateLimit (params ctx) ≫= rpm = Some r →
  0 < r →
  let lastAt := default 0 (mjoin (w_limiters w !! limiter ctx)) in
  let wait := Z.max 0 (ceil_div 60000 r - (w_now w - lastAt)) in
  ensureRateLimit ctx state w
  = (Normal tt,
     mkWorld (w_now w + if 0 <? wait then timer_delay wait else 0)
       (w_trace w
        ++ (if 0 <? wait
            then [ Emit (mkEvent (runId state) ratelimit_delay (w_now w)
                           [("waitMs", JNum wait)]);
                   Sleep wait ]
            else []))
       (w_responseCache w) (w_store w)
       (<[limiter ctx := Some (w_now w + if 0 <? wait then timer_delay wait else 0)]>
          (w_limiters w))
       (w_requests w)).
Proof.
  intros Hen Hrpm Hr lastAt wait.
  unfold ensureRateLimit. rewrite Hen, Hrpm. cbn [default from_option id negb].
  replace ((r =? 0) || (r <=? 0)) with false
    by (symmetry; apply orb_false_iff; split; [apply Z.eqb_neq|apply Z.leb_gt]; lia).
  unfold emit. mrun. fold lastAt wait.
  destruct (0 <? wait) eqn:Hw; mrun; unfold limiter_record; wnorm.
  - rewrite <- app_assoc. reflexivity.
  - rewrite Z.add_0_r, app_nil_r. reflexivity.
Qed.

(** C7, amended.  The last-call time belongs to the context of one
    invocation: the context [run] and [stream] build gets a limiter object
    of its own, one that did not exist before and has no last-call time, and
    the limiters there were are left as they are.  The limiter of a policy
    call reads and writes the object of its own context only.  When that
    object holds the last-call time [T], not in the future, with rate
    limiting enabled and a positive [rpm], the call is let through no
    earlier than [T + ceil(60000 / rpm)]: the missing time is waited for,
    [ratelimit:delay] being emitted with that duration before the sleep, and
    the instant the call is let through is recorded. *)
Theorem limiter_policy lib options (w0 : World) ctx state (w : World) (r T : Z) :
  rateLimit (params ctx) ≫= rl_enabled = Some true →
  rateLimit (params ctx) ≫= rpm = Some r →
  0 < r →
  w_limiters w !! limiter ctx = Some (Some T) →
  T ≤ w_now w →
  let wait := Z.max 0 (ceil_div 60000 r - (w_now w - T)) in
  (∃ ctx0 w0',
     run_context lib options w0 = (Normal ctx0, w0')
     ∧ w_limiters w0 !! limiter ctx0 = None
     ∧ w_limiters w0' !! limiter ctx0 = Some None
     ∧ ∀ i, i ≠ limiter ctx0 → w_limiters w0' !! i = w_limiters w0 !! i)
  ∧ ensureRateLimit ctx state w
    = (Normal tt,
       mkWorld (w_now w + wait)
         (w_trace w
          ++ (if 0 <? wait
              then [ Emit (mkEvent (runId state) ratelimit_delay (w_now w)
                             [("waitMs", JNum wait)]);
                     Sleep wait ]
              else []))
         (w_responseCache w) (w_store w)
         (<[limiter ctx := Some (w_now w + wait)]> (w_limiters w))
         (w_requests w))
  ∧ (∀ i, i ≠ limiter ctx →
       w_limiters (ensureRateLimit ctx state w).2 !! i = w_limiters w !! i)
  ∧ T + ceil_div 60000 r ≤ w_now w + wait
  ∧ 60000 ≤ ceil_div 60000 r * r.
Proof.
  intros Hen Hrpm Hr HT Hpast wait.
  pose proof (ceil_div_range r Hr) as Hrange.
  pose proof (ensureRateLimit_on ctx state w r Hen Hrpm Hr) as Hon.
  rewrite HT in Hon. cbn [mjoin option_join default from_option id] in Hon. cbn zeta in Hon.
  fold wait in Hon.
  assert ((if 0 <? wait then timer_delay wait else 0) = wait) as Hd.
  { destruct (0 <? wait) eqn:Hw.
    - apply Z.ltb_lt in Hw. unfold timer_delay, TIMEOUT_MAX.
      replace ((1 <=? wait) && (wait <=? 2147483647)) with true; [done|].
      symmetry. apply andb_true_iff. split; apply Z.leb_le; unfold wait in *; lia.
    - apply Z.ltb_ge in Hw. unfold wait in *. lia. }
  rewrite Hd in Hon.
  split; [|split; [exact Hon|split; [|split; [unfold wait; lia|by apply ceil_div_interval]]]].
  - unfold run_context. mrun. eexists _, _. split; [reflexivity|].
    cbn [limiter w_limiters set_limiters]. split; [by apply lookup_ge_None_2|].
    split; [by rewrite lookup_app_r, Nat.sub_diag|].
    intros i Hi. destruct (decide (i < length (w_limiters w0))%nat).
    + by rewrite lookup_app_l.
    + rewrite lookup_ge_None_2 by (rewrite length_app; simpl; lia).
      symmetry. apply lookup_ge_None_2. lia.
  - intros i Hi. rewrite Hon. cbn [snd w_limiters]. by rewrite list_lookup_insert_ne.
Qed.

Lemma limiter_policy_witness :
  let w := mkWorld 1700000000100 [] [] ∅ [Some 1700000000000] 1 in
  ensureRateLimit
    (mkCtx (baseParams limited_lib) [] demo_cache 0 None) demo_state w
  = (Normal tt,
     mkWorld 1700000001000
       [ Emit (mkEvent "run_a" ratelimit_delay 1700000000100 [("waitMs", JNum 900)]);
         Sleep 900 ]
       [] ∅ [Some 1700000001000] 1).
Proof.
  intros w.
  refine (proj1 (proj2 (limiter_policy limited_lib None demo_world
                         (mkCtx (baseParams limited_lib) [] demo_cache 0 None)
                         demo_state w 60 1700000000000
                         eq_refl eq_refl eq_refl eq_refl _))).
  vm_compute. discriminate.
Defined.

(** ** Tool calls *)

Lemma log_nil w : log [] w = w.
Proof. destruct w. unfold log. simpl. by rewrite app_nil_r. Qed.

Lemma set_now_same w : set_now (w_now w) w = w.
Proof. by destruct w. Qed.

Lemma world_unmoved w : set_now (w_now w + 0) (log [] w) = w.
Proof. rewrite log_nil, Z.add_0_r. apply set_now_same. Qed.

Lemma world_moved t1 t2 tr1 tr2 w :
  set_now t2 (log tr2 (set_now t1 (log tr1 w))) = set_now t2 (log (tr1 ++ tr2) w).
Proof. unfold set_now, log. simpl. by rewrite app_assoc. Qed.

Lemma toolMap_snoc tools t :
  toolMap (tools ++ [t])
  = if visible t then <[tool_name t := t]> (toolMap tools) else toolMap tools.
Proof. unfold toolMap. by rewrite foldl_app. Qed.

(** The map [executeToolCalls] builds, read by name. *)
Lemma toolMap_find tools n : toolMap tools !! n = find_tool tools n.
Proof.
  unfold find_tool. induction tools as [|t tools IH] using rev_ind.
  - unfold toolMap. cbn. apply lookup_empty.
  - rewrite toolMap_snoc, List.filter_app, reverse_app. cbn [List.filter].
    destruct (visible t); cbn [andb].
    + destruct (String.eqb (tool_name t) n) eqn:E.
      * apply String.eqb_eq in E. subst n. by rewrite lookup_insert_eq.
      * apply String.eqb_neq in E. rewrite lookup_insert_ne by done. by rewrite IH.
    + by rewrite IH.
Qed.

(** The answer to one call of the batch. *)
Lemma call_run (find : string → option ToolDefinition) call def w :
  find (toolName_of call) = Some def →
  try_catch
    (parsed ← lift (tool_parse def (args_of call));
     _ ← effect (Execute (toolName_of call) parsed);
     result ← await_tool (execute def parsed);
     mret (mkMsg tool (safeJSONStringify result) (Some (toolName_of call)) None))
    (λ e, mret (mkMsg tool (error_payload (message e)) (Some (toolName_of call)) None)) w
  = match tool_answer find call with
    | Some a => (Normal a.2, set_now (w_now w + a.1) (log (option_list (executed find call)) w))
    | None => (OutOfFuel, log (option_list (executed find call)) w)
    end.
Proof.
  intros Hdef. unfold tool_answer, executed. rewrite Hdef.
  unfold try_catch. rewrite bind_run. unfold lift.
  destruct (tool_parse def (args_of call)) as [e|parsed]; cbn [settled].
  - cbn [option_list fst snd]. by rewrite ret_run, world_unmoved.
  - mrun. unfold await_tool.
    destruct (execute def parsed) as [d [e|result]|]; cbn [settled fst snd option_list];
      mrun; reflexivity.
Qed.

(** What a batch of calls does, exactly: the calls are answered one after
    the other until one hangs. *)
Lemma run_calls_run (tm : gmap string ToolDefinition) (find : string → option ToolDefinition)
    calls :
  (∀ n, tm !! n = find n) →
  ∀ outputs w,
    run_calls tm calls outputs w
    = ((if all_settle find calls then Normal (outputs ++ (answers_of find calls).*2)
        else OutOfFuel),
       set_now (w_now w + batch_time (answers_of find calls))
         (log (omap (executed find) (reached find calls)) w)).
Proof.
  intros Hfind.
  induction calls as [|call calls IH]; intros outputs w.
  - cbn. by rewrite app_nil_r, world_unmoved.
  - cbn [run_calls all_settle forallb answers_of reached].
    change (forallb _ calls) with (all_settle find calls).
    rewrite Hfind.
    destruct (find (toolName_of call)) as [def|] eqn:Hdef.
    + rewrite bind_run, (call_run find call def w Hdef).
      destruct (tool_answer find call) as [[d msg]|] eqn:Ha; cbn [fst snd].
      * rewrite IH. cbn [bool_decide decide_rel andb]. rewrite bool_decide_eq_true_2 by eauto.
        cbn [andb fmap list_fmap batch_time foldr fst snd omap list_omap].
        change (list_omap ?f ?l) with (omap f l).
        rewrite world_moved, <- app_assoc. cbn [w_now set_now log].
        rewrite Z.add_assoc.
        destruct (executed find call); reflexivity.
      * rewrite bool_decide_eq_false_2 by (by intros [? ?]).
        cbn [andb batch_time foldr omap list_omap]. rewrite Z.add_0_r.
        by destruct (executed find call), w.
    + assert (tool_answer find call = Some (0, unregistered (toolName_of call))) as Ha.
      { unfold tool_answer. by rewrite Hdef. }
      assert (executed find call = None) as He.
      { unfold executed. by rewrite Hdef. }
      rewrite IH, Ha, bool_decide_eq_true_2 by eauto.
      cbn [andb fmap list_fmap batch_time foldr fst snd omap list_omap]. rewrite He.
      change (list_omap ?f ?l) with (omap f l).
      rewrite <- app_assoc, Z.add_0_l. reflexivity.
Qed.

Lemma executeToolCalls_run ai tools w :
  executeToolCalls ai tools w
  = ((if all_settle (find_tool tools) (tool_calls ai)
      then Normal (answers_of (find_tool tools) (tool_calls ai)).*2 else OutOfFuel),
     set_now (w_now w + batch_time (answers_of (find_tool tools) (tool_calls ai)))
       (log (omap (executed (find_tool tools)) (reached (find_tool tools) (tool_calls ai))) w)).
Proof.
  unfold executeToolCalls. destruct (tool_calls ai) as [|call calls] eqn:E.
  - cbn. by rewrite world_unmoved.
  - apply run_calls_run. apply toolMap_find.
Qed.

Lemma executed_is_execute find calls : Forall is_execute (omap (executed find) calls).
Proof.
  apply Forall_forall. intros x (call & _ & Hx)%list_elem_of_omap.
  unfold executed in Hx. repeat case_match; simplify_eq. exact I.
Qed.

(** [executeToolCalls] does not throw, and all it does is execute tools. *)
Lemma executeToolCalls_spec ai tools w :
  ∃ r t tr,
    executeToolCalls ai tools w = (r, set_now t (log tr w))
    ∧ Forall is_execute tr
    ∧ (r = OutOfFuel ∨ ∃ outs, r = Normal outs ∧ length outs = length (tool_calls ai)).
Proof.
  rewrite executeToolCalls_run. eexists _, _, _. split; [reflexivity|].
  split; [apply executed_is_execute|].
  destruct (all_settle _ _) eqn:Hall; [right|by left].
  eexists. split; [reflexivity|]. rewrite length_fmap.
  clear w. induction (tool_calls ai) as [|call calls IH]; [done|].
  cbn [all_settle forallb] in Hall. apply andb_true_iff in Hall as [H1 H2].
  apply bool_decide_eq_true in H1 as [a Ha]. cbn [answers_of]. rewrite Ha. cbn [length].
  f_equal. by apply IH.
Qed.


Lemma answer_shape (tm : string → option ToolDefinition) call a :
  tool_answer tm call = Some a →
  name a.2 = Some (toolName_of call) ∧ role a.2 = tool ∧ createdAt a.2 = None.
Proof. unfold tool_answer. intros H. repeat case_match; simplify_eq; done. Qed.

Lemma all_settle_cons (tm : string → option ToolDefinition) call calls :
  all_settle tm (call :: calls) = true
  ↔ (∃ a, tool_answer tm call = Some a) ∧ all_settle tm calls = true.
Proof.
  cbn [all_settle forallb]. rewrite andb_true_iff, bool_decide_eq_true. done.
Qed.

(** When no call hangs there is one answer per call, in call order. *)
Lemma answers_all (tm : string → option ToolDefinition) calls :
  all_settle tm calls = true →
  Forall2 (λ call a, tool_answer tm call = Some a) calls (answers_of tm calls)
  ∧ reached tm calls = calls.
Proof.
  induction calls as [|call calls IH]; [by split; [constructor|]|].
  intros [[a Ha] Hall]%all_settle_cons. destruct (IH Hall) as [H1 H2].
  cbn [answers_of reached]. rewrite Ha, H2. split; [by constructor|done].
Qed.

Lemma used_names_answers (tm : string → option ToolDefinition) calls :
  all_settle tm calls = true →
  used_names (answers_of tm calls).*2
  = List.filter (λ s, negb (String.eqb s EmptyString)) (List.map toolName_of calls).
Proof.
  intros [Hall _]%answers_all. unfold used_names. f_equal.
  induction Hall as [|call a calls answers Ha _ IH]; [done|].
  apply answer_shape in Ha as (Hn & _).
  cbn [fmap list_fmap omap list_omap List.map]. rewrite Hn.
  change (list_omap ?f ?l) with (omap f l). change (list_fmap _ _ ?f ?l) with (f <$> l).
  by rewrite IH.
Qed.





(** ** The events of a node *)

Definition closes (n : Node) (state : GraphState) {A} (m : M A) : Prop :=
  ∀ w, ∃ mid tl,
    w_trace (m w).2 = w_trace w ++ mid ++ tl
    ∧ Forall quiet mid
    ∧ exit_tail n state (m w).1 tl.

Lemma closes_bind n state {A B} (m : M A) (f : A → M B) :
  frames quiet m → (∀ a, closes n state (f a)) → closes n state (m ≫= f).
Proof.
  intros Hm Hf w. rewrite bind_run. destruct (Hm w) as (tr & E & F).
  destruct (m w) as [[a|e|] w1]; cbn [fst snd] in *.
  - destruct (Hf a w1) as (mid & tl & E2 & F2 & Hx).
    exists (tr ++ mid), tl. rewrite E2, E, <- !app_assoc.
    split; [done|]. split; [by apply Forall_app|done].
  - exists tr, []. rewrite app_nil_r. done.
  - exists tr, []. rewrite app_nil_r. done.
Qed.

Lemma closes_afterNode n state d {A} (u : A) :
  closes n state (_ ← afterNode (node_name n) state d; mret u).
Proof.
  intros w. unfold afterNode, emit. mrun.
  exists [], [exit_event n state (w_now w) d]. split; [reflexivity|].
  split; [constructor|]. by eexists _, _.
Qed.

Lemma policy_quiet x : policy_effect x → quiet x.
Proof.
  intros [rid k t d Hk | ms | b ms]; try reflexivity.
  repeat (apply elem_of_cons in Hk as [->|Hk]); try reflexivity.
  by apply elem_of_nil in Hk.
Qed.

Lemma quiet_callModelTextRaw gemini ctx bound messages state tag :
  frames quiet (callModelTextRaw gemini ctx bound messages state tag).
Proof. eapply frames_mono; [apply policy_quiet|apply frames_callModelTextRaw]. Qed.

Lemma quiet_executeToolCalls ai tools : frames quiet (executeToolCalls ai tools).
Proof.
  intros w. destruct (executeToolCalls_spec ai tools w) as (r & t & tr & E & Htr & _).
  exists tr. rewrite E. split; [reflexivity|].
  eapply Forall_impl; [exact Htr|]. by intros [].
Qed.

Lemma quiet_invokeWithStructuredOutput gemini bound messages schema :
  frames quiet (invokeWithStructuredOutput gemini bound messages schema).
Proof. unfold invokeWithStructuredOutput. repeat frames_step. reflexivity. Qed.

#[global] Hint Resolve quiet_callModelTextRaw quiet_executeToolCalls
  quiet_invokeWithStructuredOutput : monad.

Ltac closes_tac :=
  repeat first
    [ apply closes_afterNode
    | apply closes_bind;
      [ first [ apply silent_frames; solve [auto with monad]
              | solve [auto with monad]
              | idtac ]
      | intros ] ].

Lemma node_trace gemini n ctx state w :
  ∃ mid tl,
    w_trace (node gemini n ctx state w).2
    = w_trace w ++ enter_event n state (w_now w) :: mid ++ tl
    ∧ Forall quiet mid
    ∧ exit_tail n state (node gemini n ctx state w).1 tl.
Proof.
  assert (∀ (k : M Update), closes n state k →
            node gemini n ctx state
            = (_ ← beforeNode (node_name n) state; k) →
            ∃ mid tl,
              w_trace (node gemini n ctx state w).2
              = w_trace w ++ enter_event n state (w_now w) :: mid ++ tl
              ∧ Forall quiet mid
              ∧ exit_tail n state (node gemini n ctx state w).1 tl) as Hgen.
  { intros k Hk ->. unfold beforeNode, emit. mrun.
    destruct (Hk (log [enter_event n state (w_now w)] w)) as (mid & tl & E & F & Hx).
    exists mid, tl. unfold enter_event in *. rewrite E. wnorm. rewrite <- app_assoc.
    done. }
  destruct n; (eapply Hgen; [|reflexivity]).
  - closes_tac. unfold callModelText. auto with monad.
  - closes_tac.
    + destruct a1; apply silent_frames; auto with monad.
    + unfold callModelText. auto with monad.
  - closes_tac. unfold callModelText. auto with monad.
  - closes_tac. destruct (extractSchemaFromInput _).
    + repeat frames_step. reflexivity.
    + apply silent_frames. auto with monad.
  - closes_tac.
Qed.

(** ** What a node returns *)


Lemma graph_from_S gemini ctx fuel n state w :
  graph_from gemini ctx (S fuel) n state w
  = match node gemini n ctx state w with
    | (Normal u, w1) =>
        match route n (apply_update state u) with
        | None => (Normal (apply_update state u), w1)
        | Some n' => graph_from gemini ctx fuel n' (apply_update state u) w1
        end
    | (Throw e, w1) => (Throw e, w1)
    | (OutOfFuel, w1) => (OutOfFuel, w1)
    end.
Proof.
  cbn [graph_from]. rewrite bind_run.
  destruct (node gemini n ctx state w) as [[u|e|] w1]; try reflexivity.
  destruct (route n (apply_update state u)); reflexivity.
Qed.



(** ** The events of a run of the graph *)

Lemma filter_quiet mid : Forall quiet mid → List.filter node_event mid = [].
Proof.
  induction 1 as [|x mid Hx _ IH]; [done|]. simpl. by rewrite Hx.
Qed.

Lemma exit_tail_cases {A} n state (r : Completion A) tl :
  exit_tail n state r tl →
  omap act_entry tl = [] ∧ omap entered tl = []
  ∧ ((∃ a t d, r = Normal a ∧ tl = [exit_event n state t d])
     ∨ ((∀ a, r ≠ Normal a) ∧ tl = [])).
Proof.
  destruct r as [a|e|]; simpl.
  - intros (t & d & ->). repeat split; try done. left. by eexists _, _, _.
  - intros ->. repeat split; try done. by right.
  - intros ->. repeat split; try done. by right.
Qed.


(** A run of the compiled graph from a node: its node events are the enter
    and the exit of one phase after the other, the last phase being left
    open when it failed. *)
Lemma graph_from_phases gemini ctx fuel : ∀ n state w,
  ∃ tr,
    w_trace (graph_from gemini ctx fuel n state w).2 = w_trace w ++ tr
    ∧ phases (List.filter node_event tr).
Proof.
  induction fuel as [|fuel IH]; intros n state w.
  - exists []. rewrite app_nil_r. split; [done|constructor].
  - rewrite graph_from_S.
    destruct (node_trace gemini n ctx state w) as (mid & tl & Etr & Hmid & Htl).
    apply exit_tail_cases in Htl as (_ & _ & Htl).
    assert (List.filter node_event (enter_event n state (w_now w) :: mid ++ tl)
            = enter_event n state (w_now w) :: tl) as Hfil.
    { cbn [List.filter]. change (node_event (enter_event n state (w_now w))) with true.
      cbn iota. rewrite List.filter_app, filter_quiet by done.
      destruct Htl as [(a & t & d & _ & ->)|[_ ->]]; reflexivity. }
    destruct (node gemini n ctx state w) as [[u|e|] w1] eqn:En; cbn [fst snd] in *.
    + destruct Htl as [(a & t & d & _ & ->)|[Hno _]]; [|by destruct (Hno u)].
      destruct (route n (apply_update state u)) as [n'|] eqn:Hroute.
      * destruct (IH n' (apply_update state u) w1) as (tr & E & Hph).
        exists ((enter_event n state (w_now w) :: mid ++ [exit_event n state t d]) ++ tr).
        split; [by rewrite E, Etr, <- app_assoc|].
        rewrite List.filter_app, Hfil. by constructor.
      * exists (enter_event n state (w_now w) :: mid ++ [exit_event n state t d]).
        split; [done|]. rewrite Hfil. repeat constructor.
    + destruct Htl as [(a & t & d & [=] & _)|[_ ->]].
      exists (enter_event n state (w_now w) :: mid ++ []).
      split; [done|]. rewrite Hfil. constructor.
    + destruct Htl as [(a & t & d & [=] & _)|[_ ->]].
      exists (enter_event n state (w_now w) :: mid ++ []).
      split; [done|]. rewrite Hfil. constructor.
Qed.

Lemma delta_of_app {A} (m : M A) w tr :
  w_trace (m w).2 = w_trace w ++ tr → delta_of m w = tr.
Proof. intros E. unfold delta_of. rewrite E. apply drop_app_length. Qed.

(** ** The construction of the graph *)

Lemma buildReasoningGraph_throws gemini ctx :
  buildReasoningGraph gemini ctx = inl (channel_clash "plan").
Proof. reflexivity. Qed.

(** What [run] does, whatever it is given. *)
Lemma run_rejected gemini lib rid inp options w :
  run gemini lib rid inp options w
  = (Throw (channel_clash "plan"),
     log [Emit (mkEvent rid run_start (w_now w)
                  [("model", JStr (model (mergeParams (baseParams lib) (options ≫= overrides))));
                   ("maxSteps", JNum (default (defaultMaxSteps lib) (options ≫= opt_maxSteps)))])]
       (set_limiters (w_limiters w ++ [None]) w)).
Proof.
  unfold run, run_context, run_with, emit. mrun.
  rewrite buildReasoningGraph_throws. reflexivity.
Qed.


(** C9, counterexample.  The plan node run against a model that rejects
    every request: the retries are used up, the error leaves the node, and
    the only node event in the trace is the [node:enter] of plan; no
    [node:exit] follows it. *)
Lemma exit_missing_on_failure :
  (node broken Plan demo_ctx demo_state demo_world).1
  = Throw (Error "503 Service Unavailable")
  ∧ List.filter node_event (w_trace (node broken Plan demo_ctx demo_state demo_world).2)
    = [enter_event Plan demo_state 1700000000000].
Proof. vm_compute. auto. Qed.

(** C9, amended.  Every phase emits [node:enter] before doing its work and,
    when its work succeeds, [node:exit] after it; when the work throws, no
    [node:exit] is emitted and nothing follows in the node.  In between, the
    node emits no node event.  In a run of the graph the node events are, in
    execution order, the enter and then the exit of one phase after the
    other, the last phase being left without exit when it failed. *)
Theorem node_events_bracketed gemini ctx :
  (∀ n state w,
     ∃ mid tl,
       w_trace (node gemini n ctx state w).2
       = w_trace w ++ enter_event n state (w_now w) :: mid ++ tl
       ∧ Forall quiet mid
       ∧ exit_tail n state (node gemini n ctx state w).1 tl)
  ∧ (∀ initialState w,
       phases (List.filter node_event (delta_of (graph_invoke gemini ctx initialState) w))).
Proof.
  split; [intros; apply node_trace|].
  intros initialState w. unfold graph_invoke.
  destruct (graph_from_phases gemini ctx recursionLimit Plan initialState w)
    as (tr & E & Hph).
  by rewrite (delta_of_app _ _ _ E).
Qed.

(** ** The result of run *)

(** C6 (result of run).  [run] has no result: whatever the input (text, or
    a task with a schema), the options, the model and the tools, it rejects
    with the error of the graph construction, so neither text nor object nor
    meta is ever returned. *)
Theorem run_gives_no_result gemini lib rid inp options w :
  (∀ res w', run gemini lib rid inp options w ≠ (Normal res, w'))
  ∧ (run gemini lib rid (InputText "hello") options w).1
    = Throw (Error ("plan is already being used as a state attribute (a.k.a. a channel), "
                    +:+ "cannot also be used as a node name."))
  ∧ (run gemini lib rid schema_input options w).1
    = (run gemini lib rid (InputText "hello") options w).1.
Proof.
  rewrite !run_rejected. split; [|split]; [|reflexivity|reflexivity].
  by intros res w'.
Qed.

(** ** stream *)

Lemma string_app_assoc (a b c : string) : (a +:+ b) +:+ c = a +:+ (b +:+ c).
Proof.
  induction a as [|x a IH]; [done|].
  change (String x ((a +:+ b) +:+ c) = String x (a +:+ (b +:+ c))). by rewrite IH.
Qed.

Lemma string_app_nil_r (a : string) : a +:+ EmptyString = a.
Proof.
  induction a as [|x a IH]; [done|].
  change (String x (a +:+ EmptyString) = String x a). by rewrite IH.
Qed.

(** The loop yields the increments that arrive before the abort and returns
    their concatenation, unless the model stream fails at its end. *)
Lemma consume_spec sig fin chunks : ∀ acc w,
  let ds := before_abort sig (arrivals (w_now w) chunks) in
  ∃ t r,
    consume sig chunks fin acc w
    = (r, set_now t (log (List.map (λ d, Yield (delta_chunk d)) ds) w))
    ∧ (r = Normal (acc +:+ concat_all ds) ∨ ∃ e, fin = Some e ∧ r = Throw e).
Proof.
  induction chunks as [|[d s] chunks IH]; intros acc w; cbn zeta.
  - exists (w_now w). cbn [consume arrivals before_abort List.map concat_all foldr].
    rewrite string_app_nil_r. destruct fin as [e|].
    + exists (Throw e). rewrite log_nil. split; [by destruct w|]. right. by exists e.
    + exists (Normal acc). rewrite log_nil. split; [by destruct w|]. by left.
  - cbn [consume arrivals]. mrun. destruct (String.eqb s EmptyString) eqn:Hs.
    + destruct (IH acc (set_now (w_now w + d) w)) as (t & r & E & Hr).
      exists t, r. rewrite E. split; [reflexivity|exact Hr].
    + mrun. cbn [before_abort]. destruct (aborted sig (w_now w + d)) eqn:Hab.
      * exists (w_now w + d), (Normal acc).
        cbn [List.map concat_all foldr]. rewrite string_app_nil_r, log_nil.
        split; [reflexivity|by left].
      * mrun.
        destruct (IH (acc +:+ s) (log [Yield (delta_chunk s)] (set_now (w_now w + d) w)))
          as (t & r & E & Hr).
        exists t, r. unfold delta_chunk in *. rewrite E. split.
        -- cbn [w_now log set_now List.map]. unfold set_now, log. simpl.
           by rewrite <- app_assoc.
        -- cbn [w_now log set_now concat_all foldr] in *.
           rewrite string_app_assoc in Hr. exact Hr.
Qed.

Lemma yielded_deltas ds :
  yielded (List.map (λ d, Yield (delta_chunk d)) ds) = List.map delta_chunk ds.
Proof.
  induction ds as [|d ds IH]; [done|].
  change (delta_chunk d :: yielded (List.map (λ d, Yield (delta_chunk d)) ds)
          = delta_chunk d :: List.map delta_chunk ds).
  by rewrite IH.
Qed.

Lemma yielded_execute tr : Forall is_execute tr → yielded tr = [].
Proof.
  induction 1 as [|x tr Hx _ IH]; [done|]. by destruct x.
Qed.

Lemma slice_last_snoc {A} (n : nat) (l : list A) (x : A) :
  (0 < n)%nat → ∃ pre, slice_last n (l ++ [x]) = pre ++ [x].
Proof.
  intros Hn. unfold slice_last. rewrite length_app. simpl.
  exists (drop (length l + 1 - n) l). rewrite drop_app_le by lia. done.
Qed.

Lemma append_if_any rid (ms : list MemoryMessage) w :
  ∃ st, (match ms with [] => mret () | _ :: _ => append rid ms end) w
        = (Normal (), set_store st w).
Proof.
  destruct ms as [|m ms].
  - exists (w_store w). by destruct w.
  - unfold append. by eexists.
Qed.

Lemma kept_last (l : list MemoryMessage) m :
  ∃ pre, (if bool_decide (maxKeep < length (l ++ [m]))%nat
          then slice_last maxKeep (l ++ [m]) else l ++ [m]) = pre ++ [m].
Proof.
  case_bool_decide.
  - apply slice_last_snoc. unfold maxKeep. lia.
  - by eexists.
Qed.

Lemma yielded_app a b : yielded (a ++ b) = yielded a ++ yielded b.
Proof. apply omap_app. Qed.

Lemma before_abort_kept sig l i t s :
  l !! i = Some (t, s) → (i < length (before_abort sig l))%nat →
  aborted sig t = false ∧ before_abort sig l !! i = Some s.
Proof.
  revert i. induction l as [|[t' s'] l IH]; intros i Hi Hlen; [done|].
  cbn [before_abort] in *. destruct (aborted sig t') eqn:Hab; [simpl in Hlen; lia|].
  destruct i as [|i]; cbn in *.
  - by injection Hi as -> ->.
  - apply IH; [done|lia].
Qed.

Lemma before_abort_stop sig l :
  (length (before_abort sig l) < length l)%nat →
  ∃ t s, l !! length (before_abort sig l) = Some (t, s) ∧ aborted sig t = true.
Proof.
  induction l as [|[t' s'] l IH]; [simpl; lia|].
  cbn [before_abort]. destruct (aborted sig t') eqn:Hab.
  - intros _. by exists t', s'.
  - cbn. intros Hlen. apply IH. lia.
Qed.

(** C10 (end of stream).  A [stream] that completes without throwing has
    yielded the delta chunks followed by one chunk whose event is "end" and
    which carries the meta (model id, elapsed time, step count); nothing
    else is yielded.  With a schema in the input there is no delta.  Without
    one, the increments of the model stream (the third request of the
    stream) arrive one after the other from the instant the request is
    sent, which is when the plan, the tool decision and the tools have been
    awaited; the deltas are the non-empty increments up to the first one
    that finds the signal aborted when it arrives: each delta yielded
    arrived before the abort, the first increment that is not yielded
    arrived after it, and nothing is yielded from then on.  The
    concatenation of the deltas is the assistant message appended last to
    the history of the run, abort or not. *)
Theorem stream_ends_once gemini lib rid inp options w w' :
  stream gemini lib rid inp options w = (Normal tt, w') →
  ∃ deltas m,
    yielded (delta_of (stream gemini lib rid inp options) w)
    = List.map delta_chunk deltas ++ [end_chunk m]
    ∧ meta_model m = model (mergeParams (baseParams lib) (options ≫= overrides))
    ∧ durationMs m = w_now w' - w_now w
    ∧ steps m = Z.min (default (defaultMaxSteps lib) (options ≫= opt_maxSteps))
                      (match extractSchemaFromInput inp with Some _ => 3 | None => 4 end)
    ∧ match extractSchemaFromInput inp with
      | Some _ => deltas = []
      | None =>
          ∃ planAI aiDecide pre t,
            (on_invoke gemini (w_requests w)).2 = inr planAI
            ∧ (on_invoke gemini (S (w_requests w))).2 = inr aiDecide
            ∧ let sig := options ≫= opt_signal in
              let t0 := w_now w + (on_invoke gemini (w_requests w)).1
                        + (on_invoke gemini (S (w_requests w))).1
                        + batch_time (answers_of (find_tool (lib_tools lib))
                                        (tool_calls aiDecide)) in
              let arriving := arrivals t0 (on_stream gemini (S (S (w_requests w)))).1 in
              deltas = before_abort sig arriving
              ∧ (∀ i t s, arriving !! i = Some (t, s) → (i < length deltas)%nat →
                   aborted sig t = false ∧ deltas !! i = Some s)
              ∧ ((length deltas < length arriving)%nat →
                   ∃ t s, arriving !! length deltas = Some (t, s) ∧ aborted sig t = true)
              ∧ w_store w' !! rid
                = Some (pre ++ [mkMsg assistant (concat_all deltas) None (Some t)])
      end.
Proof.
  intros Hrun. unfold delta_of. rewrite Hrun. cbn [snd]. revert Hrun.
  unfold stream, run_context, invokeText, emit. mrun.
  destruct (on_invoke gemini (w_requests w)) as [d1 [e1|planAI]] eqn:E1;
    mrun; cbn [settled]; mrun; [done|].
  match goal with |- context [on_invoke gemini ?n] =>
    destruct (on_invoke gemini n) as [d2 [e2|aiDecide]] eqn:E2
  end; mrun; cbn [settled]; mrun; [done|].
  rewrite executeToolCalls_run.
  destruct (all_settle (find_tool (lib_tools lib)) (tool_calls aiDecide)) eqn:Hall; mrun; [|done].
  set (answers := answers_of (find_tool (lib_tools lib)) (tool_calls aiDecide)).
  set (tr := omap (executed (find_tool (lib_tools lib))) _).
  assert (Forall is_execute tr) as Htr by apply executed_is_execute.
  match goal with |- context [(match ?outs with [] => _ | _ :: _ => _ end) ?wx] =>
    destruct (append_if_any rid outs wx) as (st & E); rewrite E; clear E
  end.
  destruct (extractSchemaFromInput inp) as [schema|].
  - unfold invokeWithStructuredOutput, request. mrun.
    match goal with |- context [on_structured gemini ?n] =>
      destruct (on_structured gemini n) as [d3 [e3|obj]]
    end; mrun; cbn [settled]; mrun; [done|].
    unfold collected. mrun.
    intros [= <-]. eexists [], _. split; [|split; [|split; [|split]]]; [| | | |done].
    + mrun. rewrite <- !app_assoc, drop_app_length.
      rewrite !yielded_app, (yielded_execute tr Htr). reflexivity.
    + reflexivity.
    + mrun. reflexivity.
    + reflexivity.
  - unfold request. mrun.
    match goal with |- context [consume ?sig ?ch ?fin ?acc ?wx] =>
      pose proof (consume_spec sig fin ch acc wx) as Hc
    end.
    cbn zeta in Hc. mrun. cbn [w_now set_now log w_requests set_requests] in Hc.
    set (arriving := arrivals _ _) in Hc.
    set (ds := before_abort _ _) in Hc.
    destruct Hc as (t & r & E & Hr). rewrite E. clear E.
    destruct Hr as [->|(e & _ & ->)]; mrun; [|done].
    unfold collected. mrun.
    cbn [List.map].
    match goal with |- context [bool_decide (_ < length (?l ++ [?m]))%nat] =>
      destruct (kept_last l m) as (pre & Hpre)
    end.
    intros [= <-]. exists ds. eexists. split; [|split; [|split; [|split]]].
    + mrun. rewrite <- !app_assoc, drop_app_length.
      rewrite !yielded_app, (yielded_execute tr Htr), yielded_deltas. reflexivity.
    + reflexivity.
    + mrun. reflexivity.
    + reflexivity.
    + exists planAI, aiDecide, pre. eexists. split; [done|]. split; [done|]. cbn zeta.
      cbn [fst]. fold answers. fold arriving. fold ds.
      split; [reflexivity|]. split; [intros i t1 s; apply before_abort_kept|].
      split; [apply before_abort_stop|].
      mrun. rewrite lookup_insert_eq, Hpre. reflexivity.
Qed.

Lemma stream_ends_once_witness :
  let r := stream steady demo_lib "run_a" (InputText "hello") abort_mid demo_world in
  ∃ deltas m,
    yielded (delta_of (stream steady demo_lib "run_a" (InputText "hello") abort_mid)
               demo_world)
    = List.map delta_chunk deltas ++ [end_chunk m]
    ∧ meta_model m = model (mergeParams (baseParams demo_lib) (abort_mid ≫= overrides))
    ∧ durationMs m = w_now r.2 - w_now demo_world
    ∧ steps m = Z.min (default (defaultMaxSteps demo_lib) (abort_mid ≫= opt_maxSteps))
                      (match extractSchemaFromInput (InputText "hello") with
                       | Some _ => 3 | None => 4 end)
    ∧ match extractSchemaFromInput (InputText "hello") with
      | Some _ => deltas = []
      | None =>
          ∃ planAI aiDecide pre t,
            (on_invoke steady (w_requests demo_world)).2 = inr planAI
            ∧ (on_invoke steady (S (w_requests demo_world))).2 = inr aiDecide
            ∧ let sig := abort_mid ≫= opt_signal in
              let t0 := w_now demo_world + (on_invoke steady (w_requests demo_world)).1
                        + (on_invoke steady (S (w_requests demo_world))).1
                        + batch_time (answers_of (find_tool (lib_tools demo_lib))
                                        (tool_calls aiDecide)) in
              let arriving := arrivals t0 (on_stream steady (S (S (w_requests demo_world)))).1 in
              deltas = before_abort sig arriving
              ∧ (∀ i t s, arriving !! i = Some (t, s) → (i < length deltas)%nat →
                   aborted sig t = false ∧ deltas !! i = Some s)
              ∧ ((length deltas < length arriving)%nat →
                   ∃ t s, arriving !! length deltas = Some (t, s) ∧ aborted sig t = true)
              ∧ w_store r.2 !! "run_a"
                = Some (pre ++ [mkMsg assistant (concat_all deltas) None (Some t)])
      end.
Proof.
  intros r.
  apply (stream_ends_once steady demo_lib "run_a" (InputText "hello") abort_mid demo_world r.2).
  vm_compute. reflexivity.
Defined.

(** * Further properties of the code *)

(** ** withTimeout *)

(** X1 (transparent wrapper).  [withTimeout] changes nothing when the signal
    is not aborted on entry and the promise settles before the timer fires,
    if there is one ([ms] undefined or 0 sets none; a timer set for more
    than [2^31 - 1] ms fires after 1 ms), and before the abort, if there is
    one: the wrapper settles as the promise does, value or error, at the
    same instant.  Without deadline and without a signal that is ever
    aborted it is the promise itself, which may never settle. *)
Theorem withTimeout_transparent {A} (p : Promise A) ms sig w :
  aborted sig (w_now w) = false →
  (∀ m, ms = Some m → m = 0 ∨ (p.2 ≠ OutOfFuel ∧ p.1 < timer_delay m)) →
  (∀ a, sig ≫= abortAt = Some a → p.2 ≠ OutOfFuel ∧ w_now w + p.1 < a) →
  withTimeout p ms sig w = await p w.
Proof.
  intros Hnow Hms Hsig. unfold withTimeout, await, race. rewrite Hnow.
  destruct (negb _ && negb _); [done|].
  set (settles := match p.2 with OutOfFuel => false | _ => true end).
  destruct (sig ≫= abortAt) as [a|] eqn:Ea.
  - destruct (Hsig a eq_refl) as [Hp Ha].
    assert (settles = true) as -> by (subst settles; by destruct (p.2)).
    simpl. replace (w_now w + p.1 <=? a) with true by (symmetry; apply Z.leb_le; lia).
    destruct ms as [m|]; simpl; [|done].
    destruct (Hms m eq_refl) as [->|[_ Hm]]; [done|].
    destruct (m =? 0); simpl; [done|].
    replace (w_now w + p.1 <=? w_now w + timer_delay m) with true; [done|].
    symmetry. apply Z.leb_le. lia.
  - destruct ms as [m|]; simpl; [|by destruct settles].
    destruct (Hms m eq_refl) as [->|[Hp Hm]]; [by destruct settles|].
    assert (settles = true) as -> by (subst settles; by destruct (p.2)).
    destruct (m =? 0); simpl; [done|].
    replace (w_now w + p.1 <=? w_now w + timer_delay m) with true; [done|].
    symmetry. apply Z.leb_le. lia.
Qed.

Lemma withTimeout_transparent_witness :
  withTimeout (100, Normal answer) (Some 1000) (Some (mkSignal (Some 1700000005000))) demo_world
  = await (100, Normal answer) demo_world.
Proof.
  apply withTimeout_transparent.
  - reflexivity.
  - intros m [= <-]. right. split; [discriminate|]. vm_compute. reflexivity.
  - intros a [= <-]. split; [discriminate|]. vm_compute. reflexivity.
Defined.



(** X3 (abort).  A signal aborted at [a] makes [withTimeout] reject with
    the error "Aborted": at once and whatever the promise and the deadline
    when the signal is already aborted on entry, otherwise at [a] when the
    promise has not settled by then (or never settles) and the timer, if
    any, fires later. *)
Theorem withTimeout_abort {A} (p : Promise A) ms (a : Z) w :
  (a ≤ w_now w
   ∨ ((p.2 = OutOfFuel ∨ a < w_now w + p.1)
      ∧ ∀ m, ms = Some m → m = 0 ∨ a < w_now w + timer_delay m)) →
  withTimeout p ms (Some (mkSignal (Some a))) w
  = (Throw (Error "Aborted"), set_now (Z.max (w_now w) a) w).
Proof.
  intros H. unfold withTimeout, race. simpl. rewrite andb_false_r.
  destruct (Z.leb_spec a (w_now w)) as [Ha|Ha].
  - simpl. by replace (Z.max (w_now w) a) with (w_now w) by lia.
  - destruct H as [H|[Hp Hms]]; [lia|].
    replace (Z.max (w_now w) a) with a by lia.
    replace (match p.2 with OutOfFuel => false | _ => true end && (w_now w + p.1 <=? a))
      with false; cycle 1.
    { symmetry. destruct Hp as [->|Hp]; [done|].
      replace (w_now w + p.1 <=? a) with false by (symmetry; apply Z.leb_gt; lia).
      apply andb_false_r. }
    simpl. destruct ms as [m|]; simpl; [|done].
    destruct (Hms m eq_refl) as [->|Hm]; [done|].
    destruct (m =? 0); simpl; [done|].
    replace (a <=? w_now w + timer_delay m) with true by (symmetry; apply Z.leb_le; lia). done.
Qed.

Lemma withTimeout_abort_witness :
  withTimeout (5000, Normal answer) (Some 1000) (Some (mkSignal (Some 1700000000215))) demo_world
  = (Throw (Error "Aborted"), set_now (Z.max (w_now demo_world) 1700000000215) demo_world).
Proof.
  apply withTimeout_abort. right. split.
  - right. vm_compute. reflexivity.
  - intros m [= <-]. right. vm_compute. reflexivity.
Defined.

(** ** sortKeys *)

Lemma js_get_keyed (g : string → JsValue) ks k :
  k ∈ ks → js_get (List.map (λ k, (k, g k)) ks) k = g k.
Proof.
  induction ks as [|k' ks IH]; [by intros ?%elem_of_nil|].
  intros Hk. simpl. destruct (String.eqb_spec k' k) as [->|Hne]; [done|].
  apply IH. apply elem_of_cons in Hk as [->|Hk]; done.
Qed.

Lemma merge_sort_sorted (ks : list string) :
  StronglySorted str_le ks → merge_sort str_le ks = ks.
Proof.
  intros Hs. apply (@StronglySorted_unique _ str_le str_le_antisym).
  - apply StronglySorted_merge_sort; apply _.
  - exact Hs.
  - apply merge_sort_Permutation.
Qed.

(** X4 (normal form).  [sortKeys] is idempotent on well-formed values:
    sorting the keys of an already sorted value changes nothing, at any
    depth, so [stableStringify] of a value and of its sorted form agree. *)
Theorem sortKeys_idempotent v :
  wf_value v →
  sortKeys (sortKeys v) = sortKeys v
  ∧ stableStringify (sortKeys v) = stableStringify v.
Proof.
  intros Hwf. assert (sortKeys (sortKeys v) = sortKeys v) as E.
  { induction Hwf as [| | | | |xs Hxs IH|fs Hnd Hfs IH]; try done.
    - simpl. f_equal. rewrite map_map. apply map_ext_in. intros x Hx.
      apply IH. by apply list_elem_of_In.
    - cbn [sortKeys].
      set (sorted := List.map (λ kv : string * JsValue, let (k, v) := kv in (k, sortKeys v)) fs).
      set (ks := merge_sort str_le (List.map fst fs)).
      assert (List.map fst (List.map (λ k, (k, js_get sorted k)) ks) = ks) as Hkeys.
      { rewrite map_map. apply map_id. }
      rewrite Hkeys.
      rewrite (merge_sort_sorted ks) by (apply StronglySorted_merge_sort; apply _).
      f_equal. apply map_ext_in. intros k Hk. f_equal.
      rewrite js_get_map by done.
      rewrite (js_get_keyed (js_get sorted)) by (by apply list_elem_of_In).
      unfold sorted. rewrite js_get_map by done.
      assert (k ∈ fs.*1) as Hkf.
      { apply list_elem_of_In in Hk. unfold ks in Hk.
        by rewrite merge_sort_Permutation in Hk. }
      eapply IH, js_get_elem, Hkf. }
  split; [exact E|]. unfold stableStringify. by rewrite E.
Qed.

Lemma sortKeys_idempotent_witness :
  sortKeys (sortKeys unsorted_object) = sortKeys unsorted_object
  ∧ stableStringify (sortKeys unsorted_object) = stableStringify unsorted_object.
Proof.
  apply sortKeys_idempotent. unfold unsorted_object.
  apply wf_obj.
  - apply NoDup_cons. split; [by intros [=]%list_elem_of_singleton|].
    apply NoDup_singleton.
  - intros k v Hin. apply elem_of_cons in Hin as [[= -> ->]|Hin]; [apply wf_num|].
    apply list_elem_of_singleton in Hin as [= -> ->].
    apply wf_arr. intros x ->%list_elem_of_singleton. apply wf_obj.
    + apply NoDup_cons. split; [by intros [=]%list_elem_of_singleton|].
      apply NoDup_singleton.
    + intros k v Hin. apply elem_of_cons in Hin as [[= -> ->]|Hin]; [apply wf_null|].
      apply list_elem_of_singleton in Hin as [= -> ->]. apply wf_bool.
Defined.

(** ** SimpleCache *)

Lemma cache_find_remove key es : cache_find key (cache_remove key es) = None.
Proof.
  unfold cache_find, cache_remove. induction es as [|e es IH]; [done|].
  simpl. destruct (String.eqb (entry_key e) key) eqn:E; simpl; [done|]. by rewrite E.
Qed.

Lemma cache_find_remove_ne key key' es :
  key ≠ key' → cache_find key' (cache_remove key es) = cache_find key' es.
Proof.
  intros Hne. unfold cache_find, cache_remove. induction es as [|e es IH]; [done|].
  simpl. destruct (String.eqb (entry_key e) key) eqn:E; simpl.
  - apply String.eqb_eq in E. destruct (String.eqb (entry_key e) key') eqn:E'; [|done].
    apply String.eqb_eq in E'. congruence.
  - by rewrite IH.
Qed.

(** X5 (lifetime of an entry).  A value stored with [set] is what [get]
    returns for its key as long as no more than the time-to-live has elapsed
    since the [set] (always, when the time-to-live is 0), and [undefined]
    afterwards.  Reading the entry does not prolong its life: a later [get]
    is answered by the same rule, counted from the [set]. *)
Theorem cache_entry_lifetime cfg key value w d1 d2 :
  d1 ≤ d2 →
  let fresh d := (cache_ttl cfg =? 0) || (d <=? cache_ttl cfg) in
  let first := SimpleCache_get cfg key
                 (set_now (w_now w + d1) (SimpleCache_set cfg key value w).2) in
  first.1 = Normal (if fresh d1 then Some value else None)
  ∧ (SimpleCache_get cfg key (set_now (w_now w + d2) first.2)).1
    = Normal (if fresh d2 then Some value else None).
Proof.
  intros Hd fresh first. subst fresh first.
  unfold SimpleCache_get at 1 3, SimpleCache_set.
  cbn [snd w_responseCache set_now set_responseCache w_now].
  unfold cache_find at 1 2. cbn [find entry_key]. rewrite String.eqb_refl.
  unfold is_stale. cbn [entry_start entry_value].
  replace (w_now w + d1 - w_now w) with d1 by lia.
  destruct (cache_ttl cfg =? 0) eqn:Ettl; cbn [negb andb orb fst snd].
  - split; [done|]. unfold SimpleCache_get.
    cbn [w_responseCache set_now set_responseCache w_now].
    unfold cache_find. cbn [find entry_key]. rewrite String.eqb_refl.
    unfold is_stale. rewrite Ettl. done.
  - destruct (Z.ltb_spec (cache_ttl cfg) d1) as [H1|H1].
    + replace (d1 <=? cache_ttl cfg) with false by (symmetry; apply Z.leb_gt; lia).
      replace (d2 <=? cache_ttl cfg) with false by (symmetry; apply Z.leb_gt; lia).
      split; [done|]. unfold SimpleCache_get.
      cbn [snd w_responseCache set_now set_responseCache w_now].
      by rewrite cache_find_remove.
    + replace (d1 <=? cache_ttl cfg) with true by (symmetry; apply Z.leb_le; lia).
      split; [done|]. unfold SimpleCache_get.
      cbn [snd w_responseCache set_now set_responseCache w_now].
      unfold cache_find. cbn [find entry_key]. rewrite String.eqb_refl.
      unfold is_stale. rewrite Ettl. cbn [entry_start entry_value negb andb].
      replace (w_now w + d2 - w_now w) with d2 by lia.
      destruct (Z.leb_spec d2 (cache_ttl cfg)), (Z.ltb_spec (cache_ttl cfg) d2);
        try lia; done.
Qed.

Lemma cache_entry_lifetime_witness :
  (SimpleCache_get demo_cache "k"
     (set_now (w_now demo_world + 1000) (SimpleCache_set demo_cache "k" answer demo_world).2)).1
  = Normal (if (cache_ttl demo_cache =? 0) || (1000 <=? cache_ttl demo_cache)
            then Some answer else None)
  ∧ (SimpleCache_get demo_cache "k"
       (set_now (w_now demo_world + 70000)
          (SimpleCache_get demo_cache "k"
             (set_now (w_now demo_world + 1000)
                (SimpleCache_set demo_cache "k" answer demo_world).2)).2)).1
    = Normal (if (cache_ttl demo_cache =? 0) || (70000 <=? cache_ttl demo_cache)
              then Some answer else None).
Proof. apply (cache_entry_lifetime demo_cache "k" answer demo_world 1000 70000). lia. Defined.

(** X6 (delete and clear).  After [delete(key)] the key is gone: [has]
    answers false and [get] undefined, while [has] for any other key answers
    as before; after [clear()] no key is left. *)
Theorem cache_delete_forgets cfg key key' w :
  key ≠ key' →
  (SimpleCache_has cfg key (SimpleCache_delete key w).2).1 = Normal false
  ∧ (SimpleCache_get cfg key (SimpleCache_delete key w).2).1 = Normal None
  ∧ (SimpleCache_has cfg key' (SimpleCache_delete key w).2).1 = (SimpleCache_has cfg key' w).1
  ∧ (SimpleCache_has cfg key' (SimpleCache_clear w).2).1 = Normal false
  ∧ (SimpleCache_get cfg key' (SimpleCache_clear w).2).1 = Normal None.
Proof.
  intros Hne. unfold SimpleCache_has, SimpleCache_get, SimpleCache_delete, SimpleCache_clear.
  cbn [fst snd w_responseCache set_responseCache w_now].
  rewrite cache_find_remove, cache_find_remove_ne by done. done.
Qed.

Lemma cache_delete_forgets_witness :
  let w := (SimpleCache_set demo_cache "k2" answer
              (SimpleCache_set demo_cache "k1" answer demo_world).2).2 in
  (SimpleCache_has demo_cache "k1" (SimpleCache_delete "k1" w).2).1 = Normal false
  ∧ (SimpleCache_get demo_cache "k1" (SimpleCache_delete "k1" w).2).1 = Normal None
  ∧ (SimpleCache_has demo_cache "k2" (SimpleCache_delete "k1" w).2).1
    = (SimpleCache_has demo_cache "k2" w).1
  ∧ (SimpleCache_has demo_cache "k2" (SimpleCache_clear w).2).1 = Normal false
  ∧ (SimpleCache_get demo_cache "k2" (SimpleCache_clear w).2).1 = Normal None.
Proof. intros w. apply cache_delete_forgets. discriminate. Defined.

(** ** InMemoryMemory *)

Lemma slice_last_length {A} (n : nat) (l : list A) : (length (slice_last n l) ≤ n)%nat.
Proof. unfold slice_last. rewrite length_drop. lia. Qed.

Lemma slice_last_short {A} (n : nat) (l : list A) : (length l ≤ n)%nat → slice_last n l = l.
Proof. intros H. unfold slice_last. replace (length l - n)%nat with 0%nat by lia. done. Qed.

(** X7 (bounded history).  After [append] the history stored for the run
    is the last 200 messages of what was stored followed by the new
    messages, each new message stamped with the current time unless it
    carries a creation time of its own; it never holds more than 200
    messages, and [getHistory] returns exactly it. *)
Theorem append_keeps_recent rid messages w :
  let arr := default [] (w_store w !! rid) ++ List.map (stamp (w_now w)) messages in
  let w' := (append rid messages w).2 in
  w_store w' !! rid = Some (slice_last maxKeep arr)
  ∧ (length (slice_last maxKeep arr) ≤ maxKeep)%nat
  ∧ slice_last maxKeep arr `suffix_of` arr
  ∧ getHistory rid w' = (Normal (slice_last maxKeep arr), w')
  ∧ List.map createdAt (List.map (stamp (w_now w)) messages)
    = List.map (λ m, Some (default (w_now w) (createdAt m))) messages.
Proof.
  intros arr w'. subst w'. unfold append. fold arr. cbn [snd].
  assert (w_store (set_store (<[rid:=if bool_decide (maxKeep < length arr)%nat
                                     then slice_last maxKeep arr else arr]> (w_store w)) w)
            !! rid
          = Some (slice_last maxKeep arr)) as E.
  { cbn [w_store set_store]. rewrite lookup_insert_eq. case_bool_decide; [done|].
    rewrite slice_last_short; [done|lia]. }
  split; [exact E|]. split; [apply slice_last_length|].
  split; [apply suffix_drop|]. split.
  - unfold getHistory. rewrite E. cbn [default from_option id].
    rewrite (slice_last_short maxKeep (slice_last maxKeep arr)); [done|].
    apply slice_last_length.
  - rewrite map_map. done.
Qed.

(** X8 (runs apart).  Appending to, or clearing, the history of one run
    leaves the history of every other run as it was; after [clear] the
    history of the run itself is empty. *)
Theorem memory_runs_isolated rid rid' messages w :
  rid ≠ rid' →
  (getHistory rid' (append rid messages w).2).1 = (getHistory rid' w).1
  ∧ (getHistory rid' (InMemoryMemory_clear rid w).2).1 = (getHistory rid' w).1
  ∧ (getHistory rid (InMemoryMemory_clear rid w).2).1 = Normal [].
Proof.
  intros Hne. unfold getHistory, append, InMemoryMemory_clear. cbn [fst snd w_store set_store].
  rewrite lookup_insert_ne by done. rewrite lookup_delete_ne by done.
  rewrite lookup_delete_eq. done.
Qed.

Lemma memory_runs_isolated_witness :
  let w := (append "run_b" [mkMsg user "earlier" None None] demo_world).2 in
  (getHistory "run_b" (append "run_a" [mkMsg user "hello" None None] w).2).1
  = (getHistory "run_b" w).1
  ∧ (getHistory "run_b" (InMemoryMemory_clear "run_a" w).2).1 = (getHistory "run_b" w).1
  ∧ (getHistory "run_a" (InMemoryMemory_clear "run_a" w).2).1 = Normal [].
Proof. intros w. apply memory_runs_isolated. discriminate. Defined.

(** ** The tools *)

(** X9 (bound and callable).  The tool names bound to the model are exactly
    the names [executeToolCalls] finds in its map: a tool that is disabled
    or hidden is neither announced to the model nor executed when called. *)
Theorem bound_tools_are_callable tools n :
  n ∈ buildLCTools tools ↔ is_Some (toolMap tools !! n).
Proof.
  unfold buildLCTools.
  induction tools as [|t tools IH] using rev_ind.
  - cbn. rewrite elem_of_nil. split; [done|]. unfold toolMap. cbn.
    rewrite lookup_empty. by intros [? ?].
  - rewrite toolMap_snoc, List.filter_app, List.map_app, elem_of_app, IH. cbn [List.filter].
    destruct (visible t); cbn [List.map].
    + destruct (decide (tool_name t = n)) as [<-|Hne].
      * rewrite lookup_insert_eq. split; [by eexists|]. intros _. right. apply list_elem_of_here.
      * rewrite lookup_insert_ne by done. rewrite elem_of_cons, elem_of_nil.
        intuition congruence.
    + rewrite elem_of_nil. tauto.
Qed.

(** X10 (same name twice).  Of several enabled, visible tools that carry
    the same name, the one registered last is the one a call reaches. *)
Theorem last_registration_wins tools n :
  toolMap tools !! n
  = head (reverse (List.filter (λ t, visible t && String.eqb (tool_name t) n) tools)).
Proof. apply toolMap_find. Qed.

Lemma find_tool_elem tools n def : find_tool tools n = Some def → def ∈ tools.
Proof.
  unfold find_tool. intros H%head_Some_elem_of. rewrite elem_of_reverse in H.
  apply list_elem_of_In, filter_In in H as [H _]. by apply list_elem_of_In.
Qed.

Lemma settling_all tools calls : settling tools → all_settle (find_tool tools) calls = true.
Proof.
  intros Hs. unfold all_settle. apply forallb_forall. intros call _.
  apply bool_decide_eq_true. unfold tool_answer.
  destruct (find_tool tools (toolName_of call)) as [def|] eqn:Hdef; [|by eexists].
  destruct (tool_parse def (args_of call)) as [e|parsed]; [by eexists|].
  pose proof (Hs def parsed (find_tool_elem _ _ _ Hdef)) as Hh.
  destruct (execute def parsed) as [d [e|result]|]; [by eexists|by eexists|done].
Qed.

(** What a batch of tools that settle comes to. *)
Lemma executeToolCalls_settling ai tools w :
  settling tools →
  let find := find_tool tools in
  Forall2 (λ call a, tool_answer find call = Some a) (tool_calls ai)
    (answers_of find (tool_calls ai))
  ∧ executeToolCalls ai tools w
    = (Normal (answers_of find (tool_calls ai)).*2,
       set_now (w_now w + batch_time (answers_of find (tool_calls ai)))
         (log (omap (executed find) (tool_calls ai)) w)).
Proof.
  intros Hs find. pose proof (settling_all tools (tool_calls ai) Hs) as Hall.
  destruct (answers_all find (tool_calls ai) Hall) as [Hans Hreached].
  split; [exact Hans|]. rewrite executeToolCalls_run. subst find. by rewrite Hall, Hreached.
Qed.



(** X12 (a tool that answers).  When the tool found for a call accepts the
    arguments of the call (the empty object when the call has none, or
    [null]) and returns a result that [JSON.stringify] maps to a string, the
    message for that call carries that string, under the name of the tool,
    and the tool was executed on the parsed arguments. *)
Theorem tool_result_serialised ai tools w i call def parsed d result text :
  tool_calls ai !! i = Some call →
  find_tool tools (toolName_of call) = Some def →
  tool_parse def (args_of call) = inr parsed →
  execute def parsed = Settles d (inr result) →
  JSON_stringify result = Some text →
  settling tools →
  ∃ outs w',
    executeToolCalls ai tools w = (Normal outs, w')
    ∧ outs !! i = Some (mkMsg tool text (Some (toolName_of call)) None)
    ∧ Execute (toolName_of call) parsed ∈ delta_of (executeToolCalls ai tools) w.
Proof.
  intros Hi Hdef Hp He Htext Hs.
  destruct (executeToolCalls_settling ai tools w Hs) as [Hans Hrun].
  unfold delta_of. rewrite Hrun. eexists _, _. split; [reflexivity|]. split.
  - destruct (Forall2_lookup_l _ _ _ _ _ Hans Hi) as (a & Ha & Hanswer).
    rewrite list_lookup_fmap, Ha. cbn. f_equal.
    unfold tool_answer in Hanswer. rewrite Hdef, Hp, He in Hanswer.
    injection Hanswer as <-. cbn. unfold safeJSONStringify. by rewrite Htext.
  - cbn [snd w_trace set_now log]. rewrite drop_app_length.
    apply list_elem_of_omap. exists call. split; [by eapply list_elem_of_lookup_2|].
    unfold executed. by rewrite Hdef, Hp.
Qed.

Lemma tool_result_serialised_witness :
  ∃ outs w',
    executeToolCalls tool_batch [echo_tool; fetch_tool] demo_world = (Normal outs, w')
    ∧ outs !! 2%nat = Some (mkMsg tool "{}" (Some (toolName_of null_call)) None)
    ∧ Execute (toolName_of null_call) (JObj [])
        ∈ delta_of (executeToolCalls tool_batch [echo_tool; fetch_tool]) demo_world.
Proof.
  apply (tool_result_serialised tool_batch [echo_tool; fetch_tool] demo_world 2 null_call
           echo_tool (JObj []) 5 (JObj []) "{}").
  - reflexivity.
  - reflexivity.
  - reflexivity.
  - reflexivity.
  - reflexivity.
  - intros t v Ht.
    apply elem_of_cons in Ht as [->|Ht]; [done|].
    apply list_elem_of_singleton in Ht as ->. done.
Defined.



(** ** The execution policy *)

(** X14 (limiter switched off).  Unless rate limiting is enabled and [rpm]
    is a positive number, [ensureRateLimit] does nothing at all: no event,
    no sleep, and the limiter's last-call time is left as it was. *)
Theorem ensureRateLimit_off ctx state w :
  (rateLimit (params ctx) ≫= rl_enabled ≠ Some true
   ∨ ∀ r, rateLimit (params ctx) ≫= rpm = Some r → r ≤ 0) →
  ensureRateLimit ctx state w = (Normal tt, w).
Proof.
  intros H. unfold ensureRateLimit.
  destruct (rateLimit (params ctx) ≫= rl_enabled) as [[|]|]; cbn [default from_option id negb];
    try done.
  destruct H as [H|H]; [done|].
  destruct (rateLimit (params ctx) ≫= rpm) as [r|]; [|done].
  specialize (H r eq_refl).
  destruct (r =? 0) eqn:E0; [done|]. cbn [orb].
  replace (r <=? 0) with true by (symmetry; apply Z.leb_le; lia). done.
Qed.

Lemma ensureRateLimit_off_witness :
  ensureRateLimit demo_ctx demo_state demo_world = (Normal tt, demo_world).
Proof. apply ensureRateLimit_off. left. discriminate. Defined.

(** X15 (first call of a run).  With rate limiting on, the first policy
    call that reaches a limiter without last-call time is let through at
    once (the missing time counts as 0 and the clock is past the interval):
    no [ratelimit:delay] event, no sleep; the current instant is recorded. *)
Theorem first_call_not_delayed ctx state w r :
  rateLimit (params ctx) ≫= rl_enabled = Some true →
  rateLimit (params ctx) ≫= rpm = Some r →
  0 < r →
  w_limiters w !! limiter ctx = Some None →
  ceil_div 60000 r ≤ w_now w →
  ensureRateLimit ctx state w
  = (Normal tt, set_limiters (<[limiter ctx := Some (w_now w)]> (w_limiters w)) w).
Proof.
  intros Hen Hrpm Hr Hfresh Hclock. unfold ensureRateLimit. rewrite Hen, Hrpm.
  cbn [default from_option id negb].
  replace ((r =? 0) || (r <=? 0)) with false
    by (symmetry; apply orb_false_iff; split; [apply Z.eqb_neq|apply Z.leb_gt]; lia).
  mrun. rewrite Hfresh. cbn [mjoin option_join default from_option id].
  replace (0 <? Z.max 0 (ceil_div 60000 r - (w_now w - 0))) with false
    by (symmetry; apply Z.ltb_ge; lia).
  mrun. done.
Qed.

Lemma first_call_not_delayed_witness :
  ensureRateLimit limited_ctx demo_state (set_limiters [None] demo_world)
  = (Normal tt,
     set_limiters (<[limiter limited_ctx := Some (w_now (set_limiters [None] demo_world))]>
                     (w_limiters (set_limiters [None] demo_world)))
       (set_limiters [None] demo_world)).
Proof.
  apply (first_call_not_delayed limited_ctx demo_state (set_limiters [None] demo_world) 60).
  - reflexivity.
  - reflexivity.
  - lia.
  - reflexivity.
  - vm_compute. discriminate.
Defined.

(** X16 (no retry).  With a maximum attempt count of 1 or less (0 and
    negative numbers included) [retryAsync] is the wrapped call itself: one
    attempt, whose result or error comes out as it is, with no [retry]
    event and no sleep. *)
Theorem retry_disabled {T} (fn : M T) ctx state w :
  retry_max_of ctx ≤ 1 →
  retryAsync fn ctx state w = fn w.
Proof.
  intros Hmax. unfold retryAsync.
  destruct (Z.to_nat (retry_max_of ctx)); cbn [retry_loop]; unfold try_catch;
    destruct (fn w) as [[a|e|] w1]; try done;
    (replace (retry_max_of ctx <=? 0 + 1) with true by (symmetry; apply Z.leb_le; lia)); done.
Qed.

Lemma retry_disabled_witness :
  retryAsync (attempt broken once_ctx [] demo_messages) once_ctx demo_state demo_world
  = attempt broken once_ctx [] demo_messages demo_world.
Proof. apply retry_disabled. vm_compute. discriminate. Defined.

Lemma slept_app a b : slept (a ++ b) = slept a + slept b.
Proof.
  induction a as [|x a IH]; [done|]. cbn [app slept foldr]. fold (slept (a ++ b)) (slept a).
  rewrite IH. destruct x; lia.
Qed.

Lemma attempt_trace gemini ctx bound messages w :
  w_trace (attempt gemini ctx bound messages w).2
  = w_trace w ++ [Request ReqInvoke bound messages].
Proof. unfold attempt, invokeText, withTimeout. mrun. done. Qed.

Lemma retry_loop_slept gemini ctx state bound messages fuel : ∀ a delay w,
  ∃ tr,
    w_trace (retry_loop (attempt gemini ctx bound messages) ctx state fuel a delay w).2
    = w_trace w ++ tr
    ∧ 0 ≤ slept tr ≤ Z.max 0 (retry_max_of ctx - a - 1) * Z.max 0 (retry_maxDelay_of ctx)
    ∧ 1 ≤ Z.of_nat (length (List.filter is_request tr)) ≤ Z.max 1 (retry_max_of ctx - a).
Proof.
  induction fuel as [|fuel IH]; intros a delay w.
  - cbn [retry_loop]. unfold try_catch.
    pose proof (attempt_trace gemini ctx bound messages w) as Ht.
    destruct (attempt gemini ctx bound messages w) as [[ai|e|] w1]; cbn [snd] in *;
      try (eexists; split; [exact Ht|]; cbn; split; nia).
    destruct (retry_max_of ctx <=? a + 1) eqn:Hmax.
    + apply Z.leb_le in Hmax. eexists; split; [exact Ht|]; cbn; split; nia.
    + unfold emit. mrun. rewrite Ht, <- !app_assoc. eexists. split; [reflexivity|].
      apply Z.leb_gt in Hmax. cbn. split; nia.
  - cbn [retry_loop]. unfold try_catch.
    pose proof (attempt_trace gemini ctx bound messages w) as Ht.
    destruct (attempt gemini ctx bound messages w) as [[ai|e|] w1]; cbn [snd] in *;
      try (eexists; split; [exact Ht|]; cbn; split; nia).
    destruct (retry_max_of ctx <=? a + 1) eqn:Hmax.
    + apply Z.leb_le in Hmax. eexists; split; [exact Ht|]; cbn; split; nia.
    + unfold emit. mrun.
      match goal with |- context [retry_loop _ _ _ fuel ?a' ?d' ?wx] =>
        destruct (IH a' d' wx) as (tr & E & Hs & Hn)
      end.
      rewrite E. mrun. rewrite Ht, <- !app_assoc. eexists. split; [reflexivity|].
      apply Z.leb_gt in Hmax. split.
      * rewrite !slept_app. cbn [slept foldr]. nia.
      * rewrite !List.filter_app, !length_app. cbn [List.filter is_request length]. nia.
Qed.

(** X17 (what retrying can cost).  Whatever the model does, the retry loop
    around a model call sends at least one and at most [max] requests (one
    when [max] is below 1) and sleeps, all backoff delays together, no
    longer than [max - 1] times the maximum delay. *)
Theorem retries_bounded gemini ctx bound messages state w :
  let tr := delta_of (retryAsync (attempt gemini ctx bound messages) ctx state) w in
  1 ≤ Z.of_nat (length (List.filter is_request tr)) ≤ Z.max 1 (retry_max_of ctx)
  ∧ 0 ≤ slept tr ≤ Z.max 0 (retry_max_of ctx - 1) * Z.max 0 (retry_maxDelay_of ctx).
Proof.
  intros tr. subst tr. unfold delta_of, retryAsync.
  destruct (retry_loop_slept gemini ctx state bound messages (Z.to_nat (retry_max_of ctx))
              0 (retry_initial_of ctx) w) as (tr & E & Hs & Hn).
  rewrite E, drop_app_length.
  replace (retry_max_of ctx - 1) with (retry_max_of ctx - 0 - 1) by lia.
  replace (retry_max_of ctx) with (retry_max_of ctx - 0) at 1 by lia.
  done.
Qed.

(** [keeps_cache m]: [m] leaves the response cache as it is. *)
Definition keeps_cache {A} (m : M A) : Prop :=
  ∀ w, w_responseCache (m w).2 = w_responseCache w.

Lemma keeps_cache_bind {A B} (m : M A) (f : A → M B) :
  keeps_cache m → (∀ a, keeps_cache (f a)) → keeps_cache (m ≫= f).
Proof.
  intros Hm Hf w. rewrite bind_run. specialize (Hm w).
  destruct (m w) as [[a|e|] w1]; simpl in *; try done. by rewrite Hf.
Qed.

Lemma keeps_cache_try_catch {A} (m : M A) (h : JsError → M A) :
  keeps_cache m → (∀ e, keeps_cache (h e)) → keeps_cache (try_catch m h).
Proof.
  intros Hm Hh w. unfold try_catch. specialize (Hm w).
  destruct (m w) as [[a|e|] w1]; simpl in *; try done. by rewrite Hh.
Qed.

Ltac keeps_step :=
  first [ apply keeps_cache_bind; [|intros]
        | apply keeps_cache_try_catch; [|intros]
        | (intros ?w; reflexivity) ].

Lemma keeps_cache_ensureRateLimit ctx state : keeps_cache (ensureRateLimit ctx state).
Proof. unfold ensureRateLimit, emit. repeat first [ keeps_step | case_match ]. Qed.

Lemma keeps_cache_attempt gemini ctx bound messages :
  keeps_cache (attempt gemini ctx bound messages).
Proof. unfold attempt, invokeText. repeat keeps_step. Qed.

Lemma keeps_cache_retry_loop {T} (fn : M T) ctx state fuel : ∀ attempt delay,
  keeps_cache fn → keeps_cache (retry_loop fn ctx state fuel attempt delay).
Proof.
  induction fuel as [|fuel IH]; intros attempt delay Hfn; simpl; unfold emit;
    repeat first [ done | keeps_step | case_match ]; by apply IH.
Qed.

(** X18 (errors are not cached).  When a policy-wrapped call throws, the
    response cache holds no entry under the key of the call afterwards, and
    the entries under all other keys are the ones it held before. *)
Theorem failure_not_cached gemini ctx bound messages state tag w e w' :
  callModelTextRaw gemini ctx bound messages state tag w = (Throw e, w') →
  cache_find (cache_key_of ctx messages tag) (w_responseCache w') = None
  ∧ ∀ key, key ≠ cache_key_of ctx messages tag →
      cache_find key (w_responseCache w') = cache_find key (w_responseCache w).
Proof.
  unfold callModelTextRaw. rewrite bind_run.
  set (key := cache_key_of ctx messages tag).
  assert (∀ w0 : World,
            (_ ← ensureRateLimit ctx state;
             ai ← retryAsync (attempt gemini ctx bound messages) ctx state;
             _ ← SimpleCache_set (responseCache ctx) key ai;
             _ ← emit (runId state) model_call_end
                   [("node", JStr "model.invoke"); ("cached", JBool false)];
             mret (ai, false)) w0 = (Throw e, w') →
            w_responseCache w' = w_responseCache w0) as Hrest.
  { intros w0. rewrite bind_run.
    pose proof (keeps_cache_ensureRateLimit ctx state w0) as H1.
    destruct (ensureRateLimit ctx state w0) as [[[]|e1|] w1]; cbn [snd] in H1.
    - rewrite bind_run.
      pose proof (keeps_cache_retry_loop (attempt gemini ctx bound messages) ctx state
                    (Z.to_nat (retry_max_of ctx)) 0 (retry_initial_of ctx)
                    (keeps_cache_attempt gemini ctx bound messages) w1) as H2.
      fold (retryAsync (attempt gemini ctx bound messages) ctx state) in H2.
      destruct (retryAsync _ _ _ w1) as [[ai|e2|] w2]; cbn [snd] in H2.
      + unfold emit. mrun. done.
      + intros [= _ <-]. congruence.
      + done.
    - intros [= _ <-]. done.
    - done. }
  unfold SimpleCache_get.
  destruct (cache_find key (w_responseCache w)) as [hit|] eqn:Hfind.
  - destruct (is_stale _ _ hit).
    + intros ->%Hrest. cbn [w_responseCache set_responseCache].
      split; [apply cache_find_remove|]. intros k Hk. by apply cache_find_remove_ne.
    + unfold emit. mrun. done.
  - intros ->%Hrest. done.
Qed.

Lemma failure_not_cached_witness :
  let w' := (callModelTextRaw broken demo_ctx [] demo_messages demo_state None demo_world).2 in
  cache_find (cache_key_of demo_ctx demo_messages None) (w_responseCache w') = None
  ∧ ∀ key, key ≠ cache_key_of demo_ctx demo_messages None →
      cache_find key (w_responseCache w') = cache_find key (w_responseCache demo_world).
Proof.
  intros w'.
  apply (failure_not_cached broken demo_ctx [] demo_messages demo_state None demo_world
           (Error "503 Service Unavailable") w').
  vm_compute. reflexivity.
Defined.

(** ** run *)


(** ** stream *)

Lemma body_deltas ds : Forall body_effect (List.map (λ d, Yield (delta_chunk d)) ds).
Proof. induction ds; by constructor. Qed.

Lemma body_execute tr : Forall is_execute tr → Forall body_effect tr.
Proof. intros H. eapply Forall_impl; [exact H|]. by intros []. Qed.

Ltac body_tac :=
  repeat first [ apply Forall_app; split
               | apply Forall_cons; split
               | apply Forall_nil
               | exact I
               | reflexivity
               | by apply body_execute
               | apply body_deltas ].

(** X22 (stream outside the policy).  [stream] talks to the model directly:
    after [run:start] it emits no event and sleeps nowhere (no retry, no
    rate-limit wait, no cache event, no node event), sends at most three
    requests and leaves the response cache untouched.  What it does in
    between is requests, tool executions and delta chunks.  A stream that
    completes ends with the [run:end] event followed by the end chunk, both
    carrying the same meta; a stream that throws, be it at the first failed
    request, emits no [run:end] and yields no end chunk. *)
Theorem stream_brackets gemini lib rid inp options w :
  let params := mergeParams (baseParams lib) (options ≫= overrides) in
  let maxSteps := default (defaultMaxSteps lib) (options ≫= opt_maxSteps) in
  let r := stream gemini lib rid inp options w in
  ∃ mid tl,
    delta_of (stream gemini lib rid inp options) w
    = Emit (mkEvent rid run_start (w_now w)
              [("model", JStr (model params)); ("maxSteps", JNum maxSteps)]) :: mid ++ tl
    ∧ Forall body_effect mid
    ∧ stream_tail rid r.1 tl
    ∧ w_responseCache r.2 = w_responseCache w
    ∧ (w_requests r.2 ≤ w_requests w + 3)%nat.
Proof.
  intros params maxSteps r. subst r. unfold delta_of.
  unfold stream, run_context, invokeText, emit. mrun. fold params maxSteps.
  destruct (on_invoke gemini (w_requests w)) as [d1 [e1|planAI]];
    mrun; cbn [settled]; mrun.
  { eexists [_], []. rewrite <- !app_assoc, drop_app_length, !app_nil_r.
    split; [cbn [app]; reflexivity|].
    split; [body_tac|]. split; [done|]. split; [done|lia]. }
  match goal with |- context [on_invoke gemini ?n] =>
    destruct (on_invoke gemini n) as [d2 [e2|aiDecide]]
  end; mrun; cbn [settled]; mrun.
  { eexists [_; _], []. rewrite <- !app_assoc, drop_app_length, !app_nil_r.
    split; [cbn [app]; reflexivity|].
    split; [body_tac|]. split; [done|]. split; [done|lia]. }
  match goal with |- context [executeToolCalls ?a ?t ?wx] =>
    destruct (executeToolCalls_spec a t wx) as (rt & tt & tr & E & Htr & Hrt); rewrite E
  end.
  clear E. destruct Hrt as [->|(outs & -> & _)]; mrun.
  { eexists ([_; _] ++ tr), []. rewrite <- !app_assoc, drop_app_length, !app_nil_r.
    split; [cbn [app]; reflexivity|].
    split; [body_tac|]. split; [done|]. split; [done|lia]. }
  match goal with |- context [(match outs with [] => _ | _ :: _ => _ end) ?wx] =>
    destruct (append_if_any rid outs wx) as (st & E); rewrite E; clear E
  end.
  destruct (extractSchemaFromInput inp) as [schema|].
  - unfold invokeWithStructuredOutput, request. mrun.
    match goal with |- context [on_structured gemini ?n] =>
      destruct (on_structured gemini n) as [d3 [e3|obj]]
    end; mrun; cbn [settled]; mrun.
    + eexists ([_; _] ++ tr ++ [_]), []. rewrite <- !app_assoc, drop_app_length, !app_nil_r.
      split; [cbn [app]; reflexivity|].
      split; [body_tac|].
      split; [done|]. split; [done|lia].
    + unfold collected. mrun.
      eexists ([_; _] ++ tr ++ [_]), [_; _]. rewrite <- !app_assoc, drop_app_length.
      split; [cbn [app]; reflexivity|].
      split; [body_tac|].
      split; [|split; [done|lia]].
      match goal with
      | |- stream_tail _ _ [Emit (mkEvent _ _ ?t _); Yield (mkChunk _ _ (Some ?m))] =>
          exists t, m; reflexivity
      end.
  - unfold request. mrun.
    match goal with |- context [consume ?sig ?ch ?fin ?acc ?wx] =>
      pose proof (consume_spec sig fin ch acc wx) as Hc
    end.
    cbn zeta in Hc. set (ds := before_abort _ _) in Hc.
    destruct Hc as (t & r & E & Hr). rewrite E. clear E.
    destruct Hr as [->|(e & _ & ->)]; mrun.
    + unfold collected. mrun.
      eexists ([_; _] ++ tr ++ [_] ++ List.map (λ d, Yield (delta_chunk d)) ds), [_; _].
      rewrite <- !app_assoc, drop_app_length.
      split; [cbn [app]; reflexivity|].
      split; [body_tac|].
      split; [|split; [done|lia]].
      match goal with
      | |- stream_tail _ _ [Emit (mkEvent _ _ ?t _); Yield (mkChunk _ _ (Some ?m))] =>
          exists t, m; reflexivity
      end.
    + eexists ([_; _] ++ tr ++ [_] ++ List.map (λ d, Yield (delta_chunk d)) ds), [].
      rewrite <- !app_assoc, drop_app_length, !app_nil_r.
      split; [cbn [app]; reflexivity|].
      split; [body_tac|].
      split; [done|]. split; [done|lia].
Qed.

Lemma emitted_app a b : emitted (a ++ b) = emitted a ++ emitted b.
Proof. apply omap_app. Qed.

(** X23 (the meta of a stream).  The meta of the end chunk of a completed
    [stream] lists as used tools the non-empty names of all the tool calls
    of the decision, in call order and with repetitions (they are not
    deduplicated, and unregistered or failing tools are listed as well);
    its cache-hit flag is false; its events, when they are collected, are
    all the events of the stream, the [run:end] event included. *)
Theorem stream_meta gemini lib rid inp options w w' :
  stream gemini lib rid inp options w = (Normal tt, w') →
  ∃ m aiDecide,
    Yield (end_chunk m) ∈ delta_of (stream gemini lib rid inp options) w
    ∧ (on_invoke gemini (S (w_requests w))).2 = inr aiDecide
    ∧ meta_usedTools m
      = List.filter (λ s, negb (String.eqb s EmptyString))
          (List.map toolName_of (tool_calls aiDecide))
    ∧ meta_cacheHit m = false
    ∧ meta_events m
      = if collectEvents lib
        then Some (emitted (delta_of (stream gemini lib rid inp options) w))
        else None.
Proof.
  intros Hrun. unfold delta_of. rewrite Hrun. cbn [snd]. revert Hrun.
  unfold stream, run_context, invokeText, emit. mrun.
  destruct (on_invoke gemini (w_requests w)) as [d1 [e1|planAI]];
    mrun; cbn [settled]; mrun; [done|].
  match goal with |- context [on_invoke gemini ?n] =>
    destruct (on_invoke gemini n) as [d2 [e2|aiDecide]]
  end; mrun; cbn [settled]; mrun; [done|].
  rewrite executeToolCalls_run.
  destruct (all_settle (find_tool (lib_tools lib)) (tool_calls aiDecide)) eqn:Hall; mrun; [|done].
  pose proof (used_names_answers _ _ Hall) as Hnames.
  set (outs := (answers_of (find_tool (lib_tools lib)) (tool_calls aiDecide)).*2) in *.
  set (tr := omap (executed (find_tool (lib_tools lib)))
               (reached (find_tool (lib_tools lib)) (tool_calls aiDecide))).
  match goal with |- context [(match outs with [] => _ | _ :: _ => _ end) ?wx] =>
    destruct (append_if_any rid outs wx) as (st & E); rewrite E; clear E
  end.
  destruct (extractSchemaFromInput inp) as [schema|].
  - unfold invokeWithStructuredOutput, request. mrun.
    match goal with |- context [on_structured gemini ?n] =>
      destruct (on_structured gemini n) as [d3 [e3|obj]]
    end; mrun; cbn [settled]; mrun; [done|].
    unfold collected. mrun. intros [= <-]. mrun.
    eexists _, aiDecide. rewrite <- !app_assoc, !drop_app_length.
    split; [apply list_elem_of_In, in_or_app; right;
            apply in_or_app; right; apply in_or_app; right; apply in_or_app; right;
            apply in_or_app; right; apply in_or_app; right; left; reflexivity|].
    split; [done|]. split; [exact Hnames|]. split; [done|].
    cbn [meta_events]. destruct (collectEvents lib); [|done]. f_equal.
    rewrite !app_assoc. rewrite (emitted_app _ [Yield _]). symmetry. apply app_nil_r.
  - unfold request. mrun.
    match goal with |- context [consume ?sig ?ch ?fin ?acc ?wx] =>
      pose proof (consume_spec sig fin ch acc wx) as Hc
    end.
    cbn zeta in Hc. set (ds := before_abort _ _) in Hc.
    destruct Hc as (t & r & E & Hr). rewrite E. clear E.
    destruct Hr as [->|(e & _ & ->)]; mrun; [|done].
    unfold collected. mrun. intros [= <-]. mrun.
    eexists _, aiDecide. rewrite <- !app_assoc, !drop_app_length.
    split; [apply list_elem_of_In, in_or_app; right;
            apply in_or_app; right; apply in_or_app; right; apply in_or_app; right;
            apply in_or_app; right; apply in_or_app; right; apply in_or_app; right;
            left; reflexivity|].
    split; [done|]. split; [exact Hnames|]. split; [done|].
    cbn [meta_events]. destruct (collectEvents lib); [|done]. f_equal.
    rewrite !app_assoc. rewrite (emitted_app _ [Yield _]). symmetry. apply app_nil_r.
Qed.

Lemma stream_meta_witness :
  ∃ m aiDecide,
    Yield (end_chunk m)
      ∈ delta_of (stream steady demo_lib "run_a" (InputText "hello") abort_mid) demo_world
    ∧ (on_invoke steady (S (w_requests demo_world))).2 = inr aiDecide
    ∧ meta_usedTools m
      = List.filter (λ s, negb (String.eqb s EmptyString))
          (List.map toolName_of (tool_calls aiDecide))
    ∧ meta_cacheHit m = false
    ∧ meta_events m
      = if collectEvents demo_lib
        then Some (emitted (delta_of (stream steady demo_lib "run_a" (InputText "hello")
                                        abort_mid) demo_world))
        else None.
Proof.
  apply (stream_meta steady demo_lib "run_a" (InputText "hello") abort_mid demo_world
           (stream steady demo_lib "run_a" (InputText "hello") abort_mid demo_world).2).
  vm_compute. reflexivity.
Defined.

(** ** The event bus *)

Lemma log_with_keeps method line bus :
  EventBus.handlers (EventBus.log_with method line bus).1 = EventBus.handlers bus
  ∧ EventBus.calls (EventBus.log_with method line bus).1 = EventBus.calls bus.
Proof. unfold EventBus.log_with. by destruct method. Qed.

(** The handlers called by the loop are the first [k] of the set, all of
    them when the loop is not left early. *)
Lemma deliver_calls throws logger e hs : ∀ bus,
  EventBus.handlers (EventBus.deliver throws logger hs e bus).1 = EventBus.handlers bus
  ∧ ∃ k,
      EventBus.calls (EventBus.deliver throws logger hs e bus).1
      = EventBus.calls bus ++ List.map (λ h, (h, e)) (take k hs)
      ∧ ((EventBus.deliver throws logger hs e bus).2 = None → k = length hs).
Proof.
  induction hs as [|h hs IH]; intros bus; cbn [EventBus.deliver].
  - split; [done|]. exists 0%nat. by rewrite app_nil_r.
  - set (called := EventBus.mkBus (EventBus.handlers bus)
                     (EventBus.calls bus ++ [(h, e)]) (EventBus.logged bus)).
    destruct (throws (EventBus.calls bus) h e) as [err|].
    + unfold EventBus.call_warn.
      destruct (log_with_keeps (logger ≫= EventBus.warn)
                  (EventBus.Warned "[eventBus] handler error" err) called) as [Hh Hc].
      destruct (EventBus.log_with _ _ called) as [bus' [err'|]]; cbn [fst snd] in *.
      * split; [done|]. exists 1%nat. rewrite Hc. cbn. split; [done|]. done.
      * destruct (IH bus') as [Hh' (k & Hc' & Hk)]. split; [by rewrite Hh'|].
        exists (S k). rewrite Hc', Hc. cbn. rewrite <- app_assoc.
        split; [done|]. intros H. f_equal. by apply Hk.
    + destruct (IH called) as [Hh' (k & Hc' & Hk)]. split; [done|].
      exists (S k). rewrite Hc'. cbn. rewrite <- app_assoc.
      split; [done|]. intros H. f_equal. by apply Hk.
Qed.

Lemma emit_body_calls throws logger e bus :
  EventBus.handlers (EventBus.emit_body throws logger e bus).1 = EventBus.handlers bus
  ∧ ∃ k,
      EventBus.calls (EventBus.emit_body throws logger e bus).1
      = EventBus.calls bus ++ List.map (λ h, (h, e)) (take k (EventBus.handlers bus))
      ∧ ((EventBus.deliver throws logger (EventBus.handlers bus) e bus).2 = None →
         k = length (EventBus.handlers bus)).
Proof.
  unfold EventBus.emit_body.
  destruct (deliver_calls throws logger e (EventBus.handlers bus) bus) as [Hh (k & Hc & Hk)].
  destruct (EventBus.deliver _ _ _ _ _) as [bus' [err|]]; cbn [fst snd] in *.
  - split; [done|]. by exists k.
  - destruct (logger ≫= EventBus.debug) as [f|]; [|split; [done|by exists k]].
    destruct (EventBus.valid_time _); [|split; [done|by exists k]].
    destruct (log_with_keeps (Some f) (EventBus.Debugged e) bus') as [Hh' Hc'].
    rewrite Hh', Hc'. split; [done|by exists k].
Qed.

Lemma emit_calls throws logger e bus :
  EventBus.handlers (EventBus.emit throws logger e bus) = EventBus.handlers bus
  ∧ ∃ k,
      EventBus.calls (EventBus.emit throws logger e bus)
      = EventBus.calls bus ++ List.map (λ h, (h, e)) (take k (EventBus.handlers bus))
      ∧ ((EventBus.deliver throws logger (EventBus.handlers bus) e bus).2 = None →
         k = length (EventBus.handlers bus)).
Proof.
  unfold EventBus.emit, EventBus.emit_run.
  destruct (emit_body_calls throws logger e bus) as [Hh (k & Hc & Hk)].
  destruct (EventBus.emit_body _ _ _ _) as [bus' [err|]]; cbn [fst snd] in *.
  - unfold EventBus.call_warn.
    destruct (log_with_keeps (logger ≫= EventBus.warn)
                (EventBus.Warned "[eventBus] emit error" err) bus') as [Hh' Hc'].
    rewrite Hh', Hc'. split; [done|by exists k].
  - split; [done|by exists k].
Qed.






(** X25 (subscriptions are a set).  Subscribing a handler that is already
    subscribed changes nothing, so a single call of an unsubscribe function
    removes it however often it was subscribed: an event emitted afterwards
    does not reach it. *)
Theorem subscription_is_a_set throws logger e h bus :
  EventBus.handlers (EventBus.on h (EventBus.on h bus)) = EventBus.handlers (EventBus.on h bus)
  ∧ h ∈ EventBus.handlers (EventBus.on h bus)
  ∧ (h ∉ EventBus.handlers (EventBus.off h (EventBus.on h (EventBus.on h bus))))
  ∧ ((h, e) ∉ drop (length (EventBus.calls bus))
                (EventBus.calls (EventBus.emit throws logger e
                                   (EventBus.off h (EventBus.on h (EventBus.on h bus)))))).
Proof.
  assert (h ∈ EventBus.handlers (EventBus.on h bus)) as Hin.
  { unfold EventBus.on. cbn. case_bool_decide; [done|]. apply elem_of_app. right.
    apply list_elem_of_here. }
  assert (∀ b, h ∉ EventBus.handlers (EventBus.off h b)) as Hoff.
  { intros b. unfold EventBus.off. cbn. intros Hh%list_elem_of_In.
    apply filter_In in Hh as [_ Hh]. by rewrite Nat.eqb_refl in Hh. }
  split; [|split; [done|split; [apply Hoff|]]].
  - unfold EventBus.on at 1. cbn [EventBus.handlers]. by rewrite bool_decide_eq_true_2.
  - destruct (emit_calls throws logger e
                (EventBus.off h (EventBus.on h (EventBus.on h bus)))) as [_ (k & -> & _)].
    cbn [EventBus.calls EventBus.off EventBus.on]. rewrite drop_app_length.
    intros (h' & [= <-] & Hh)%list_elem_of_fmap.
    apply elem_of_take in Hh as (i & Hi & _). apply list_elem_of_lookup_2 in Hi.
    by apply Hoff in Hi.
Qed.

(** ** Streams that complete *)


